(** * A two-pass assembler: lexical utilities, opcode catalog, symbol table,
      pre-assembler, first pass, encoder, second pass and output emitters.

    The C program is embedded function by function.  C strings are Rocq
    [string]s (text files: no NUL character inside a line), a [char *] that
    may be [NULL] is an [option string], [int] values are [Z] (the counters
    never leave the range of [int] on a source that fits on disk) and
    [unsigned int] fields are [Z] reduced modulo [2^32].  The operand
    buffers of [get_instruction_length] and [encode_instruction] hold 31
    characters and are filled by [sscanf] without a field width: the two
    functions are given their values for operand text that fits
    ([operands_fit]), and every statement about these values carries that
    condition. *)

From Stdlib Require Import ZArith List String Ascii Bool Lia.
Import ListNotations.

Open Scope string_scope.
Open Scope list_scope.
Open Scope Z_scope.

(** ** Characters *)

Module Ctype.

Definition code (c : ascii) : N := N_of_ascii c.

Definition TAB : ascii := ascii_of_N 9.
Definition NL  : ascii := ascii_of_N 10.
Definition DQUOTE : ascii := ascii_of_N 34.

(** [isspace] in the C locale: space, \t, \n, \v, \f, \r. *)
Definition isspace (c : ascii) : bool :=
  (N.eqb (code c) 32 || (N.leb 9 (code c) && N.leb (code c) 13))%bool.

Definition isdigit (c : ascii) : bool :=
  (N.leb 48 (code c) && N.leb (code c) 57)%bool.

Definition isupper (c : ascii) : bool :=
  (N.leb 65 (code c) && N.leb (code c) 90)%bool.

Definition islower (c : ascii) : bool :=
  (N.leb 97 (code c) && N.leb (code c) 122)%bool.

Definition isalpha (c : ascii) : bool := (isupper c || islower c)%bool.

Definition isalnum (c : ascii) : bool := (isalpha c || isdigit c)%bool.

End Ctype.
Import Ctype.

(** ** String helpers standing for the C library calls the program makes *)

Definition strlen (s : string) : Z := Z.of_nat (String.length s).

Definition streq (a b : string) : bool := String.eqb a b.

(** [s[0] == '\0'] *)
Definition is_empty (s : string) : bool :=
  match s with EmptyString => true | _ => false end.

Fixpoint string_forallb (p : ascii -> bool) (s : string) : bool :=
  match s with
  | EmptyString => true
  | String c r => (p c && string_forallb p r)%bool
  end.

Fixpoint mem_char (c : ascii) (set : string) : bool :=
  match set with
  | EmptyString => false
  | String d r => (Ascii.eqb c d || mem_char c r)%bool
  end.

(** Longest prefix whose characters satisfy [p], and what follows it. *)
Fixpoint span (p : ascii -> bool) (s : string) : string * string :=
  match s with
  | EmptyString => (EmptyString, EmptyString)
  | String c r =>
      if p c then let '(a, b) := span p r in (String c a, b)
      else (EmptyString, s)
  end.

Fixpoint skip (p : ascii -> bool) (s : string) : string :=
  match s with
  | EmptyString => EmptyString
  | String c r => if p c then skip p r else s
  end.

(** [strncpy(dst, src, n)] into a buffer whose byte [n] is NUL. *)
Fixpoint strncpy (n : nat) (s : string) : string :=
  match n, s with
  | O, _ => EmptyString
  | _, EmptyString => EmptyString
  | S k, String c r => String c (strncpy k r)
  end.

Fixpoint last_char (s : string) : option ascii :=
  match s with
  | EmptyString => None
  | String c EmptyString => Some c
  | String _ r => last_char r
  end.

Fixpoint remove_last (s : string) : string :=
  match s with
  | EmptyString => EmptyString
  | String _ EmptyString => EmptyString
  | String c r => String c (remove_last r)
  end.

(** One [strtok] call: skip leading delimiters; [None] when nothing is left;
    otherwise the token and the text after the delimiter that ended it (the
    position the next [strtok(NULL, ...)] starts from). *)
Definition strtok (delims : string) (s : string) : option (string * string) :=
  match skip (fun c => mem_char c delims) s with
  | EmptyString => None
  | t =>
      let '(tok, rest) := span (fun c => negb (mem_char c delims)) t in
      Some (tok, match rest with EmptyString => EmptyString | String _ r => r end)
  end.

(** All the tokens of repeated [strtok] calls with the same delimiters. *)
Fixpoint tokens_from (delims : string) (cur : string) (s : string) : list string :=
  match s with
  | EmptyString => if is_empty cur then [] else [cur]
  | String c r =>
      if mem_char c delims
      then (if is_empty cur then tokens_from delims EmptyString r
            else cur :: tokens_from delims EmptyString r)
      else tokens_from delims (cur ++ String c EmptyString)%string r
  end.

Definition strtok_all (delims : string) (s : string) : list string :=
  tokens_from delims EmptyString s.

(** ** utilities.c *)

Definition MAX_LABEL_LENGTH : nat := 31.
Definition MAX_LINE_LENGTH : nat := 80.
Definition FIRST_ADDRESS : Z := 100.

(** [trim]: drop leading white space, then cut after the last character that
    is not white space. *)
Fixpoint drop_trailing_space (s : string) : string :=
  match s with
  | EmptyString => EmptyString
  | String c r =>
      match drop_trailing_space r with
      | EmptyString => if isspace c then EmptyString else String c EmptyString
      | r' => String c r'
      end
  end.

Definition trim (s : string) : string :=
  drop_trailing_space (skip isspace s).

(** [handle_comment]: truncate at the first semicolon. *)
Definition handle_comment (s : string) : string :=
  fst (span (fun c => negb (Ascii.eqb c ";")) s).

(** [handle_extra_spaces]: the write buffer is kept reversed in [out]. *)
Fixpoint extra_spaces_loop (read : string) (out : list ascii) (in_word : bool)
  : list ascii :=
  match read with
  | EmptyString =>
      match out with
      | c :: o => if Ascii.eqb c " " then o else out
      | [] => out
      end
  | String c r =>
      if isspace c then
        if in_word then extra_spaces_loop r (" "%char :: out) false
        else extra_spaces_loop r out in_word
      else if Ascii.eqb c "," then
        let out' := match out with
                    | d :: o => if Ascii.eqb d " " then o else out
                    | [] => out
                    end in
        extra_spaces_loop r (","%char :: out') false
      else extra_spaces_loop r (c :: out) true
  end.

Definition handle_extra_spaces (s : string) : string :=
  string_of_list_ascii (rev (extra_spaces_loop s [] false)).

Definition is_register (s : string) : bool :=
  match s with
  | String c0 (String c1 EmptyString) =>
      (Ascii.eqb c0 "r" && N.leb 48 (code c1) && N.leb (code c1) 55)%bool
  | _ => false
  end.

Definition get_register_number (s : string) : Z :=
  match s with
  | String c0 (String c1 EmptyString) =>
      if (Ascii.eqb c0 "r" && N.leb 48 (code c1) && N.leb (code c1) 55)%bool
      then Z.of_N (code c1) - 48 else -1
  | _ => -1
  end.

Definition is_number (s : string) : bool :=
  let s1 := match s with
            | String c r => if Ascii.eqb c "#" then r else s
            | _ => s end in
  let s2 := match s1 with
            | String c r => if (Ascii.eqb c "-" || Ascii.eqb c "+")%bool then r else s1
            | _ => s1 end in
  match s2 with
  | EmptyString => false
  | _ => string_forallb isdigit s2
  end.

(** The number [strtol(s, NULL, 10)] reads: leading white space, an optional
    sign, then the decimal digits up to the first character that is not
    one. *)
Fixpoint atoi_digits (acc : Z) (s : string) : Z :=
  match s with
  | String c r =>
      if isdigit c then atoi_digits (10 * acc + (Z.of_N (code c) - 48)) r else acc
  | EmptyString => acc
  end.

Definition decimal_value (s : string) : Z :=
  match skip isspace s with
  | String c r =>
      if Ascii.eqb c "-" then - atoi_digits 0 r
      else if Ascii.eqb c "+" then atoi_digits 0 r
      else atoi_digits 0 (String c r)
  | EmptyString => 0
  end.

Definition LONG_MAX : Z := 9223372036854775807.
Definition LONG_MIN : Z := -9223372036854775808.

(** Conversion of a [long] to [int]: the low 32 bits, in two's complement. *)
Definition to_int (z : Z) : Z := (z + 2147483648) mod 4294967296 - 2147483648.

(** [atoi] is [(int) strtol(s, NULL, 10)] in the C library the program is
    built with: a number beyond the range of [long] (64 bits) is read as
    [LONG_MAX] or [LONG_MIN], and the [long] is converted to [int]. *)
Definition atoi (s : string) : Z :=
  to_int (Z.max LONG_MIN (Z.min LONG_MAX (decimal_value s))).

Definition validate_string (s : string) : bool :=
  match s with
  | String c0 r =>
      match r with
      | EmptyString => false
      | _ =>
          (Ascii.eqb c0 DQUOTE &&
           match last_char r with Some c => Ascii.eqb c DQUOTE | None => false end &&
           string_forallb (fun c => negb (Ascii.eqb c DQUOTE)) (remove_last r))%bool
      end
  | EmptyString => false
  end.

(** ** opcode_table.c *)

Record OpcodeEntry := { mnemonic : string; opcode_of : Z; operands_of : Z }.

Definition opcode_table : list OpcodeEntry :=
  [ {| mnemonic := "mov";  opcode_of := 0;  operands_of := 2 |};
    {| mnemonic := "cmp";  opcode_of := 1;  operands_of := 2 |};
    {| mnemonic := "add";  opcode_of := 2;  operands_of := 2 |};
    {| mnemonic := "sub";  opcode_of := 3;  operands_of := 2 |};
    {| mnemonic := "lea";  opcode_of := 4;  operands_of := 2 |};
    {| mnemonic := "clr";  opcode_of := 5;  operands_of := 1 |};
    {| mnemonic := "not";  opcode_of := 6;  operands_of := 1 |};
    {| mnemonic := "inc";  opcode_of := 7;  operands_of := 1 |};
    {| mnemonic := "dec";  opcode_of := 8;  operands_of := 1 |};
    {| mnemonic := "jmp";  opcode_of := 9;  operands_of := 1 |};
    {| mnemonic := "bne";  opcode_of := 10; operands_of := 1 |};
    {| mnemonic := "red";  opcode_of := 11; operands_of := 1 |};
    {| mnemonic := "prn";  opcode_of := 12; operands_of := 1 |};
    {| mnemonic := "jsr";  opcode_of := 13; operands_of := 1 |};
    {| mnemonic := "rts";  opcode_of := 14; operands_of := 0 |};
    {| mnemonic := "stop"; opcode_of := 15; operands_of := 0 |} ].

Definition lookup_opcode (m : string) : option OpcodeEntry :=
  find (fun e => streq (mnemonic e) m) opcode_table.

Definition get_opcode (m : string) : Z :=
  match lookup_opcode m with Some e => opcode_of e | None => -1 end.

Definition get_operand_count (m : string) : Z :=
  match lookup_opcode m with Some e => operands_of e | None => -1 end.

(** ** utilities.c, continued: classification of tokens and operands *)

Definition is_label (token : string) : bool :=
  match token with
  | EmptyString => false
  | String c rest =>
      if (Z.of_nat MAX_LABEL_LENGTH <? strlen token) then false
      else if negb (isalpha c) then false
      else if (is_register token || negb (get_opcode token =? -1))%bool then false
      else string_forallb isalnum rest
  end.

Definition is_directive (token : string) : bool :=
  match token with
  | String c _ =>
      (Ascii.eqb c "." &&
       (streq token ".data" || streq token ".string" ||
        streq token ".entry" || streq token ".extern"))%bool
  | EmptyString => false
  end.

(** The operand is a [char *]: [None] is [NULL]. *)
Definition get_addressing_mode (operand : option string) : Z :=
  match operand with
  | None => 4
  | Some EmptyString => 4
  | Some (String c0 rest) =>
      if (Ascii.eqb c0 " " && is_empty rest)%bool then 4
      else if (Ascii.eqb c0 "#" && is_number (String c0 rest))%bool then 0
      else if (Ascii.eqb c0 "r" && is_register (String c0 rest))%bool then 3
      else if (Ascii.eqb c0 "*" &&
               match rest with
               | String c1 _ => (Ascii.eqb c1 "r" && is_register rest)%bool
               | EmptyString => false
               end)%bool then 2
      else 1
  end.

(** [sscanf(operands, "%[^,], %s", source, target)] on zero-filled buffers:
    [%[^,]] needs at least one character other than a comma, the comma must
    follow, white space is skipped, and [%s] takes the characters up to the
    next white space.  A directive that fails leaves its buffer empty. *)
Definition scan_operands (operands : string) : string * string :=
  match span (fun c => negb (Ascii.eqb c ",")) operands with
  | (EmptyString, _) => (EmptyString, EmptyString)
  | (src, String _ after_comma) =>
      (src, fst (span (fun c => negb (isspace c)) (skip isspace after_comma)))
  | (src, EmptyString) => (src, EmptyString)
  end.

(** Both buffers are [char[MAX_LABEL_LENGTH + 1]] and the two directives
    have no field width: a field of more than [MAX_LABEL_LENGTH] characters
    is written past the end of its buffer, and from there on the C program
    has no defined behaviour.  [scan_operands] is the content of the buffers
    when [operands_fit] holds, that is when each field leaves room for its
    terminating NUL. *)
Definition operands_fit (operands : string) : bool :=
  let '(source, target) := scan_operands operands in
  ((String.length source <=? MAX_LABEL_LENGTH)%nat &&
   (String.length target <=? MAX_LABEL_LENGTH)%nat)%bool.

(** The same for the [char *] the two functions receive; nothing is scanned
    for a null pointer. *)
Definition buffers_fit (operands : option string) : bool :=
  match operands with
  | Some ops => operands_fit ops
  | None => true
  end.

(** The two operand buffers after [sscanf] and the two [trim] calls. *)
Definition split_operands (operands : string) : string * string :=
  let '(source, target) := scan_operands operands in
  (trim source, trim target).

Definition is_register_mode (m : Z) : bool := ((m =? 3) || (m =? 2))%bool.

Definition get_instruction_length (operation : string) (operands : option string) : Z :=
  match operands with
  | None => 1
  | Some ops =>
      let '(source, target) := split_operands ops in
      let source_mode := get_addressing_mode (Some source) in
      let target_mode := get_addressing_mode (Some target) in
      let length := 1 in
      let operand_count := 0 in
      let '(length, operand_count) :=
        if negb (is_empty source) then (length + 1, operand_count + 1)
        else (length, operand_count) in
      let '(length, operand_count) :=
        if negb (is_empty target) then (length + 1, operand_count + 1)
        else (length, operand_count) in
      if negb (operand_count =? get_operand_count operation) then -1
      else if (is_register_mode source_mode && is_register_mode target_mode)%bool
           then 2
           else length
  end.

Definition count_data_values (operands : string) : Z :=
  Z.of_nat (List.length (strtok_all "," operands)).

(** ** error_handling.c *)

Inductive ErrorCategory :=
| ERR_MEMORY | ERR_FILE_INPUT | ERR_FILE_OUTPUT | ERR_SYNTAX
| ERR_SEMANTIC | ERR_MACRO | ERR_OVERFLOW | ERR_SYMBOL.

Record ErrorInfo := {
  category : ErrorCategory;
  specific_message : string;
  error_file : string;
  error_line : Z
}.

Definition MAX_ERRORS : nat := 100.

(** The process-wide log: an entry is stored only while there is room. *)
Definition ErrorLog := list ErrorInfo.

Definition log_error (c : ErrorCategory) (msg file : string) (line : Z)
  (log : ErrorLog) : ErrorLog :=
  if (List.length log <? MAX_ERRORS)%nat
  then log ++ [ {| category := c; specific_message := msg;
                   error_file := file; error_line := line |} ]
  else log.

(** ** symbol_table.c *)

Definition MAX_EXTERNAL_REFERENCES : nat := 100.

Inductive SymbolType :=
| SYMBOL_TYPE_CODE | SYMBOL_TYPE_DATA | SYMBOL_TYPE_ENTRY | SYMBOL_TYPE_EXTERNAL.

Definition SymbolType_eqb (a b : SymbolType) : bool :=
  match a, b with
  | SYMBOL_TYPE_CODE, SYMBOL_TYPE_CODE
  | SYMBOL_TYPE_DATA, SYMBOL_TYPE_DATA
  | SYMBOL_TYPE_ENTRY, SYMBOL_TYPE_ENTRY
  | SYMBOL_TYPE_EXTERNAL, SYMBOL_TYPE_EXTERNAL => true
  | _, _ => false
  end.

Record Symbol := { name : string; address : Z; type : SymbolType }.

(** [reference_count] is the length of [references]. *)
Record ExternalSymbol := { ext_name : string; references : list Z }.

Definition ExternalTable := list ExternalSymbol.

Record SymbolTable := {
  symbols : list Symbol;
  has_entries : bool;
  has_externs : bool;
  external_table : ExternalTable
}.

Definition init_symbol_table : SymbolTable :=
  {| symbols := []; has_entries := false; has_externs := false;
     external_table := [] |}.

Definition find_symbol (table : SymbolTable) (n : string) : option Symbol :=
  find (fun s => streq (name s) n) (symbols table).

(** [macros] holds the names of the global macro table.  Allocation is taken
    to succeed.  The result is the returned flag, the table and the log. *)
Definition add_symbol (macros : list string) (table : SymbolTable) (n : string)
  (addr : Z) (ty : SymbolType) (file : string) (line : Z) (log : ErrorLog)
  : bool * SymbolTable * ErrorLog :=
  if existsb (fun s => streq (name s) n) (symbols table) then
    (false, table, log_error ERR_SYMBOL "Duplicate symbol definition" file line log)
  else if existsb (fun m => streq m n) macros then
    (false, table,
     log_error ERR_SYMBOL "Symbol name conflicts with macro name" file line log)
  else
    let symbol := {| name := strncpy MAX_LABEL_LENGTH n; address := addr; type := ty |} in
    (true,
     {| symbols := symbols table ++ [symbol];
        has_entries := match ty with SYMBOL_TYPE_ENTRY => true | _ => has_entries table end;
        has_externs := match ty with SYMBOL_TYPE_EXTERNAL => true | _ => has_externs table end;
        external_table := external_table table |},
     log).

Fixpoint add_external_reference (table : ExternalTable) (n : string) (addr : Z)
  : ExternalTable :=
  match table with
  | [] => [ {| ext_name := n; references := [addr] |} ]
  | e :: rest =>
      if streq (ext_name e) n then
        (if (List.length (references e) <? MAX_EXTERNAL_REFERENCES)%nat
         then {| ext_name := ext_name e; references := references e ++ [addr] |}
         else e) :: rest
      else e :: add_external_reference rest n addr
  end.

Definition with_external_table (table : SymbolTable) (x : ExternalTable) : SymbolTable :=
  {| symbols := symbols table; has_entries := has_entries table;
     has_externs := has_externs table; external_table := x |}.

(** ** utilities.c: the encoder *)

Definition UINT_MOD : Z := 4294967296.

(** Conversion of an [int] to [unsigned int]. *)
Definition to_uint (z : Z) : Z := z mod UINT_MOD.

Record Instruction := {
  opcode : Z;
  source_addressing : Z;
  target_addressing : Z;
  are : Z;
  source_are : Z;
  target_are : Z;
  source_operand : Z;
  target_operand : Z
}.

(** The returned [int], the value left in [*are], and the symbol table with
    its external-reference index. *)
Definition encode_operand (operand : string) (table : SymbolTable) (are0 : Z)
  (addr : Z) (is_source : bool) : Z * Z * SymbolTable :=
  let mode := get_addressing_mode (Some operand) in
  if mode =? 0 then
    (Z.land (atoi (match operand with String _ r => r | EmptyString => EmptyString end)) 4095,
     4, table)
  else if mode =? 1 then
    match find_symbol table operand with
    | Some symbol =>
        match type symbol with
        | SYMBOL_TYPE_EXTERNAL =>
            (1, 1,
             with_external_table table
               (add_external_reference (external_table table) operand
                  (addr + (if is_source then 1 else 2))))
        | _ => (address symbol, 2, table)
        end
    | None => (-1, are0, table)
    end
  else if mode =? 2 then
    (Z.land (get_register_number
               (match operand with String _ r => r | EmptyString => EmptyString end)) 7,
     4, table)
  else if mode =? 3 then
    (Z.land (get_register_number operand) 7, 4, table)
  else (-1, are0, table).

Definition encode_instruction (operation : string) (operands : option string)
  (table : SymbolTable) (addr : Z) : Instruction * SymbolTable :=
  let '(source, target) :=
    match operands with
    | Some ops => split_operands ops
    | None => (EmptyString, EmptyString)
    end in
  let '(source, target) :=
    if is_empty target then (EmptyString, source) else (source, target) in
  let source_addressing := get_addressing_mode (Some source) in
  let target_addressing := get_addressing_mode (Some target) in
  let '(source_operand, source_are, table) :=
    if negb (source_addressing =? 4)
    then let '(v, a, t) := encode_operand source table 4 addr true in (to_uint v, a, t)
    else (0, 4, table) in
  let '(target_operand, target_are, table) :=
    if negb (target_addressing =? 4)
    then let '(v, a, t) := encode_operand target table 4 addr false in (to_uint v, a, t)
    else (0, 4, table) in
  ({| opcode :=
        if ((target_operand =? to_uint (-1)) || (source_operand =? to_uint (-1)))%bool
        then to_uint (-1) else to_uint (get_opcode operation);
      source_addressing := source_addressing;
      target_addressing := target_addressing;
      are := 4;
      source_are := source_are;
      target_are := target_are;
      source_operand := source_operand;
      target_operand := target_operand |},
   table).

(** The first word as printed: [first_word & 0x7FFF]. *)
Definition first_word (inst : Instruction) : Z :=
  let w := Z.shiftl (Z.land (opcode inst) 15) 11 in
  let w := if negb (source_addressing inst =? 4)
           then Z.lor w (Z.shiftl 1 (7 + source_addressing inst)) else w in
  let w := if negb (target_addressing inst =? 4)
           then Z.lor w (Z.shiftl 1 (3 + target_addressing inst)) else w in
  let w := Z.lor w 4 in
  Z.land w 32767.

Definition source_word (inst : Instruction) : Z :=
  if source_are inst =? 1 then Z.land (source_are inst) 7
  else if source_addressing inst =? 1 then
    Z.lor (Z.shiftl (Z.land (source_operand inst) 4095) 3) (Z.land (source_are inst) 7)
  else Z.lor (Z.shiftl (Z.land (source_operand inst) 7) 6) 4.

Definition target_word (inst : Instruction) : Z :=
  if target_are inst =? 1 then Z.land (target_are inst) 7
  else if target_addressing inst =? 0 then
    Z.lor (Z.shiftl (Z.land (target_operand inst) 4095) 3) 4
  else if target_addressing inst =? 1 then
    Z.lor (Z.shiftl (Z.land (target_operand inst) 4095) 3) (Z.land (target_are inst) 7)
  else Z.lor (Z.shiftl (Z.land (target_operand inst) 7) 3) 4.

(** An output line of the code stream: the address and the word printed by
    ["%04d %05o\n"]. *)
Definition WordLine : Type := Z * Z.

Definition write_instruction (inst : Instruction) (addr : Z) : list WordLine :=
  let first := (addr, first_word inst) in
  if (((source_addressing inst =? 2) || (source_addressing inst =? 3)) &&
      ((target_addressing inst =? 2) || (target_addressing inst =? 3)))%bool
  then
    let reg_word :=
      Z.lor (Z.lor (Z.shiftl (Z.land (source_operand inst) 7) 6)
                   (Z.shiftl (Z.land (target_operand inst) 7) 3)) 4 in
    [first; (addr + 1, reg_word)]
  else
    let '(src, add_words) :=
      if negb (source_addressing inst =? 4)
      then ([(addr + 1, source_word inst)], 2)
      else ([], 1) in
    let tgt :=
      if negb (target_addressing inst =? 4)
      then [(addr + add_words, target_word inst)]
      else [] in
    first :: src ++ tgt.

Definition write_data (data : option string) (addr : Z) : list WordLine * Z :=
  match data with
  | None => ([], addr)
  | Some d =>
      fold_left
        (fun '(out, a) token =>
           (out ++ [(a, Z.land (atoi token mod 65536) 32767)], a + 1))
        (strtok_all "," d) ([], addr)
  end.

Fixpoint write_string_chars (s : string) (addr : Z) : list WordLine * Z :=
  match s with
  | EmptyString => ([(addr, 0)], addr + 1)
  | String c r =>
      if Ascii.eqb c DQUOTE then ([(addr, 0)], addr + 1)
      else let '(out, a) := write_string_chars r (addr + 1) in
           ((addr, Z.of_N (code c)) :: out, a)
  end.

(** [operands + 1]; the operand text is never empty when it is not [NULL]. *)
Definition write_string (operands : string) (addr : Z) : list WordLine * Z :=
  write_string_chars
    (match operands with String _ r => r | EmptyString => EmptyString end) addr.

(** ** Reading a text file with [fgets(line, MAX_LINE_LENGTH + 1, file)] *)

(** [room] counts the characters the buffer can still take; a piece ends
    after a newline, when the buffer is full, or at the end of the file. *)
Fixpoint fgets_loop (room : nat) (cur : string) (s : string) : list string :=
  match s with
  | EmptyString => if is_empty cur then [] else [cur]
  | String c r =>
      let cur' := (cur ++ String c EmptyString)%string in
      if Ascii.eqb c NL then cur' :: fgets_loop MAX_LINE_LENGTH EmptyString r
      else match room with
           | S (S k) => fgets_loop (S k) cur' r
           | _ => cur' :: fgets_loop MAX_LINE_LENGTH EmptyString r
           end
  end.

Definition read_lines (file : string) : list string :=
  fgets_loop MAX_LINE_LENGTH EmptyString file.

(** ** pre_assembler.c *)

Record Macro := { macro_name : string; macro_lines : list string }.

Definition MacroTable := list Macro.

(** The lines [add_macro] stores, and the lines left in the file once it has
    stepped back before the [endmacr] line. *)
Fixpoint add_macro_lines (lines : list string) : list string * list string :=
  match lines with
  | [] => ([], [])
  | line :: rest =>
      if streq (trim line) "endmacr" then ([], lines)
      else let '(body, remaining) := add_macro_lines rest in (line :: body, remaining)
  end.

Definition is_reserved_word (word : string) : bool :=
  if negb (get_opcode word =? -1) then true
  else if is_register word then true
  else existsb (streq word) ["macr"; "endmacr"; "data"; "string"; "entry"; "extern"].

Definition is_valid_macro_name (n : string) : bool :=
  match n with
  | EmptyString => false
  | String c rest =>
      if negb (isalpha c) then false
      else if negb (string_forallb isalnum rest) then false
      else negb (is_reserved_word n)
  end.

Definition expand_macro (table : MacroTable) (n : string) : string :=
  match find (fun m => streq (macro_name m) n) table with
  | Some m => String.concat EmptyString (macro_lines m)
  | None => EmptyString
  end.

Fixpoint string_drop (n : nat) (s : string) : string :=
  match n, s with
  | O, _ => s
  | S k, String _ r => string_drop k r
  | S _, EmptyString => EmptyString
  end.

(** [sscanf(s, "%s", buf)]: the buffer keeps its content when nothing is read. *)
Definition scan_word (s : string) (buf : string) : string :=
  match fst (span (fun c => negb (isspace c)) (skip isspace s)) with
  | EmptyString => buf
  | w => w
  end.

Record PreState := {
  macro_table : MacroTable;
  macro_name_buf : string;
  am_output : string;
  pre_error : bool;
  pre_log : ErrorLog
}.

(** The main loop.  [add_macro] reads from the same file, so the loop resumes
    on the lines it left; [fuel] bounds the number of iterations and
    [None] is returned only when it runs out. *)
Fixpoint pre_assembler_loop (fuel : nat) (file : string) (lines : list string)
  (line_number : Z) (st : PreState) : option PreState :=
  match lines with
  | [] => Some st
  | line :: rest =>
      match fuel with
      | O => None
      | S fuel' =>
          let line_number := line_number + 1 in
          let trimmed_line := trim line in
          if (Z.of_nat MAX_LINE_LENGTH <? strlen trimmed_line) then
            pre_assembler_loop fuel' file rest line_number
              {| macro_table := macro_table st; macro_name_buf := macro_name_buf st;
                 am_output := am_output st; pre_error := true;
                 pre_log := log_error ERR_SYNTAX "Line exceeds maximum length"
                              file line_number (pre_log st) |}
          else if String.prefix "macr" trimmed_line then
            let mname := scan_word (string_drop 4 trimmed_line) (macro_name_buf st) in
            if is_valid_macro_name mname then
              let '(body, remaining) := add_macro_lines rest in
              pre_assembler_loop fuel' file remaining
                (line_number + Z.of_nat (List.length body))
                {| macro_table := macro_table st ++
                                  [ {| macro_name := mname; macro_lines := body |} ];
                   macro_name_buf := mname;
                   am_output := am_output st; pre_error := pre_error st;
                   pre_log := pre_log st |}
            else
              pre_assembler_loop fuel' file rest line_number
                {| macro_table := macro_table st; macro_name_buf := mname;
                   am_output := am_output st; pre_error := true;
                   pre_log := log_error ERR_MACRO "Invalid macro name"
                                file line_number (pre_log st) |}
          else if streq trimmed_line "endmacr" then
            pre_assembler_loop fuel' file rest line_number st
          else
            let text :=
              match find (fun m => streq trimmed_line (macro_name m)) (macro_table st) with
              | Some m => expand_macro (macro_table st) (macro_name m)
              | None => line
              end in
            pre_assembler_loop fuel' file rest line_number
              {| macro_table := macro_table st; macro_name_buf := macro_name_buf st;
                 am_output := (am_output st ++ text)%string;
                 pre_error := pre_error st; pre_log := pre_log st |}
      end
  end.

(** [pre_assembler] on the text of the input file and the log so far; both
    files are taken to open, and the macro-name buffer to start empty.  The
    fuel is the number of pieces in the file, which is always enough
    ([pre_assembler_total] below). *)
Definition pre_assembler (file : string) (input : string) (log : ErrorLog)
  : option PreState :=
  let lines := read_lines input in
  pre_assembler_loop (List.length lines) file lines 0
    {| macro_table := []; macro_name_buf := EmptyString;
       am_output := EmptyString; pre_error := false; pre_log := log |}.

(** ** output_generator.c *)

Definition digit_char (d : Z) : ascii := ascii_of_N (48 + Z.to_N d).

Fixpoint digits_loop (fuel : nat) (base n : Z) (acc : string) : string :=
  match fuel with
  | O => acc
  | S f =>
      let acc' := String (digit_char (n mod base)) acc in
      if n / base =? 0 then acc' else digits_loop f base (n / base) acc'
  end.

(** The digits of [n >= 0] in base 8 or 10. *)
Definition digits (base n : Z) : string :=
  digits_loop (S (Z.to_nat (Z.log2 n))) base n EmptyString.

Fixpoint zeros (n : nat) : string :=
  match n with O => EmptyString | S k => String "0" (zeros k) end.

Definition pad (width : nat) (s : string) : string :=
  (zeros (width - String.length s) ++ s)%string.

(** ["%d"] and ["%0<width>d"] *)
Definition fmt_d (width : nat) (n : Z) : string :=
  if n <? 0 then String "-" (pad (width - 1) (digits 10 (- n)))
  else pad width (digits 10 n).

(** ["%0<width>o"] of an [unsigned int] *)
Definition fmt_o (width : nat) (n : Z) : string :=
  pad width (digits 8 (to_uint n)).

Definition NLs : string := String NL EmptyString.

Definition fmt_word_line (l : WordLine) : string :=
  (fmt_d 4 (fst l) ++ " " ++ fmt_o 5 (snd l) ++ NLs)%string.

(** The text of the temporary code stream. *)
Definition code_stream (ls : list WordLine) : string :=
  String.concat EmptyString (map fmt_word_line ls).

Definition generate_ob_file (temp : list WordLine) (IC DC : Z) : string :=
  (fmt_d 0 (IC - FIRST_ADDRESS) ++ " " ++ fmt_d 0 DC ++ NLs ++ code_stream temp)%string.

Definition generate_ent_file (table : SymbolTable) : string :=
  String.concat EmptyString
    (map (fun s => (name s ++ " " ++ fmt_d 4 (address s) ++ NLs)%string)
         (filter (fun s => SymbolType_eqb (type s) SYMBOL_TYPE_ENTRY) (symbols table))).

Definition generate_ext_file (table : SymbolTable) : string :=
  String.concat EmptyString
    (flat_map (fun e => map (fun r => (ext_name e ++ " " ++ fmt_d 4 r ++ NLs)%string)
                            (references e))
              (external_table table)).

(** The three files; [None] is a file that is not created. *)
Record Outputs := {
  ob_file : string;
  ent_file : option string;
  ext_file : option string
}.

Definition generate_output (table : SymbolTable) (temp : list WordLine) (IC DC : Z)
  : Outputs :=
  {| ob_file := generate_ob_file temp IC DC;
     ent_file := if has_entries table then Some (generate_ent_file table) else None;
     ext_file := if has_externs table then Some (generate_ext_file table) else None |}.

(** ** first_pass.c *)

Definition SP_TAB : string := String " " (String TAB EmptyString).
Definition SP_TAB_NL : string := String " " (String TAB (String NL EmptyString)).
Definition COMMA_SP_TAB : string := String "," (String " " (String TAB EmptyString)).

Definition ends_with_colon (token : string) : bool :=
  match last_char token with Some c => Ascii.eqb c ":" | None => false end.

(** The three buffers [label], [operation], [operands] of one line, or the
    early exit on a label that is not legal. *)
Inductive FirstLine :=
| IllegalLabel
| Statement (label operation operands : string).

Definition operation_and_operands (label : string) (token : option (string * string))
  : FirstLine :=
  match token with
  | Some (tok, rest) =>
      Statement label (strncpy MAX_LABEL_LENGTH tok)
        (match strtok NLs rest with
         | Some (t, _) => trim (strncpy MAX_LINE_LENGTH t)
         | None => EmptyString
         end)
  | None => Statement label EmptyString EmptyString
  end.

Definition first_pass_tokens (line : string) : FirstLine :=
  match strtok SP_TAB_NL line with
  | Some (tok, rest) =>
      if ends_with_colon tok then
        let label := strncpy MAX_LABEL_LENGTH (remove_last tok) in
        if negb (is_label label) then IllegalLabel
        else operation_and_operands label (strtok SP_TAB rest)
      else operation_and_operands EmptyString (Some (tok, rest))
  | None => operation_and_operands EmptyString None
  end.

Record FirstState := {
  fp_table : SymbolTable;
  fp_IC : Z;
  fp_DC : Z;
  fp_error_found : bool;
  fp_log : ErrorLog
}.

Definition fp_error (c : ErrorCategory) (msg file : string) (line : Z) (st : FirstState)
  : FirstState :=
  {| fp_table := fp_table st; fp_IC := fp_IC st; fp_DC := fp_DC st;
     fp_error_found := true; fp_log := log_error c msg file line (fp_log st) |}.

(** [add_symbol] on the first-pass state; a refused symbol sets [error_found]. *)
Definition fp_add_symbol (macros : list string) (file : string) (line : Z)
  (n : string) (addr : Z) (ty : SymbolType) (st : FirstState) : bool * FirstState :=
  let '(ok, table, log) := add_symbol macros (fp_table st) n addr ty file line (fp_log st) in
  (ok, {| fp_table := table; fp_IC := fp_IC st; fp_DC := fp_DC st;
          fp_error_found := if ok then fp_error_found st else true;
          fp_log := log |}).

Definition fp_add_label (macros : list string) (file : string) (line : Z)
  (label : string) (addr : Z) (ty : SymbolType) (st : FirstState) : FirstState :=
  if negb (is_empty label) then snd (fp_add_symbol macros file line label addr ty st)
  else st.

Definition fp_set_counters (ic dc : Z) (st : FirstState) : FirstState :=
  {| fp_table := fp_table st; fp_IC := ic; fp_DC := dc;
     fp_error_found := fp_error_found st; fp_log := fp_log st |}.

Definition fp_set_flags (entries externs : bool) (st : FirstState) : FirstState :=
  {| fp_table := {| symbols := symbols (fp_table st);
                    has_entries := entries; has_externs := externs;
                    external_table := external_table (fp_table st) |};
     fp_IC := fp_IC st; fp_DC := fp_DC st;
     fp_error_found := fp_error_found st; fp_log := fp_log st |}.

Definition fp_extern_symbol (macros : list string) (file : string) (line : Z)
  (st : FirstState) (token : string) : FirstState :=
  let '(ok, st1) := fp_add_symbol macros file line token 0 SYMBOL_TYPE_EXTERNAL st in
  if ok then st1
  else fp_error ERR_SYMBOL "Duplicate external symbol definition" file line st1.

Definition first_pass_statement (macros : list string) (file : string) (line : Z)
  (label operation operands : string) (st : FirstState) : FirstState :=
  if is_directive operation then
    if streq operation ".data" then
      let st := fp_add_label macros file line label (fp_DC st) SYMBOL_TYPE_DATA st in
      let data_count := count_data_values operands in
      if data_count =? -1 then fp_error ERR_SYNTAX "Invalid .data directive" file line st
      else fp_set_counters (fp_IC st) (fp_DC st + data_count) st
    else if streq operation ".string" then
      let st := fp_add_label macros file line label (fp_DC st) SYMBOL_TYPE_DATA st in
      if negb (validate_string operands)
      then fp_error ERR_SYNTAX "Invalid .string directive" file line st
      else fp_set_counters (fp_IC st) (fp_DC st + (strlen operands - 2 + 1)) st
    else if streq operation ".entry" then
      fp_set_flags true (has_externs (fp_table st)) st
    else if streq operation ".extern" then
      let operands := trim operands in
      if is_empty operands
      then fp_error ERR_SYNTAX "Missing operand for .extern directive" file line st
      else
        let st := fold_left (fp_extern_symbol macros file line)
                            (strtok_all COMMA_SP_TAB operands) st in
        fp_set_flags (has_entries (fp_table st)) true st
    else st
  else if negb (get_opcode operation =? -1) then
    let inst_length := get_instruction_length operation (Some operands) in
    if inst_length =? -1
    then fp_error ERR_SYNTAX "Invalid instruction format" file line st
    else
      let st := fp_add_label macros file line label (fp_IC st) SYMBOL_TYPE_CODE st in
      fp_set_counters (fp_IC st + inst_length) (fp_DC st) st
  else fp_error ERR_SYNTAX "Unknown operation" file line st.

(** One iteration of the reading loop, on the piece [raw] returned by [fgets]. *)
Definition first_pass_line (macros : list string) (file : string) (line_number : Z)
  (raw : string) (st : FirstState) : FirstState :=
  let line := trim (handle_extra_spaces (handle_comment raw)) in
  if is_empty line then st
  else if (Z.of_nat MAX_LINE_LENGTH <? strlen line)
  then fp_error ERR_SYNTAX "Line exceeds maximum length" file line_number st
  else
    match first_pass_tokens line with
    | IllegalLabel => fp_error ERR_SYNTAX "Illegal label" file line_number st
    | Statement label operation operands =>
        first_pass_statement macros file line_number label operation operands st
    end.

Fixpoint first_pass_loop (macros : list string) (file : string) (line_number : Z)
  (lines : list string) (st : FirstState) : FirstState :=
  match lines with
  | [] => st
  | raw :: rest =>
      first_pass_loop macros file (line_number + 1) rest
        (first_pass_line macros file (line_number + 1) raw st)
  end.

(** The loop that updates the addresses of the data symbols. *)
Definition rebase_symbol (IC : Z) (s : Symbol) : Symbol :=
  match type s with
  | SYMBOL_TYPE_DATA => {| name := name s; address := address s + IC; type := type s |}
  | _ => s
  end.

Definition rebase_data (IC : Z) (table : SymbolTable) : SymbolTable :=
  {| symbols := map (rebase_symbol IC) (symbols table);
     has_entries := has_entries table; has_externs := has_externs table;
     external_table := external_table table |}.

(** ** second_pass.c *)

Record SecondState := {
  sp_table : SymbolTable;
  sp_address : Z;
  sp_error_found : bool;
  sp_log : ErrorLog;
  sp_code : list WordLine
}.

Definition sp_error (c : ErrorCategory) (msg file : string) (line : Z) (st : SecondState)
  : SecondState :=
  {| sp_table := sp_table st; sp_address := sp_address st; sp_error_found := true;
     sp_log := log_error c msg file line (sp_log st); sp_code := sp_code st |}.

Definition sp_emit (ws : list WordLine) (addr : Z) (st : SecondState) : SecondState :=
  {| sp_table := sp_table st; sp_address := addr;
     sp_error_found := sp_error_found st; sp_log := sp_log st;
     sp_code := sp_code st ++ ws |}.

Definition sp_set_table (table : SymbolTable) (st : SecondState) : SecondState :=
  {| sp_table := table; sp_address := sp_address st;
     sp_error_found := sp_error_found st; sp_log := sp_log st; sp_code := sp_code st |}.

(** [symbol->type = SYMBOL_TYPE_ENTRY] on the symbol [find_symbol] returned. *)
Fixpoint set_entry (n : string) (syms : list Symbol) : list Symbol :=
  match syms with
  | [] => []
  | s :: rest =>
      if streq (name s) n
      then {| name := name s; address := address s; type := SYMBOL_TYPE_ENTRY |} :: rest
      else s :: set_entry n rest
  end.

(** The [.entry] branch; [symbol_name] is the result of [strtok]. *)
Definition second_pass_entry (file : string) (line : Z) (symbol_name : option string)
  (st : SecondState) : SecondState :=
  match symbol_name with
  | Some n =>
      match find_symbol (sp_table st) n with
      | Some symbol =>
          if negb (SymbolType_eqb (type symbol) SYMBOL_TYPE_EXTERNAL) then
            sp_set_table
              {| symbols := set_entry n (symbols (sp_table st));
                 has_entries := true;
                 has_externs := has_externs (sp_table st);
                 external_table := external_table (sp_table st) |} st
          else sp_error ERR_SYMBOL "Symbol declared as both .extern and .entry" file line st
      | None => sp_error ERR_SYMBOL "Entry symbol not found in symbol table" file line st
      end
  | None => sp_error ERR_SYNTAX "Missing operand for .entry directive" file line st
  end.

(** The instruction branch. *)
Definition second_pass_instruction (file : string) (line : Z) (token : string)
  (operands : option string) (st : SecondState) : SecondState :=
  let '(inst, table) := encode_instruction token operands (sp_table st) (sp_address st) in
  let st := sp_set_table table st in
  if opcode inst =? to_uint (-1)
  then sp_error ERR_SYNTAX "Failed to encode instruction" file line st
  else sp_emit (write_instruction inst (sp_address st))
               (sp_address st + get_instruction_length token operands) st.

(** The token the dispatch looks at, after an optional label, and the text
    that follows it. *)
Definition second_pass_token (line : string) : option (string * string) :=
  match strtok SP_TAB line with
  | Some (tok, rest) => if ends_with_colon tok then strtok SP_TAB rest else Some (tok, rest)
  | None => None
  end.

(** One iteration of the reading loop.  [None] stands for the two places
    where the C code reads through a null pointer: [strcmp] on a missing
    token and [write_string] on missing operands. *)
Definition second_pass_line (file : string) (line_number : Z) (raw : string)
  (st : SecondState) : option SecondState :=
  let line := trim (handle_extra_spaces (handle_comment raw)) in
  if is_empty line then Some st
  else
    match second_pass_token line with
    | None => None
    | Some (token, rest) =>
        if (streq token ".data" || streq token ".string")%bool then
          let operands := option_map fst (strtok NLs rest) in
          if streq token ".data" then
            let '(ws, a) := write_data operands (sp_address st) in
            Some (sp_emit ws a st)
          else
            match operands with
            | Some ops => let '(ws, a) := write_string ops (sp_address st) in
                          Some (sp_emit ws a st)
            | None => None
            end
        else if streq token ".entry" then
          Some (second_pass_entry file line_number
                  (option_map fst (strtok SP_TAB_NL rest)) st)
        else if negb (get_opcode token =? -1) then
          Some (second_pass_instruction file line_number token
                  (option_map fst (strtok NLs rest)) st)
        else Some st
    end.

Fixpoint second_pass_loop (file : string) (line_number : Z) (lines : list string)
  (st : SecondState) : option SecondState :=
  match lines with
  | [] => Some st
  | raw :: rest =>
      match second_pass_line file (line_number + 1) raw st with
      | Some st' => second_pass_loop file (line_number + 1) rest st'
      | None => None
      end
  end.

(** The operand text the two passes hand to [get_instruction_length] and to
    [encode_instruction] on the piece [raw] fits the operand buffers: the
    first pass calls the former on its [operands] buffer, the second pass
    calls both on the result of [strtok(NULL, "\n")], each when the word
    before is a mnemonic. *)
Definition line_operands_fit (raw : string) : bool :=
  let line := trim (handle_extra_spaces (handle_comment raw)) in
  (match first_pass_tokens line with
   | Statement _ operation operands =>
       if negb (get_opcode operation =? -1) then operands_fit operands else true
   | IllegalLabel => true
   end
   &&
   match second_pass_token line with
   | Some (token, rest) =>
       if negb (get_opcode token =? -1)
       then buffers_fit (option_map fst (strtok NLs rest)) else true
   | None => true
   end)%bool.

Record SecondResult := {
  sr_ok : bool;
  sr_table : SymbolTable;
  sr_code : list WordLine;
  sr_log : ErrorLog;
  sr_outputs : option Outputs
}.

Definition second_pass (file : string) (expanded : string) (table : SymbolTable)
  (IC DC : Z) (log : ErrorLog) : option SecondResult :=
  match second_pass_loop file 0 (read_lines expanded)
          {| sp_table := table; sp_address := FIRST_ADDRESS; sp_error_found := false;
             sp_log := log; sp_code := [] |} with
  | None => None
  | Some st =>
      Some {| sr_ok := negb (sp_error_found st);
              sr_table := sp_table st;
              sr_code := sp_code st;
              sr_log := sp_log st;
              sr_outputs :=
                if sp_error_found st then None
                else Some (generate_output (sp_table st) (sp_code st) IC DC) |}
  end.

(** ** first_pass.c: the whole pass *)

Inductive SecondOutcome :=
| SecondNotRun
| SecondUndefined
| SecondRan (r : SecondResult).

Record FirstResult := {
  fr_ok : bool;
  fr_table : SymbolTable;
  fr_IC : Z;
  fr_DC : Z;
  fr_log : ErrorLog;
  fr_second : SecondOutcome
}.

(** [fr_table] and [fr_log] are the symbol table and the log as the first
    pass leaves them, before the second pass is entered. *)
Definition first_pass (macros : list string) (file : string) (expanded : string)
  (table : SymbolTable) (log : ErrorLog) : FirstResult :=
  let st := first_pass_loop macros file 0 (read_lines expanded)
              {| fp_table := table; fp_IC := FIRST_ADDRESS; fp_DC := 0;
                 fp_error_found := false; fp_log := log |} in
  let table := rebase_data (fp_IC st) (fp_table st) in
  {| fr_ok := negb (fp_error_found st);
     fr_table := table;
     fr_IC := fp_IC st;
     fr_DC := fp_DC st;
     fr_log := fp_log st;
     fr_second :=
       if negb (fp_error_found st) then
         match second_pass file expanded table (fp_IC st) (fp_DC st) (fp_log st) with
         | Some r => SecondRan r
         | None => SecondUndefined
         end
       else SecondNotRun |}.

(** ** main.c: one input file *)

Record Assembly := {
  expanded_file : option string;
  passes : option FirstResult;
  output_files : option Outputs;
  final_log : ErrorLog
}.

Definition outputs_of (r : FirstResult) : option Outputs :=
  match fr_second r with
  | SecondRan s => sr_outputs s
  | _ => None
  end.

Definition log_of (r : FirstResult) : ErrorLog :=
  match fr_second r with
  | SecondRan s => sr_log s
  | _ => fr_log r
  end.

(** [base] is the command-line argument, [source] the text of [base.as]. *)
Definition assemble (base : string) (source : string) (log : ErrorLog) : Assembly :=
  let full_filename := (base ++ ".as")%string in
  let expanded_filename := (base ++ ".am")%string in
  match pre_assembler full_filename source log with
  | None =>
      {| expanded_file := None; passes := None; output_files := None; final_log := log |}
  | Some pre =>
      if pre_error pre then
        {| expanded_file := Some (am_output pre); passes := None; output_files := None;
           final_log := log_error ERR_FILE_INPUT "Pre-assembler failed" base (-1)
                          (pre_log pre) |}
      else
        let r := first_pass (map macro_name (macro_table pre)) expanded_filename
                   (am_output pre) init_symbol_table (pre_log pre) in
        {| expanded_file := Some (am_output pre);
           passes := Some r;
           output_files := outputs_of r;
           final_log :=
             if fr_ok r then log_of r
             else log_error ERR_SEMANTIC "First pass failed" expanded_filename (-1)
                    (log_of r) |}
  end.

(** ** The operand shapes in the words of the specification *)

Module OperandSyntax.

(** An optional sign followed by one or more decimal digits. *)
Definition SignedNumber (s : string) : Prop :=
  exists sign ds,
    s = (sign ++ ds)%string /\
    (sign = "" \/ sign = "+" \/ sign = "-")%string /\
    ds <> EmptyString /\
    string_forallb isdigit ds = true.

(** Exactly [r0] .. [r7]. *)
Definition RegisterName (s : string) : Prop :=
  exists k, 0 <= k <= 7 /\ s = String "r" (String (digit_char k) EmptyString).

(** [NULL], the empty string, or a single space. *)
Definition Absent (o : option string) : Prop :=
  o = None \/ o = Some EmptyString \/ o = Some " "%string.

Definition Immediate (o : option string) : Prop :=
  exists body, o = Some (String "#" body) /\ SignedNumber body.

Definition RegisterDirect (o : option string) : Prop :=
  exists s, o = Some s /\ RegisterName s.

Definition RegisterIndirect (o : option string) : Prop :=
  exists s, o = Some (String "*" s) /\ RegisterName s.

End OperandSyntax.

(** Number of operand buffers that are not empty. *)
Definition present (s : string) : Z := if is_empty s then 0 else 1.

(** The references recorded under a name in the external-reference index. *)
Definition ext_lookup (n : string) (table : ExternalTable) : option (list Z) :=
  option_map references (find (fun e => streq (ext_name e) n) table).

Definition within_cap (table : ExternalTable) : Prop :=
  Forall (fun e => (List.length (references e) <= MAX_EXTERNAL_REFERENCES)%nat) table.

(** The index after a sequence of [add_external_reference] calls on the table
    that [init_external_table] sets up. *)
Definition replay_references (calls : list (string * Z)) : ExternalTable :=
  fold_left (fun t c => add_external_reference t (fst c) (snd c)) calls [].

(** A piece read by the pre-assembler that it treats as the start of a macro
    definition, or as the end of one. *)
Definition macr_definition_line (line : string) : bool :=
  String.prefix "macr" (trim line).

Definition endmacr_line (line : string) : bool := streq (trim line) "endmacr".

Definition no_macr_definitions (input : string) : bool :=
  forallb (fun l => negb (macr_definition_line l)) (read_lines input).

Definition no_macro_lines (input : string) : bool :=
  forallb (fun l => negb (macr_definition_line l) && negb (endmacr_line l))%bool
          (read_lines input).

(** Where the first pass may have put a symbol while its counters stand at
    [IC] and [DC]: a code label below [IC], a data label at most at [DC]. *)
Definition symbol_placed (IC DC : Z) (s : Symbol) : Prop :=
  match type s with
  | SYMBOL_TYPE_CODE => FIRST_ADDRESS <= address s < IC
  | SYMBOL_TYPE_DATA => 0 <= address s <= DC
  | _ => True
  end.

Definition first_pass_invariant (st : FirstState) : Prop :=
  FIRST_ADDRESS <= fp_IC st /\ 0 <= fp_DC st /\
  Forall (symbol_placed (fp_IC st) (fp_DC st)) (symbols (fp_table st)).

(** A step that leaves [error_found] clear has logged nothing. *)
Definition first_pass_quiet (st st' : FirstState) : Prop :=
  fp_error_found st' = false ->
  fp_error_found st = false /\ fp_log st' = fp_log st.

Definition second_pass_quiet (st st' : SecondState) : Prop :=
  sp_error_found st' = false ->
  sp_error_found st = false /\ sp_log st' = sp_log st.

Definition first_pass_start (log : ErrorLog) : FirstState :=
  {| fp_table := init_symbol_table; fp_IC := FIRST_ADDRESS; fp_DC := 0;
     fp_error_found := false; fp_log := log |}.

(** The two operand buffers of [get_instruction_length] and
    [encode_instruction]; a null pointer leaves both empty. *)
Definition operand_buffers (operands : option string) : string * string :=
  match operands with
  | Some ops => split_operands ops
  | None => (EmptyString, EmptyString)
  end.

(** A piece the pre-assembler copies to its output as it is. *)
Definition plain_line (l : string) : Prop :=
  (String.length l <= MAX_LINE_LENGTH)%nat /\
  macr_definition_line l = false /\ endmacr_line l = false.

(** What the [.entry] branch leaves behind, for the operand [symbol_name]
    that [strtok] returned. *)
Definition entry_outcome (file : string) (line : Z) (symbol_name : option string)
  (st st' : SecondState) : Prop :=
  match symbol_name with
  | None =>
      sp_error_found st' = true /\ sp_table st' = sp_table st /\
      sp_log st' = log_error ERR_SYNTAX "Missing operand for .entry directive"
                     file line (sp_log st)
  | Some n =>
      match find_symbol (sp_table st) n with
      | None =>
          sp_error_found st' = true /\ sp_table st' = sp_table st /\
          sp_log st' = log_error ERR_SYMBOL "Entry symbol not found in symbol table"
                         file line (sp_log st)
      | Some sym =>
          match type sym with
          | SYMBOL_TYPE_EXTERNAL =>
              sp_error_found st' = true /\ sp_table st' = sp_table st /\
              sp_log st' = log_error ERR_SYMBOL
                             "Symbol declared as both .extern and .entry"
                             file line (sp_log st)
          | _ =>
              find_symbol (sp_table st') n =
                Some {| name := name sym; address := address sym;
                        type := SYMBOL_TYPE_ENTRY |} /\
              has_entries (sp_table st') = true /\
              (forall m, streq m n = false ->
                 find_symbol (sp_table st') m = find_symbol (sp_table st) m) /\
              sp_error_found st' = sp_error_found st /\
              sp_log st' = sp_log st
          end
      end
  end.

(** The sources of the scenarios. *)
Definition duplicate_symbol_source : string :=
  ("A: .data 1" ++ NLs ++ "A: .data 2" ++ NLs)%string.

Definition entry_promotion_source : string :=
  ("LOOP: inc r3" ++ NLs ++ ".entry LOOP" ++ NLs ++ "stop" ++ NLs)%string.

Definition external_reference_source : string :=
  (".extern FOO" ++ NLs ++ "jmp FOO" ++ NLs)%string.

Definition immediate_source_source : string :=
  ("mov #5, r1" ++ NLs)%string.

Definition immediate_target_source : string :=
  ("prn #5" ++ NLs ++ "cmp r1, #-1" ++ NLs)%string.

(** A source without macro lines. *)
Definition plain_source : string :=
  ("MAIN: mov r1, r2" ++ NLs ++ "     stop" ++ NLs)%string.

(** The second-pass state of the entry scenario when it reaches [.entry]. *)
Definition entry_witness_state : SecondState :=
  {| sp_table :=
       {| symbols := [ {| name := "LOOP"; address := 100; type := SYMBOL_TYPE_CODE |} ];
          has_entries := false; has_externs := false; external_table := [] |};
     sp_address := 102; sp_error_found := false; sp_log := []; sp_code := [] |}.

(** Output lines at the addresses [a], [a + 1], ... in this order. *)
Fixpoint consecutive (a : Z) (ws : list WordLine) : Prop :=
  match ws with
  | [] => True
  | w :: rest => fst w = a /\ consecutive (a + 1) rest
  end.

(** Output lines whose words fit in 15 bits. *)
Definition words15 (ws : list WordLine) : Prop :=
  Forall (fun w => 0 <= snd w < 32768) ws.

(** ** Notions used in the further properties *)

(** The literal of the string [hi], between its quotes. *)
Definition hi_literal : string :=
  String DQUOTE (String "h" (String "i" (String DQUOTE EmptyString))).

(** A direct (mode 1) operand whose name is not in the symbol table. *)
Definition unresolved (table : SymbolTable) (operand : string) : bool :=
  ((get_addressing_mode (Some operand) =? 1) &&
   match find_symbol table operand with Some _ => false | None => true end)%bool.

(** Every address of the table is an [int] other than -1 once converted to
    [unsigned int]. *)
Definition addresses_in_range (table : SymbolTable) : Prop :=
  Forall (fun s => 0 <= address s < 4294967295) (symbols table).

(** A table that holds the label [LOOP] alone. *)
Definition one_symbol_table : SymbolTable :=
  {| symbols := [ {| name := "LOOP"; address := 100; type := SYMBOL_TYPE_CODE |} ];
     has_entries := false; has_externs := false; external_table := [] |}.

(** [b] is [a] with some symbols that are not External promoted to Entry. *)
Definition promoted (a b : Symbol) : Prop :=
  name b = name a /\ address b = address a /\
  (type b = type a \/ (type b = SYMBOL_TYPE_ENTRY /\ type a <> SYMBOL_TYPE_EXTERNAL)).

(** The same on whole tables; the flags are kept or raised. *)
Definition table_promoted (t t' : SymbolTable) : Prop :=
  Forall2 promoted (symbols t) (symbols t')
  /\ has_externs t' = has_externs t
  /\ (has_entries t = true -> has_entries t' = true).

(** The table of the entry scenario when the second pass starts. *)
Definition loop_table : SymbolTable :=
  {| symbols := [ {| name := "LOOP"; address := 100; type := SYMBOL_TYPE_CODE |} ];
     has_entries := true; has_externs := false; external_table := [] |}.

(** A code or data symbol carries a legal label, an external symbol the
    address 0; the first pass enters no Entry symbol. *)
Definition symbol_legal (s : Symbol) : Prop :=
  match type s with
  | SYMBOL_TYPE_CODE | SYMBOL_TYPE_DATA => is_label (name s) = true
  | SYMBOL_TYPE_EXTERNAL => address s = 0
  | SYMBOL_TYPE_ENTRY => False
  end.

(** [log'] is [log] with entries added at the end, within the capacity. *)
Definition log_extends (log log' : ErrorLog) : Prop :=
  (exists extra, log' = log ++ extra) /\
  (List.length log' <= Nat.max MAX_ERRORS (List.length log))%nat.

(** A stored macro: a valid name, and a body without any [endmacr] line. *)
Definition macro_well_formed (m : Macro) : Prop :=
  is_valid_macro_name (macro_name m) = true /\
  Forall (fun l => endmacr_line l = false) (macro_lines m).

(** [b] may follow [a]: white space is a single blank, never after a blank
    or a comma, and a comma never follows a blank. *)
Definition pair_ok (a b : ascii) : bool :=
  ((if isspace b
    then Ascii.eqb b " " && negb (Ascii.eqb a " ") && negb (Ascii.eqb a ",")
    else true)
   && (if Ascii.eqb b "," then negb (Ascii.eqb a " ") else true))%bool.

(** Every character may follow the one before it. *)
Fixpoint chain (l : list ascii) : bool :=
  match l with
  | a :: (b :: _) as t => (pair_ok a b && chain t)%bool
  | _ => true
  end.

(** Words separated by single blanks, no blank next to a comma, no white
    space at the start and no blank at the end. *)
Definition tidy_list (l : list ascii) : bool :=
  match l with
  | [] => true
  | c :: _ =>
      (negb (isspace c) && chain l &&
       match rev l with d :: _ => negb (Ascii.eqb d " ") | [] => true end)%bool
  end.

(** The same on a string. *)
Definition tidy (s : string) : bool := tidy_list (list_ascii_of_string s).

(** The same chain read from the end, as the write buffer is kept. *)
Fixpoint chain_rev (out : list ascii) : bool :=
  match out with
  | b :: (a :: _) as t => (pair_ok a b && chain_rev t)%bool
  | _ => true
  end.

(** What the loop of [handle_extra_spaces] keeps true of its write buffer
    [out] (last character first) and of [in_word]. *)
Definition buffer_ok (out : list ascii) (in_word : bool) : Prop :=
  chain_rev out = true
  /\ (forall c, hd_error (rev out) = Some c -> isspace c = false)
  /\ (in_word = true ->
      exists c o, out = c :: o /\ isspace c = false /\ Ascii.eqb c "," = false).

(** A character that is no white space, or a blank. *)
Definition plainb (c : ascii) : bool := (negb (isspace c) || Ascii.eqb c " ")%bool.

(** The dispatch of [second_pass] on the token after the optional label. *)
Definition second_pass_dispatch (file : string) (line_number : Z) (token rest : string)
  (st : SecondState) : option SecondState :=
  if (streq token ".data" || streq token ".string")%bool then
    let operands := option_map fst (strtok NLs rest) in
    if streq token ".data" then
      let '(ws, a) := write_data operands (sp_address st) in
      Some (sp_emit ws a st)
    else
      match operands with
      | Some ops => let '(ws, a) := write_string ops (sp_address st) in
                    Some (sp_emit ws a st)
      | None => None
      end
  else if streq token ".entry" then
    Some (second_pass_entry file line_number
            (option_map fst (strtok SP_TAB_NL rest)) st)
  else if negb (get_opcode token =? -1) then
    Some (second_pass_instruction file line_number token
            (option_map fst (strtok NLs rest)) st)
  else Some st.

(** One stretch of the two passes over the same lines: the second pass
    comes to [st2'], having appended the lines [ws] at consecutive addresses;
    when it has no error, [ws] has as many lines as the first pass counted
    words over the stretch. *)
Definition in_step (st1 st1' : FirstState) (st2 : SecondState)
  (r : option SecondState) : Prop :=
  exists st2' ws,
    r = Some st2'
    /\ sp_code st2' = sp_code st2 ++ ws
    /\ consecutive (sp_address st2) ws
    /\ words15 ws
    /\ sp_address st2' = sp_address st2 + Z.of_nat (List.length ws)
    /\ (sp_error_found st2' = false ->
        Z.of_nat (List.length ws)
        = (fp_IC st1' - fp_IC st1) + (fp_DC st1' - fp_DC st1)).

(** A source with an instruction, a data directive and a label of each. *)
Definition layout_source : string :=
  ("MAIN: mov r1, LIST" ++ NLs ++ "LIST: .data 7,-1" ++ NLs ++ "stop" ++ NLs)%string.

(** [text] is some of the strings of [L] put end to end. *)
Definition made_of (L : list string) (text : string) : Prop :=
  exists ls, text = String.concat EmptyString ls /\ incl ls L.

(** The text of a register operand, direct or indirect. *)
Definition register_operand (indirect : bool) (digit : ascii) : string :=
  ((if indirect then "*" else "") ++ String "r" (String digit EmptyString))%string.

(** * Properties *)

(** ** Lexical facts *)

Lemma skip_isspace_head (s : string) :
  skip isspace s = EmptyString \/
  exists c r, skip isspace s = String c r /\ isspace c = false.
Proof.
  induction s as [|c r IH]; simpl; [now left|].
  destruct (isspace c) eqn:E; [exact IH|].
  right. now exists c, r.
Qed.

Lemma trim_head (s : string) :
  trim s = EmptyString \/
  exists c r, trim s = String c r /\ isspace c = false.
Proof.
  unfold trim.
  destruct (skip_isspace_head s) as [->|(c & r & -> & Hc)]; [now left|].
  right. simpl. rewrite Hc.
  destruct (drop_trailing_space r); eauto.
Qed.

Lemma isspace_space : isspace " " = true.
Proof. reflexivity. Qed.

Lemma mode_range (o : option string) :
  get_addressing_mode o = 0 \/ get_addressing_mode o = 1 \/
  get_addressing_mode o = 2 \/ get_addressing_mode o = 3 \/
  get_addressing_mode o = 4.
Proof.
  destruct o as [[|c0 rest]|]; simpl; auto.
  repeat match goal with |- context [if ?b then _ else _] => destruct b end; auto.
Qed.

Lemma mode_absent_iff (s : string) :
  get_addressing_mode (Some s) = 4 <-> s = EmptyString \/ s = " "%string.
Proof.
  destruct s as [|c0 rest]; simpl; [tauto|].
  destruct (Ascii.eqb_spec c0 " ") as [->|Hc]; simpl.
  - destruct rest; simpl.
    + split; auto.
    + split; [discriminate | intros [H|H]; discriminate].
  - split.
    + repeat match goal with |- context [if ?b then _ else _] => destruct b end;
        discriminate.
    + intros [H|H]; [discriminate | congruence].
Qed.

Lemma mode_trim_absent (s : string) :
  (get_addressing_mode (Some (trim s)) =? 4) = is_empty (trim s).
Proof.
  destruct (trim_head s) as [E|(c & r & E & Hc)]; rewrite E; [reflexivity|].
  simpl is_empty. apply Z.eqb_neq. intros H.
  apply mode_absent_iff in H. destruct H as [H|H]; [discriminate|].
  injection H as -> _. now rewrite isspace_space in Hc.
Qed.

Lemma trim_empty : trim EmptyString = EmptyString.
Proof. reflexivity. Qed.

Lemma split_operands_trimmed (ops : string) :
  exists a b, split_operands ops = (trim a, trim b).
Proof.
  unfold split_operands. destruct (scan_operands ops) as [a b]. now exists a, b.
Qed.

Lemma register_mode_present (s : string) :
  is_register_mode (get_addressing_mode (Some s)) = true -> is_empty s = false.
Proof.
  destruct s; [discriminate | reflexivity].
Qed.

(** ** Instruction length and emitted words *)

Lemma encode_instruction_modes operation operands table addr :
  let st := operand_buffers operands in
  let st' := if is_empty (snd st) then (EmptyString, fst st) else st in
  source_addressing (fst (encode_instruction operation operands table addr))
    = get_addressing_mode (Some (fst st')) /\
  target_addressing (fst (encode_instruction operation operands table addr))
    = get_addressing_mode (Some (snd st')).
Proof.
  unfold encode_instruction, operand_buffers.
  destruct (match operands with Some ops => split_operands ops | None => _ end)
    as [s t].
  cbn [fst snd].
  destruct (is_empty t); cbn [fst snd];
    repeat match goal with
           | |- context [encode_operand ?a ?b ?c ?d ?e] =>
               destruct (encode_operand a b c d e) as [[? ?] ?]
           | |- context [if ?b then _ else _] => destruct b
           end; cbn; auto.
Qed.

Lemma write_instruction_length inst addr :
  Z.of_nat (List.length (write_instruction inst addr)) =
  if (is_register_mode (source_addressing inst) &&
      is_register_mode (target_addressing inst))%bool
  then 2
  else 1 + (if source_addressing inst =? 4 then 0 else 1)
         + (if target_addressing inst =? 4 then 0 else 1).
Proof.
  unfold write_instruction, is_register_mode.
  destruct (source_addressing inst =? 2) eqn:S2,
           (source_addressing inst =? 3) eqn:S3,
           (target_addressing inst =? 2) eqn:T2,
           (target_addressing inst =? 3) eqn:T3,
           (source_addressing inst =? 4) eqn:S4,
           (target_addressing inst =? 4) eqn:T4; cbn; try reflexivity; lia.
Qed.

Lemma present_trim (s : string) :
  (if get_addressing_mode (Some (trim s)) =? 4 then 0 else 1) = present (trim s).
Proof. unfold present. now rewrite mode_trim_absent. Qed.

Lemma operand_buffers_trimmed operands :
  exists a b, operand_buffers operands = (trim a, trim b).
Proof.
  destruct operands as [ops|]; simpl.
  - apply split_operands_trimmed.
  - exists EmptyString, EmptyString. reflexivity.
Qed.

Lemma get_instruction_length_buffer (operation ops : string) :
  get_instruction_length operation (Some ops) =
  (if present (fst (split_operands ops)) + present (snd (split_operands ops))
      =? get_operand_count operation
   then
     if (is_register_mode (get_addressing_mode (Some (fst (split_operands ops)))) &&
         is_register_mode (get_addressing_mode (Some (snd (split_operands ops)))))%bool
     then 2
     else 1 + (present (fst (split_operands ops)) + present (snd (split_operands ops)))
   else -1).
Proof.
  unfold get_instruction_length.
  destruct (split_operands ops) as [s t]. cbn [fst snd]. unfold present.
  generalize (get_addressing_mode (Some s)) (get_addressing_mode (Some t))
             (get_operand_count operation).
  intros ms mt k.
  destruct (is_empty s), (is_empty t); cbn -[Z.eqb];
    destruct (_ =? k); cbn;
    destruct (is_register_mode ms && is_register_mode mt)%bool; reflexivity.
Qed.



(** ** The addressing-mode classifier *)

Section Classifier.
Import OperandSyntax.

Lemma digit_char_code (c : ascii) :
  (48 <= code c)%N -> digit_char (Z.of_N (code c) - 48) = c.
Proof.
  intros H. unfold digit_char.
  replace (48 + Z.to_N (Z.of_N (code c) - 48))%N with (code c) by lia.
  apply ascii_N_embedding.
Qed.

Lemma is_register_iff (s : string) : is_register s = true <-> RegisterName s.
Proof.
  split.
  - destruct s as [|c0 [|c1 [|? ?]]]; try discriminate. simpl.
    intros H. apply andb_prop in H as [H H2]. apply andb_prop in H as [H0 H1].
    apply Ascii.eqb_eq in H0. apply N.leb_le in H1, H2. subst c0.
    exists (Z.of_N (code c1) - 48). split; [lia|].
    now rewrite digit_char_code.
  - intros (k & Hk & ->).
    assert (K : k = 0 \/ k = 1 \/ k = 2 \/ k = 3 \/ k = 4 \/ k = 5 \/ k = 6 \/ k = 7)
      by lia.
    repeat destruct K as [-> | K]; try subst k; reflexivity.
Qed.

Lemma isdigit_not_sign (c : ascii) :
  isdigit c = true -> (Ascii.eqb c "-" || Ascii.eqb c "+")%bool = false.
Proof.
  intros H.
  destruct (Ascii.eqb_spec c "-") as [->|_]; [discriminate|].
  destruct (Ascii.eqb_spec c "+") as [->|_]; [discriminate|reflexivity].
Qed.

Lemma is_number_hash_iff (body : string) :
  is_number (String "#" body) = true <-> SignedNumber body.
Proof.
  unfold is_number. change (Ascii.eqb "#" "#") with true. cbv iota.
  split.
  - destruct body as [|c r]; [discriminate|].
    destruct (Ascii.eqb c "-" || Ascii.eqb c "+")%bool eqn:Esign.
    + intros H. exists (String c EmptyString), r.
      split; [reflexivity|]. split.
      * apply orb_prop in Esign as [E|E]; apply Ascii.eqb_eq in E; subst; auto.
      * destruct r; [discriminate|]. split; [discriminate | exact H].
    + intros H. exists EmptyString, (String c r).
      split; [reflexivity|]. split; [auto|]. split; [discriminate | exact H].
  - intros (sign & ds & -> & Hsign & Hne & Hd).
    destruct ds as [|d ds]; [congruence|].
    destruct Hsign as [-> | [-> | ->]]; cbn.
    + simpl in Hd. apply andb_prop in Hd as [Hd1 Hd2].
      rewrite (isdigit_not_sign d Hd1). simpl. now rewrite Hd1, Hd2.
    + exact Hd.
    + exact Hd.
Qed.

Lemma mode_immediate_iff (o : option string) :
  get_addressing_mode o = 0 <-> Immediate o.
Proof.
  unfold Immediate. destruct o as [[|c0 rest]|]; simpl.
  - split; [discriminate | intros (b & H & _); discriminate].
  - destruct (Ascii.eqb_spec c0 " ") as [->|H0]; simpl.
    + destruct (is_empty rest); simpl.
      * split; [discriminate | intros (b & H & _); discriminate].
      * split; [discriminate | intros (b & H & _); discriminate].
    + destruct (Ascii.eqb_spec c0 "#") as [->|H1]; simpl.
      * destruct (is_number (String "#" rest)) eqn:En.
        -- split; [|reflexivity]. intros _. exists rest. split; [reflexivity|].
           now apply is_number_hash_iff.
        -- split; [discriminate|]. intros (b & H & Hs). injection H as ->.
           apply is_number_hash_iff in Hs. congruence.
      * split.
        -- repeat match goal with |- context [if ?b then _ else _] => destruct b end;
             discriminate.
        -- intros (b & H & _). congruence.
  - split; [discriminate | intros (b & H & _); discriminate].
Qed.

Lemma mode_register_direct_iff (o : option string) :
  get_addressing_mode o = 3 <-> RegisterDirect o.
Proof.
  unfold RegisterDirect. destruct o as [s|].
  2:{ split; [discriminate | intros (s & H & _); discriminate]. }
  transitivity (is_register s = true).
  2:{ rewrite is_register_iff. split; [eauto|]. intros (s' & H & Hr). congruence. }
  destruct s as [|c0 rest]; [split; discriminate|].
  cbn [get_addressing_mode].
  destruct (Ascii.eqb_spec c0 "r") as [->|Hr].
  - cbn [andb Ascii.eqb]. cbv iota.
    change (Ascii.eqb "r" " ") with false. change (Ascii.eqb "r" "#") with false.
    cbn [andb]. cbv iota.
    destruct (is_register (String "r" rest)); [tauto|].
    change (Ascii.eqb "r" "*") with false. cbn [andb]. cbv iota.
    split; discriminate.
  - split.
    + cbn [andb].
      repeat match goal with |- context [if ?b then _ else _] => destruct b end;
        discriminate.
    + destruct rest as [|c1 [|? ?]]; try discriminate. simpl.
      destruct (Ascii.eqb_spec c0 "r"); [congruence | discriminate].
Qed.

Lemma mode_register_indirect_iff (o : option string) :
  get_addressing_mode o = 2 <-> RegisterIndirect o.
Proof.
  unfold RegisterIndirect. destruct o as [s|].
  2:{ split; [discriminate | intros (s & H & _); discriminate]. }
  transitivity (exists t, s = String "*" t /\ is_register t = true).
  2:{ split; intros (t & H & Hr); exists t; (split; [congruence|]);
      now apply is_register_iff. }
  destruct s as [|c0 rest].
  { split; [discriminate | intros (t & H & _); discriminate]. }
  cbn [get_addressing_mode].
  destruct (Ascii.eqb_spec c0 "*") as [->|Hs].
  - change (Ascii.eqb "*" " ") with false. change (Ascii.eqb "*" "#") with false.
    change (Ascii.eqb "*" "r") with false. cbn [andb]. cbv iota.
    split.
    + destruct rest as [|c1 r]; [discriminate|].
      destruct (Ascii.eqb c1 "r" && is_register (String c1 r))%bool eqn:E;
        [|discriminate].
      intros _. exists (String c1 r). split; [reflexivity|].
      now apply andb_prop in E.
    + intros (t & H & Hr). injection H as ->.
      destruct t as [|c1 [|c2 [|? ?]]]; try discriminate.
      rewrite Hr. simpl in Hr.
      apply andb_prop in Hr as [Hr _]. apply andb_prop in Hr as [Hr _].
      now rewrite Hr.
  - split.
    + cbn [andb].
      repeat match goal with |- context [if ?b then _ else _] => destruct b end;
        discriminate.
    + intros (t & H & _). congruence.
Qed.

Lemma mode_absent_option_iff (o : option string) :
  get_addressing_mode o = 4 <-> Absent o.
Proof.
  unfold Absent. destruct o as [s|].
  - rewrite mode_absent_iff. split.
    + intros [-> | ->]; auto.
    + intros [H|[H|H]]; [discriminate| |]; injection H as ->; auto.
  - split; auto.
Qed.

End Classifier.

(** C10.  The classifier always returns one of 0..4: 4 exactly for an absent
    operand (a null pointer, the empty string, or a single space), 0 exactly
    for [#] followed by an optionally signed decimal number, 3 exactly for a
    register name [r0]..[r7], 2 exactly for [*] followed by a register name,
    and 1 for every other string; in particular [#abc] and [*r9] are
    classified 1 (direct label). *)
Theorem addressing_mode_classifier (o : option string) :
  0 <= get_addressing_mode o <= 4
  /\ (get_addressing_mode o = 4 <-> OperandSyntax.Absent o)
  /\ (get_addressing_mode o = 0 <-> OperandSyntax.Immediate o)
  /\ (get_addressing_mode o = 3 <-> OperandSyntax.RegisterDirect o)
  /\ (get_addressing_mode o = 2 <-> OperandSyntax.RegisterIndirect o)
  /\ (get_addressing_mode o = 1 <->
        ~ OperandSyntax.Absent o /\ ~ OperandSyntax.Immediate o /\
        ~ OperandSyntax.RegisterDirect o /\ ~ OperandSyntax.RegisterIndirect o)
  /\ get_addressing_mode (Some "#abc"%string) = 1
  /\ get_addressing_mode (Some "*r9"%string) = 1.
Proof.
  pose proof (mode_range o) as R.
  pose proof (mode_absent_option_iff o) as A.
  pose proof (mode_immediate_iff o) as I.
  pose proof (mode_register_direct_iff o) as D.
  pose proof (mode_register_indirect_iff o) as N.
  split; [lia|]. split; [exact A|]. split; [exact I|]. split; [exact D|].
  split; [exact N|]. split; [|split; reflexivity].
  split.
  - intros E. repeat split; intros H;
      [apply A in H | apply I in H | apply D in H | apply N in H]; lia.
  - intros (HA & HI & HD & HN).
    destruct R as [R|[R|[R|[R|R]]]]; tauto.
Qed.

(** ** The first word of an instruction *)

Lemma get_opcode_range (m : string) :
  get_opcode m = -1 \/ 0 <= get_opcode m <= 15.
Proof.
  unfold get_opcode, lookup_opcode, opcode_table. cbn [find mnemonic].
  repeat match goal with
         | |- context [if streq ?a ?b then _ else _] => destruct (streq a b)
         end; cbn; lia.
Qed.








(** ** The external-reference index *)

Lemma add_external_reference_lookup_same table n addr :
  ext_lookup n (add_external_reference table n addr) =
  Some match ext_lookup n table with
       | None => [addr]
       | Some refs =>
           if (List.length refs <? MAX_EXTERNAL_REFERENCES)%nat
           then refs ++ [addr] else refs
       end.
Proof.
  unfold ext_lookup.
  induction table as [|e rest IH]; cbn [add_external_reference find].
  - unfold streq at 1. cbn [ext_name]. now rewrite String.eqb_refl.
  - destruct (streq (ext_name e) n) eqn:E.
    + cbn [option_map].
      destruct (List.length (references e) <? MAX_EXTERNAL_REFERENCES)%nat;
        cbn [find ext_name]; rewrite E; reflexivity.
    + cbn [find]. rewrite E. exact IH.
Qed.

Lemma add_external_reference_lookup_other table n addr m :
  streq m n = false ->
  ext_lookup m (add_external_reference table n addr) = ext_lookup m table.
Proof.
  intros Hm. unfold ext_lookup.
  assert (Hnm : streq n m = false) by (unfold streq in *; now rewrite String.eqb_sym).
  induction table as [|e rest IH]; cbn [add_external_reference find].
  - cbn [ext_name]. now rewrite Hnm.
  - destruct (streq (ext_name e) n) eqn:E.
    + apply String.eqb_eq in E.
      destruct (List.length (references e) <? MAX_EXTERNAL_REFERENCES)%nat;
        cbn [find ext_name]; rewrite E, Hnm; reflexivity.
    + cbn [find]. destruct (streq (ext_name e) m); [reflexivity | exact IH].
Qed.

Lemma add_external_reference_cap table n addr :
  within_cap table -> within_cap (add_external_reference table n addr).
Proof.
  unfold within_cap.
  induction table as [|e rest IH]; intros H; cbn [add_external_reference].
  - constructor; [|constructor]. cbn. unfold MAX_EXTERNAL_REFERENCES. lia.
  - inversion H as [|? ? He Hrest]; subst.
    destruct (streq (ext_name e) n).
    + constructor; [|exact Hrest].
      destruct (List.length (references e) <? MAX_EXTERNAL_REFERENCES)%nat eqn:L;
        [|exact He].
      apply Nat.ltb_lt in L. cbn [references]. rewrite length_app. cbn. lia.
    + constructor; [exact He | now apply IH].
Qed.

Lemma replay_references_cap_from calls table :
  within_cap table ->
  within_cap (fold_left (fun t c => add_external_reference t (fst c) (snd c)) calls table).
Proof.
  revert table. induction calls as [|c calls IH]; intros table H; cbn [fold_left].
  - exact H.
  - apply IH. now apply add_external_reference_cap.
Qed.

Lemma add_external_reference_names table n addr :
  map ext_name (add_external_reference table n addr) =
  map ext_name table ++
  (if existsb (fun e => streq (ext_name e) n) table then [] else [n]).
Proof.
  induction table as [|e rest IH]; cbn [add_external_reference map existsb app].
  - reflexivity.
  - destruct (streq (ext_name e) n) eqn:E; cbn [orb map].
    + rewrite app_nil_r.
      now destruct (List.length (references e) <? MAX_EXTERNAL_REFERENCES)%nat.
    + now rewrite IH.
Qed.

(** C9.  [add_external_reference] appends the address to the references kept
    under the name, creating the entry (at the end of the index) when the
    name is absent, leaves a list that already holds 100 addresses unchanged,
    and touches no other name; after any sequence of calls from the empty
    index no name holds more than 100 addresses. *)
Theorem add_external_reference_spec
  (table : ExternalTable) (n : string) (addr : Z) (calls : list (string * Z)) :
  ext_lookup n (add_external_reference table n addr) =
    Some match ext_lookup n table with
         | None => [addr]
         | Some refs =>
             if (List.length refs <? MAX_EXTERNAL_REFERENCES)%nat
             then refs ++ [addr] else refs
         end
  /\ (forall m, streq m n = false ->
        ext_lookup m (add_external_reference table n addr) = ext_lookup m table)
  /\ map ext_name (add_external_reference table n addr) =
       map ext_name table ++
       (if existsb (fun e => streq (ext_name e) n) table then [] else [n])
  /\ (within_cap table -> within_cap (add_external_reference table n addr))
  /\ within_cap (replay_references calls)
  /\ within_cap (add_external_reference (replay_references calls) n addr).
Proof.
  assert (R : within_cap (replay_references calls))
    by (apply replay_references_cap_from; constructor).
  split; [apply add_external_reference_lookup_same|].
  split; [intros m; apply add_external_reference_lookup_other|].
  split; [apply add_external_reference_names|].
  split; [apply add_external_reference_cap|].
  split; [exact R | now apply add_external_reference_cap].
Qed.

Lemma add_external_reference_spec_witness :
  within_cap []
  /\ within_cap (add_external_reference [] "FOO" 102)
  /\ streq "BAR" "FOO" = false
  /\ ext_lookup "BAR" (add_external_reference [] "FOO" 102) = None.
Proof.
  assert (H : within_cap []) by constructor.
  split; [exact H|]. split.
  - exact (proj1 (proj2 (proj2 (proj2
      (add_external_reference_spec [] "FOO" 102 [])))) H).
  - split; [reflexivity|].
    exact (proj1 (proj2 (add_external_reference_spec [] "FOO" 102 []))
             "BAR"%string eq_refl).
Defined.

(** ** The first pass: what a line does to the symbols, counters and log *)

Section FirstPassLines.

Variable macros : list string.
Variable file : string.

Lemma fp_add_symbol_cases line n addr ty st :
  let r := fp_add_symbol macros file line n addr ty st in
  fp_IC (snd r) = fp_IC st /\ fp_DC (snd r) = fp_DC st /\
  ((fst r = false /\ fp_error_found (snd r) = true /\
    symbols (fp_table (snd r)) = symbols (fp_table st))
   \/
   (fst r = true /\ fp_error_found (snd r) = fp_error_found st /\
    fp_log (snd r) = fp_log st /\
    symbols (fp_table (snd r)) =
      symbols (fp_table st) ++
      [ {| name := strncpy MAX_LABEL_LENGTH n; address := addr; type := ty |} ])).
Proof.
  cbv zeta. unfold fp_add_symbol, add_symbol.
  destruct (existsb (fun s => streq (name s) n) (symbols (fp_table st)));
    cbn; [auto 10|].
  destruct (existsb (fun m => streq m n) macros); cbn; auto 10.
Qed.

Lemma fp_add_label_cases line label addr ty st :
  let st' := fp_add_label macros file line label addr ty st in
  fp_IC st' = fp_IC st /\ fp_DC st' = fp_DC st /\
  first_pass_quiet st st' /\
  (symbols (fp_table st') = symbols (fp_table st) \/
   symbols (fp_table st') =
     symbols (fp_table st) ++
     [ {| name := strncpy MAX_LABEL_LENGTH label; address := addr; type := ty |} ]).
Proof.
  unfold fp_add_label, first_pass_quiet.
  destruct (negb (is_empty label)); cbn zeta; [|auto].
  destruct (fp_add_symbol_cases line label addr ty st)
    as (HI & HD & [(_ & He & Hs) | (_ & He & Hl & Hs)]).
  - repeat split; auto; congruence.
  - repeat split; auto; congruence.
Qed.

Lemma fp_extern_symbol_cases line st token :
  let st' := fp_extern_symbol macros file line st token in
  fp_IC st' = fp_IC st /\ fp_DC st' = fp_DC st /\
  first_pass_quiet st st' /\
  (symbols (fp_table st') = symbols (fp_table st) \/
   symbols (fp_table st') =
     symbols (fp_table st) ++
     [ {| name := strncpy MAX_LABEL_LENGTH token; address := 0;
          type := SYMBOL_TYPE_EXTERNAL |} ]).
Proof.
  unfold fp_extern_symbol, first_pass_quiet.
  pose proof (fp_add_symbol_cases line token 0 SYMBOL_TYPE_EXTERNAL st) as H.
  destruct (fp_add_symbol macros file line token 0 SYMBOL_TYPE_EXTERNAL st)
    as [ok st1].
  cbn [fst snd] in H. cbn zeta in H.
  destruct H as (HI & HD & [(-> & He & Hs) | (-> & He & Hl & Hs)]); cbn.
  - repeat split; auto; discriminate.
  - repeat split; auto; congruence.
Qed.

Lemma first_pass_quiet_refl st : first_pass_quiet st st.
Proof. unfold first_pass_quiet. auto. Qed.

Lemma first_pass_quiet_trans a b c :
  first_pass_quiet a b -> first_pass_quiet b c -> first_pass_quiet a c.
Proof.
  unfold first_pass_quiet. intros H1 H2 Hc.
  destruct (H2 Hc) as [Hb Hl]. destruct (H1 Hb) as [Ha Hl']. split; congruence.
Qed.

Lemma fp_error_quiet c msg line st st0 :
  first_pass_quiet st0 (fp_error c msg file line st).
Proof. unfold first_pass_quiet. cbn. discriminate. Qed.

Lemma symbol_placed_mono IC DC IC' DC' s :
  IC <= IC' -> DC <= DC' -> symbol_placed IC DC s -> symbol_placed IC' DC' s.
Proof. unfold symbol_placed. destruct (type s); lia. Qed.

Lemma symbols_placed_mono IC DC IC' DC' l :
  IC <= IC' -> DC <= DC' ->
  Forall (symbol_placed IC DC) l -> Forall (symbol_placed IC' DC') l.
Proof.
  intros H1 H2. apply Forall_impl. intros s. now apply symbol_placed_mono.
Qed.

Lemma fp_externs_fold line tokens st :
  let st' := fold_left (fp_extern_symbol macros file line) tokens st in
  first_pass_quiet st st' /\ (first_pass_invariant st -> first_pass_invariant st').
Proof.
  revert st. induction tokens as [|t tokens IH]; intros st; cbn [fold_left].
  - split; [apply first_pass_quiet_refl | auto].
  - destruct (IH (fp_extern_symbol macros file line st t)) as [Q Hinv].
    destruct (fp_extern_symbol_cases line st t) as (HI & HD & Q1 & Hs).
    split.
    + eapply first_pass_quiet_trans; eauto.
    + intros (A & B & C). apply Hinv. unfold first_pass_invariant.
      rewrite HI, HD. repeat split; auto.
      destruct Hs as [-> | ->]; auto.
      apply Forall_app. split; auto. constructor; [exact I | constructor].
Qed.

Lemma instruction_length_positive operation operands :
  get_instruction_length operation operands = -1 \/
  1 <= get_instruction_length operation operands.
Proof.
  destruct operands as [ops|]; [|right; cbn; lia].
  rewrite get_instruction_length_buffer. unfold present.
  repeat match goal with |- context [if ?b then _ else _] => destruct b end; lia.
Qed.

Lemma validate_string_length s : validate_string s = true -> 2 <= strlen s.
Proof.
  unfold validate_string, strlen.
  destruct s as [|c0 [|c1 r]]; try discriminate. intros _. cbn. lia.
Qed.

Lemma count_data_values_nonneg operands : 0 <= count_data_values operands.
Proof. unfold count_data_values. lia. Qed.

Lemma fp_error_invariant c msg line st :
  first_pass_invariant st -> first_pass_invariant (fp_error c msg file line st).
Proof. auto. Qed.

Lemma fp_set_flags_step e x st :
  first_pass_quiet st (fp_set_flags e x st) /\
  (first_pass_invariant st -> first_pass_invariant (fp_set_flags e x st)).
Proof. split; [unfold first_pass_quiet; cbn; auto | auto]. Qed.

Lemma fp_set_counters_quiet ic dc st : first_pass_quiet st (fp_set_counters ic dc st).
Proof. unfold first_pass_quiet. cbn. auto. Qed.

(** A data label is entered at [DC]. *)
Lemma fp_add_data_label_invariant line label st :
  first_pass_invariant st ->
  first_pass_invariant
    (fp_add_label macros file line label (fp_DC st) SYMBOL_TYPE_DATA st).
Proof.
  intros (A & B & C).
  destruct (fp_add_label_cases line label (fp_DC st) SYMBOL_TYPE_DATA st)
    as (HI & HD & _ & Hs).
  unfold first_pass_invariant. rewrite HI, HD. repeat split; auto.
  destruct Hs as [-> | ->]; auto.
  apply Forall_app. split; auto. constructor; [|constructor].
  unfold symbol_placed. cbn. lia.
Qed.

(** A code label is entered at [IC], which then moves past the instruction. *)
Lemma fp_add_code_label_invariant line label len st :
  1 <= len ->
  first_pass_invariant st ->
  let st1 := fp_add_label macros file line label (fp_IC st) SYMBOL_TYPE_CODE st in
  first_pass_invariant (fp_set_counters (fp_IC st1 + len) (fp_DC st1) st1).
Proof.
  intros Hlen (A & B & C) st1.
  destruct (fp_add_label_cases line label (fp_IC st) SYMBOL_TYPE_CODE st)
    as (HI & HD & _ & Hs).
  fold st1 in HI, HD, Hs.
  unfold first_pass_invariant. cbn [fp_set_counters fp_IC fp_DC fp_table].
  rewrite HI, HD. repeat split; try lia.
  assert (Hold : Forall (symbol_placed (fp_IC st + len) (fp_DC st))
                        (symbols (fp_table st)))
    by (eapply symbols_placed_mono; [| |exact C]; lia).
  destruct Hs as [-> | ->]; auto.
  apply Forall_app. split; auto. constructor; [|constructor].
  unfold symbol_placed. cbn. lia.
Qed.

Lemma fp_grow_data_invariant n st :
  0 <= n -> first_pass_invariant st ->
  first_pass_invariant (fp_set_counters (fp_IC st) (fp_DC st + n) st).
Proof.
  intros Hn (A & B & C). unfold first_pass_invariant.
  cbn [fp_set_counters fp_IC fp_DC fp_table]. repeat split; try lia.
  eapply symbols_placed_mono; [| |exact C]; lia.
Qed.

Lemma first_pass_statement_step line label operation operands st :
  let st' := first_pass_statement macros file line label operation operands st in
  first_pass_quiet st st' /\ (first_pass_invariant st -> first_pass_invariant st').
Proof.
  cbv zeta. unfold first_pass_statement.
  destruct (is_directive operation).
  - destruct (streq operation ".data").
    { pose proof (fp_add_label_cases line label (fp_DC st) SYMBOL_TYPE_DATA st)
        as (_ & _ & Q & _).
      pose proof (fp_add_data_label_invariant line label st) as Hinv.
      destruct (count_data_values operands =? -1).
      - split; [apply fp_error_quiet | auto using fp_error_invariant].
      - split.
        + eapply first_pass_quiet_trans; [exact Q | apply fp_set_counters_quiet].
        + intros H. apply fp_grow_data_invariant; auto.
          apply count_data_values_nonneg. }
    destruct (streq operation ".string").
    { pose proof (fp_add_label_cases line label (fp_DC st) SYMBOL_TYPE_DATA st)
        as (_ & _ & Q & _).
      pose proof (fp_add_data_label_invariant line label st) as Hinv.
      destruct (validate_string operands) eqn:V; cbn [negb].
      - split.
        + eapply first_pass_quiet_trans; [exact Q | apply fp_set_counters_quiet].
        + intros H. apply fp_grow_data_invariant; auto.
          apply validate_string_length in V. lia.
      - split; [apply fp_error_quiet | auto using fp_error_invariant]. }
    destruct (streq operation ".entry").
    { apply fp_set_flags_step. }
    destruct (streq operation ".extern").
    { destruct (is_empty (trim operands)).
      - split; [apply fp_error_quiet | auto using fp_error_invariant].
      - destruct (fp_externs_fold line (strtok_all COMMA_SP_TAB (trim operands)) st)
          as [Q Hinv].
        split.
        + eapply first_pass_quiet_trans; [exact Q | apply fp_set_flags_step].
        + intros H. apply fp_set_flags_step. auto. }
    split; [apply first_pass_quiet_refl | auto].
  - destruct (negb (get_opcode operation =? -1)).
    + destruct (get_instruction_length operation (Some operands) =? -1) eqn:L.
      * split; [apply fp_error_quiet | auto using fp_error_invariant].
      * apply Z.eqb_neq in L.
        destruct (instruction_length_positive operation (Some operands)) as [E|E];
          [contradiction|].
        pose proof (fp_add_label_cases line label (fp_IC st) SYMBOL_TYPE_CODE st)
          as (_ & _ & Q & _).
        split.
        -- eapply first_pass_quiet_trans; [exact Q | apply fp_set_counters_quiet].
        -- intros H. now apply fp_add_code_label_invariant.
    + split; [apply fp_error_quiet | auto using fp_error_invariant].
Qed.

Lemma first_pass_line_step line_number raw st :
  let st' := first_pass_line macros file line_number raw st in
  first_pass_quiet st st' /\ (first_pass_invariant st -> first_pass_invariant st').
Proof.
  cbv zeta. unfold first_pass_line.
  destruct (is_empty _); [split; [apply first_pass_quiet_refl | auto]|].
  destruct (_ <? _); [split; [apply fp_error_quiet | auto using fp_error_invariant]|].
  destruct (first_pass_tokens _) as [|label operation operands].
  - split; [apply fp_error_quiet | auto using fp_error_invariant].
  - apply first_pass_statement_step.
Qed.

Lemma first_pass_loop_step lines : forall line_number st,
  let st' := first_pass_loop macros file line_number lines st in
  first_pass_quiet st st' /\ (first_pass_invariant st -> first_pass_invariant st').
Proof.
  induction lines as [|raw rest IH]; intros line_number st; cbn [first_pass_loop].
  - split; [apply first_pass_quiet_refl | auto].
  - destruct (first_pass_line_step (line_number + 1) raw st) as [Q1 I1].
    destruct (IH (line_number + 1)
                 (first_pass_line macros file (line_number + 1) raw st)) as [Q2 I2].
    split; [eapply first_pass_quiet_trans; eauto | auto].
Qed.

End FirstPassLines.

Lemma first_pass_start_invariant log : first_pass_invariant (first_pass_start log).
Proof.
  unfold first_pass_invariant, first_pass_start, FIRST_ADDRESS. cbn.
  repeat split; try lia. constructor.
Qed.

(** C6.  When the first pass has read the whole file, the address of every
    data symbol is the data counter it was entered with plus the final IC,
    hence at least the final IC, every other symbol keeps its address, and
    every code symbol lies in [100, final IC). *)
Theorem first_pass_symbol_addresses
  (macros : list string) (file expanded : string) (log : ErrorLog) :
  let st := first_pass_loop macros file 0 (read_lines expanded) (first_pass_start log) in
  let r := first_pass macros file expanded init_symbol_table log in
  fr_IC r = fp_IC st
  /\ Forall2 (fun before after =>
                name after = name before /\ type after = type before /\
                address after =
                  match type before with
                  | SYMBOL_TYPE_DATA => address before + fr_IC r
                  | _ => address before
                  end /\
                (type before = SYMBOL_TYPE_DATA -> 0 <= address before))
             (symbols (fp_table st)) (symbols (fr_table r))
  /\ Forall (fun s =>
               match type s with
               | SYMBOL_TYPE_DATA => fr_IC r <= address s
               | SYMBOL_TYPE_CODE => 100 <= address s < fr_IC r
               | _ => True
               end)
            (symbols (fr_table r)).
Proof.
  intros st r.
  destruct (first_pass_loop_step macros file (read_lines expanded) 0
              (first_pass_start log)) as [_ Hinv].
  specialize (Hinv (first_pass_start_invariant log)).
  fold st in Hinv. destruct Hinv as (A & B & C).
  change (fr_IC r) with (fp_IC st).
  change (symbols (fr_table r))
    with (map (rebase_symbol (fp_IC st)) (symbols (fp_table st))).
  split; [reflexivity|]. split.
  - induction C as [|s l Hs _ IH]; cbn [map]; constructor; auto.
    unfold rebase_symbol, symbol_placed in *.
    destruct (type s) eqn:T; cbn; rewrite ?T; repeat split; auto;
      try discriminate; lia.
  - apply Forall_map. eapply Forall_impl; [|exact C].
    intros s Hs. unfold rebase_symbol, symbol_placed, FIRST_ADDRESS in *.
    destruct (type s) eqn:T; cbn; rewrite ?T; auto; lia.
Qed.

(** ** The second pass: errors, and the [.entry] directive *)

Section SecondPassLines.

Variable file : string.

Lemma second_pass_quiet_refl st : second_pass_quiet st st.
Proof. unfold second_pass_quiet. auto. Qed.

Lemma second_pass_quiet_trans a b c :
  second_pass_quiet a b -> second_pass_quiet b c -> second_pass_quiet a c.
Proof.
  unfold second_pass_quiet. intros H1 H2 Hc.
  destruct (H2 Hc) as [Hb Hl]. destruct (H1 Hb) as [Ha Hl']. split; congruence.
Qed.

Lemma sp_error_quiet c msg line st st0 :
  second_pass_quiet st0 (sp_error c msg file line st).
Proof. unfold second_pass_quiet. cbn. discriminate. Qed.

Lemma sp_emit_quiet ws a st : second_pass_quiet st (sp_emit ws a st).
Proof. unfold second_pass_quiet. cbn. auto. Qed.

Lemma sp_set_table_quiet t st : second_pass_quiet st (sp_set_table t st).
Proof. unfold second_pass_quiet. cbn. auto. Qed.

Lemma second_pass_entry_quiet line symbol_name st :
  second_pass_quiet st (second_pass_entry file line symbol_name st).
Proof.
  unfold second_pass_entry.
  destruct symbol_name as [n|]; [|apply sp_error_quiet].
  destruct (find_symbol (sp_table st) n) as [sym|]; [|apply sp_error_quiet].
  destruct (negb _); [apply sp_set_table_quiet | apply sp_error_quiet].
Qed.

Lemma second_pass_instruction_quiet line token operands st :
  second_pass_quiet st (second_pass_instruction file line token operands st).
Proof.
  unfold second_pass_instruction.
  destruct (encode_instruction token operands (sp_table st) (sp_address st))
    as [inst table].
  destruct (opcode inst =? to_uint (-1)); [apply sp_error_quiet|].
  eapply second_pass_quiet_trans; [apply sp_set_table_quiet | apply sp_emit_quiet].
Qed.

Lemma second_pass_line_quiet line_number raw st st' :
  second_pass_line file line_number raw st = Some st' -> second_pass_quiet st st'.
Proof.
  unfold second_pass_line.
  destruct (is_empty _).
  { intros H. injection H as <-. apply second_pass_quiet_refl. }
  destruct (second_pass_token _) as [[token rest]|]; [|discriminate].
  destruct (streq token ".data" || streq token ".string")%bool.
  { destruct (streq token ".data").
    - destruct (write_data _ _) as [ws a]. intros H. injection H as <-.
      apply sp_emit_quiet.
    - destruct (option_map fst (strtok NLs rest)) as [ops|]; [|discriminate].
      destruct (write_string _ _) as [ws a]. intros H. injection H as <-.
      apply sp_emit_quiet. }
  destruct (streq token ".entry").
  { intros H. injection H as <-. apply second_pass_entry_quiet. }
  destruct (negb _); intros H; injection H as <-.
  - apply second_pass_instruction_quiet.
  - apply second_pass_quiet_refl.
Qed.

Lemma second_pass_loop_quiet lines : forall line_number st st',
  second_pass_loop file line_number lines st = Some st' -> second_pass_quiet st st'.
Proof.
  induction lines as [|raw rest IH]; intros line_number st st'; cbn [second_pass_loop].
  - intros H. injection H as <-. apply second_pass_quiet_refl.
  - destruct (second_pass_line file (line_number + 1) raw st) as [st1|] eqn:E;
      [|discriminate].
    intros H. eapply second_pass_quiet_trans.
    + eapply second_pass_line_quiet; eauto.
    + eapply IH; eauto.
Qed.

Lemma second_pass_outputs expanded table IC DC log r :
  second_pass file expanded table IC DC log = Some r ->
  sr_outputs r <> None -> sr_ok r = true /\ sr_log r = log.
Proof.
  unfold second_pass.
  destruct (second_pass_loop _ _ _ _) as [st|] eqn:E; [|discriminate].
  intros H. injection H as <-. cbn.
  apply second_pass_loop_quiet in E. unfold second_pass_quiet in E. cbn in E.
  destruct (sp_error_found st); [congruence|].
  intros _. split; [reflexivity | now apply E].
Qed.

Lemma set_entry_find_same n syms sym :
  find (fun s => streq (name s) n) syms = Some sym ->
  find (fun s => streq (name s) n) (set_entry n syms) =
    Some {| name := name sym; address := address sym; type := SYMBOL_TYPE_ENTRY |}.
Proof.
  induction syms as [|s rest IH]; cbn [find set_entry]; [discriminate|].
  destruct (streq (name s) n) eqn:E.
  - intros H. injection H as <-. cbn [find name]. now rewrite E.
  - intros H. cbn [find]. rewrite E. auto.
Qed.

Lemma set_entry_find_other n m syms :
  streq m n = false ->
  find (fun s => streq (name s) m) (set_entry n syms) =
  find (fun s => streq (name s) m) syms.
Proof.
  intros Hm. induction syms as [|s rest IH]; cbn [find set_entry]; [reflexivity|].
  destruct (streq (name s) n) eqn:E.
  - cbn [find name]. apply String.eqb_eq in E. rewrite E.
    unfold streq in *. rewrite String.eqb_sym, Hm. reflexivity.
  - cbn [find]. now rewrite IH.
Qed.

End SecondPassLines.

(** C5.  The second pass is entered only when the first pass left the log
    as it found it, and it hands out output files only when it, too, logged
    nothing; on [A: .data 1] / [A: .data 2] the first pass logs the Symbol
    error "Duplicate symbol definition" (line 2), the second pass is not run
    and no output file is produced. *)
Theorem passes_gated_by_errors
  (macros : list string) (file expanded : string) (table : SymbolTable)
  (log : ErrorLog) :
  let r := first_pass macros file expanded table log in
  (fr_second r <> SecondNotRun -> fr_ok r = true /\ fr_log r = log)
  /\ (forall s, fr_second r = SecondRan s -> sr_outputs s <> None ->
        sr_ok s = true /\ sr_log s = fr_log r)
  /\ (outputs_of r <> None -> log_of r = log)
  /\ (let a := assemble "dup" duplicate_symbol_source [] in
      option_map fr_log (passes a) =
        Some [ {| category := ERR_SYMBOL;
                  specific_message := "Duplicate symbol definition";
                  error_file := "dup.am"; error_line := 2 |} ]
      /\ option_map fr_second (passes a) = Some SecondNotRun
      /\ output_files a = None).
Proof.
  intros r.
  assert (H1 : fr_second r <> SecondNotRun -> fr_ok r = true /\ fr_log r = log).
  { subst r. unfold first_pass. cbn [fr_second fr_ok fr_log].
    destruct (first_pass_loop_step macros file (read_lines expanded) 0
                {| fp_table := table; fp_IC := FIRST_ADDRESS; fp_DC := 0;
                   fp_error_found := false; fp_log := log |}) as [Q _].
    unfold first_pass_quiet in Q.
    destruct (fp_error_found _); cbn [negb]; [congruence|].
    intros _. split; [reflexivity | now apply Q]. }
  assert (H2 : forall s, fr_second r = SecondRan s -> sr_outputs s <> None ->
                         sr_ok s = true /\ sr_log s = fr_log r).
  { intros s. subst r. unfold first_pass. cbn [fr_second fr_log].
    destruct (negb _); [|discriminate].
    destruct (second_pass _ _ _ _ _ _) as [r'|] eqn:E; [|discriminate].
    intros H. injection H as ->. now apply (second_pass_outputs _ _ _ _ _ _ _ E). }
  split; [exact H1|]. split; [exact H2|]. split.
  - unfold outputs_of, log_of. destruct (fr_second r) as [| |s] eqn:E;
      try congruence.
    intros Ho. destruct (H2 s eq_refl Ho) as [_ ->].
    apply H1. discriminate.
  - vm_compute. repeat split.
Qed.

Lemma passes_gated_by_errors_witness :
  let r := first_pass [] "loop.am" entry_promotion_source init_symbol_table [] in
  fr_second r <> SecondNotRun /\ fr_ok r = true /\ fr_log r = [].
Proof.
  assert (H : fr_second (first_pass [] "loop.am" entry_promotion_source
                           init_symbol_table []) <> SecondNotRun)
    by (vm_compute; discriminate).
  split; [exact H|].
  exact (proj1 (passes_gated_by_errors [] "loop.am" entry_promotion_source
                  init_symbol_table []) H).
Defined.

Lemma second_pass_entry_outcome file line symbol_name st :
  entry_outcome file line symbol_name st (second_pass_entry file line symbol_name st).
Proof.
  unfold entry_outcome, second_pass_entry.
  destruct symbol_name as [n|]; [|cbn; auto].
  destruct (find_symbol (sp_table st) n) as [sym|] eqn:F; [|cbn; auto].
  unfold find_symbol in *.
  destruct (type sym) eqn:T; cbn; auto;
    (split; [now apply set_entry_find_same|]); (split; [reflexivity|]);
    (split; [intros m Hm; now apply set_entry_find_other | auto]).
Qed.

(** C7.  A line of the second pass whose directive is [.entry]: when the
    operand names a symbol that is not External, that symbol becomes Entry
    (same name and address), [has_entries] is set, no other name is touched
    and nothing is logged; when the symbol is External, when the name is not
    in the table, and when the operand is missing, [error_found] is set and
    an error is logged, the table being left as it was.  The code stream and
    the address do not move.  On [LOOP: inc r3] / [.entry LOOP] / [stop] the
    [.ent] file is the line [LOOP 0100]. *)
Theorem entry_directive
  (file : string) (line_number : Z) (raw rest : string) (st : SecondState) :
  (second_pass_token (trim (handle_extra_spaces (handle_comment raw)))
     = Some (".entry"%string, rest) ->
   exists st',
     second_pass_line file line_number raw st = Some st'
     /\ sp_address st' = sp_address st
     /\ sp_code st' = sp_code st
     /\ entry_outcome file line_number (option_map fst (strtok SP_TAB_NL rest)) st st')
  /\ (let a := assemble "loop" entry_promotion_source [] in
      option_map ent_file (output_files a) = Some (Some ("LOOP 0100" ++ NLs)%string)
      /\ final_log a = []).
Proof.
  split; [|vm_compute; split; reflexivity].
  intros Htok.
  exists (second_pass_entry file line_number
            (option_map fst (strtok SP_TAB_NL rest)) st).
  split.
  - unfold second_pass_line. rewrite Htok.
    destruct (is_empty _) eqn:E.
    + destruct (trim _); [discriminate Htok | discriminate E].
    + reflexivity.
  - split; [|split; [|apply second_pass_entry_outcome]];
      unfold second_pass_entry;
      repeat match goal with |- context [match ?x with _ => _ end] => destruct x end;
      reflexivity.
Qed.

Lemma entry_directive_witness :
  exists st',
    second_pass_line "p.am" 2 (".entry LOOP" ++ NLs)%string entry_witness_state = Some st'
    /\ sp_address st' = 102
    /\ sp_code st' = []
    /\ entry_outcome "p.am" 2 (Some "LOOP"%string) entry_witness_state st'.
Proof.
  exact (proj1 (entry_directive "p.am" 2 (".entry LOOP" ++ NLs)%string "LOOP"
                  entry_witness_state) eq_refl).
Defined.

(** ** The pre-assembler always finishes *)

Lemma add_macro_lines_length (lines : list string) :
  (List.length (snd (add_macro_lines lines)) <= List.length lines)%nat.
Proof.
  induction lines as [|l rest IH]; cbn [add_macro_lines]; [cbn; lia|].
  destruct (streq (trim l) "endmacr"); [cbn; lia|].
  destruct (add_macro_lines rest) as [body remaining]. cbn in *. lia.
Qed.

Lemma pre_assembler_loop_total file (fuel : nat) : forall lines line_number st,
  (List.length lines <= fuel)%nat ->
  exists st', pre_assembler_loop fuel file lines line_number st = Some st'.
Proof.
  induction fuel as [|fuel IH]; intros lines line_number st Hf.
  - destruct lines; [cbn; eauto | cbn in Hf; lia].
  - destruct lines as [|l rest]; [cbn; eauto|].
    cbn [pre_assembler_loop]. cbn in Hf.
    assert (Hrest : (List.length rest <= fuel)%nat) by lia.
    destruct (_ <? _); [now apply IH|].
    destruct (String.prefix "macr" (trim l)).
    + destruct (is_valid_macro_name _); [|now apply IH].
      pose proof (add_macro_lines_length rest) as L.
      destruct (add_macro_lines rest) as [body remaining]. cbn in L.
      apply IH. lia.
    + destruct (streq (trim l) "endmacr"); now apply IH.
Qed.

Lemma pre_assembler_total (file input : string) (log : ErrorLog) :
  exists st, pre_assembler file input log = Some st.
Proof. unfold pre_assembler. now apply pre_assembler_loop_total. Qed.

(** ** The pre-assembler on a file without macro lines *)

Lemma string_app_assoc (a b c : string) :
  ((a ++ b) ++ c)%string = (a ++ (b ++ c))%string.
Proof. induction a as [|x a IH]; cbn; [reflexivity | now rewrite IH]. Qed.

Lemma string_app_nil_r (a : string) : (a ++ EmptyString)%string = a.
Proof. induction a as [|x a IH]; cbn; [reflexivity | now rewrite IH]. Qed.

Lemma string_length_app (a b : string) :
  String.length (a ++ b) = (String.length a + String.length b)%nat.
Proof. induction a as [|x a IH]; cbn; [reflexivity | now rewrite IH]. Qed.

Lemma concat_cons (x : string) (l : list string) :
  String.concat EmptyString (x :: l) = (x ++ String.concat EmptyString l)%string.
Proof.
  destruct l as [|y l]; cbn [String.concat]; [now rewrite string_app_nil_r | reflexivity].
Qed.

(** The pieces [fgets] returns, put end to end, are the file. *)
Lemma fgets_loop_concat (s : string) : forall room cur,
  String.concat EmptyString (fgets_loop room cur s) = (cur ++ s)%string.
Proof.
  induction s as [|c r IH]; intros room cur; cbn [fgets_loop].
  - destruct cur; cbn; [reflexivity | now rewrite string_app_nil_r].
  - assert (E : forall k, String.concat EmptyString
                 ((cur ++ String c EmptyString)%string
                  :: fgets_loop k EmptyString r) = (cur ++ String c r)%string).
    { intros k. rewrite concat_cons, IH, string_app_assoc. reflexivity. }
    destruct (Ascii.eqb c NL); [apply E|].
    destruct room as [|[|k]]; [apply E | apply E |].
    rewrite IH, string_app_assoc. reflexivity.
Qed.

Lemma read_lines_concat (input : string) :
  String.concat EmptyString (read_lines input) = input.
Proof. unfold read_lines. now rewrite fgets_loop_concat. Qed.

(** No piece is longer than the buffer allows. *)
Lemma fgets_loop_length (s : string) : forall room cur,
  (1 <= room)%nat -> (String.length cur + room <= MAX_LINE_LENGTH)%nat ->
  Forall (fun l => (String.length l <= MAX_LINE_LENGTH)%nat) (fgets_loop room cur s).
Proof.
  induction s as [|c r IH]; intros room cur H1 H2; cbn [fgets_loop].
  - destruct (is_empty cur); constructor; [lia | constructor].
  - assert (L : String.length (cur ++ String c EmptyString) = S (String.length cur))
      by (rewrite string_length_app; cbn; lia).
    assert (E : Forall (fun l => (String.length l <= MAX_LINE_LENGTH)%nat)
                  ((cur ++ String c EmptyString)%string
                   :: fgets_loop MAX_LINE_LENGTH EmptyString r)).
    { constructor; [lia|]. apply IH; cbn; unfold MAX_LINE_LENGTH; lia. }
    destruct (Ascii.eqb c NL); [exact E|].
    destruct room as [|[|k]]; [exact E | exact E |].
    apply IH; lia.
Qed.

Lemma skip_length p s : (String.length (skip p s) <= String.length s)%nat.
Proof.
  induction s as [|c r IH]; cbn; [lia|]. destruct (p c); cbn; lia.
Qed.

Lemma drop_trailing_space_length s :
  (String.length (drop_trailing_space s) <= String.length s)%nat.
Proof.
  induction s as [|c r IH]; cbn; [lia|].
  destruct (drop_trailing_space r); [destruct (isspace c)|]; cbn in *; lia.
Qed.

Lemma trim_length s : (String.length (trim s) <= String.length s)%nat.
Proof.
  unfold trim.
  pose proof (drop_trailing_space_length (skip isspace s)).
  pose proof (skip_length isspace s). lia.
Qed.

Lemma pre_assembler_loop_plain file (lines : list string) :
  Forall plain_line lines ->
  forall fuel line_number st,
    (List.length lines <= fuel)%nat ->
    macro_table st = [] ->
    pre_assembler_loop fuel file lines line_number st =
    Some {| macro_table := []; macro_name_buf := macro_name_buf st;
            am_output := (am_output st ++ String.concat EmptyString lines)%string;
            pre_error := pre_error st; pre_log := pre_log st |}.
Proof.
  induction 1 as [|l lines (Hlen & Hm & He) _ IH]; intros fuel line_number st Hf Ht.
  - destruct fuel; cbn; rewrite string_app_nil_r; destruct st; cbn in *; now subst.
  - destruct fuel as [|fuel]; [cbn in Hf; lia|].
    cbn [pre_assembler_loop].
    assert (Hlong : (Z.of_nat MAX_LINE_LENGTH <? strlen (trim l)) = false).
    { apply Z.ltb_ge. unfold strlen. pose proof (trim_length l). lia. }
    rewrite Hlong.
    unfold macr_definition_line in Hm. rewrite Hm.
    unfold endmacr_line in He. rewrite He.
    rewrite Ht. cbn [find].
    rewrite IH; [|cbn in Hf; lia | reflexivity].
    cbn [macro_name_buf am_output pre_error pre_log].
    now rewrite concat_cons, string_app_assoc.
Qed.

Lemma no_macro_lines_plain input :
  no_macro_lines input = true -> Forall plain_line (read_lines input).
Proof.
  unfold no_macro_lines. intros H.
  pose proof (fgets_loop_length input MAX_LINE_LENGTH EmptyString) as L.
  specialize (L ltac:(unfold MAX_LINE_LENGTH; lia) ltac:(cbn; lia)).
  fold (read_lines input) in L.
  rewrite forallb_forall in H. rewrite Forall_forall in *.
  intros l Hl. specialize (H l Hl). apply andb_prop in H as [H1 H2].
  apply negb_true_iff in H1, H2. repeat split; auto.
Qed.

(** C8, as the code has it.  When no piece of the input, trimmed, begins
    with [macr] or is exactly [endmacr], the pre-assembler succeeds, logs
    nothing, defines no macro, and its output is the input, byte for byte. *)
Theorem pre_assembler_identity (file input : string) (log : ErrorLog) :
  no_macro_lines input = true ->
  exists st,
    pre_assembler file input log = Some st
    /\ am_output st = input
    /\ pre_error st = false
    /\ pre_log st = log
    /\ macro_table st = [].
Proof.
  intros H. unfold pre_assembler.
  rewrite (pre_assembler_loop_plain file _ (no_macro_lines_plain input H));
    [|lia | reflexivity].
  eexists. split; [reflexivity|]. cbn.
  rewrite read_lines_concat. auto.
Qed.

Lemma pre_assembler_identity_witness :
  no_macro_lines plain_source = true
  /\ exists st,
       pre_assembler "p.as" plain_source [] = Some st
       /\ am_output st = plain_source
       /\ pre_error st = false
       /\ pre_log st = []
       /\ macro_table st = [].
Proof.
  split; [reflexivity|].
  exact (pre_assembler_identity "p.as" plain_source [] eq_refl).
Defined.

(** C8, as stated, fails: a file whose only line is [endmacr] holds no
    [macr] definition, yet its expansion is empty. *)
Lemma stray_endmacr_dropped :
  no_macr_definitions ("endmacr" ++ NLs)%string = true
  /\ option_map am_output (pre_assembler "p.as" ("endmacr" ++ NLs)%string [])
     = Some EmptyString
  /\ option_map pre_error (pre_assembler "p.as" ("endmacr" ++ NLs)%string [])
     = Some false
  /\ String.eqb ("endmacr" ++ NLs)%string EmptyString = false.
Proof. vm_compute. repeat split. Qed.

(** ** Scenarios where the code and the specification part *)

(** The word of an immediate operand: the target branch shifts the 12-bit
    value by 3, the source branch falls into the register case. *)
Lemma immediate_operand_words (inst : Instruction) :
  (target_addressing inst = 0 -> target_are inst = 4 ->
   target_word inst = Z.lor (Z.shiftl (Z.land (target_operand inst) 4095) 3) 4)
  /\ (source_addressing inst = 0 -> source_are inst = 4 ->
      source_word inst = Z.lor (Z.shiftl (Z.land (source_operand inst) 7) 6) 4).
Proof.
  unfold target_word, source_word.
  split; intros Hm Ha; rewrite Hm, Ha; reflexivity.
Qed.

(** A lone operand that names an external symbol: the reference is recorded
    two words after the instruction, the operand word is written one word
    after it. *)
Lemma lone_external_operand (n : string) (table : SymbolTable) (addr : Z) (sym : Symbol) :
  get_addressing_mode (Some n) = 1 ->
  find_symbol table n = Some sym ->
  type sym = SYMBOL_TYPE_EXTERNAL ->
  encode_operand n table 4 addr false
    = (1, 1, with_external_table table
               (add_external_reference (external_table table) n (addr + 2))).
Proof.
  intros Hm Hf Ht. unfold encode_operand. rewrite Hm, Hf, Ht. reflexivity.
Qed.

(** C3.  [.extern FOO] / [jmp FOO]: the operand word, with low bits 1, is
    written at address 101, while the address recorded for [FOO], and
    printed in the [.ext] file, is 102. *)
Theorem external_reference_recorded_address :
  let a := assemble "ext" external_reference_source [] in
  option_map ext_file (output_files a) = Some (Some ("FOO 0102" ++ NLs)%string)
  /\ option_map ob_file (output_files a)
     = Some ("2 0" ++ NLs ++ "0100 44024" ++ NLs ++ "0101 00001" ++ NLs)%string
  /\ Z.land 1 7 = 1
  /\ final_log a = [].
Proof. vm_compute. repeat split. Qed.

(** C4.  [mov #5, r1]: the word written for the immediate source operand is
    ((5 & 7) << 6) | 4 = 324, not ((5 & 0xFFF) << 3) | 4 = 44; an immediate
    target operand ([prn #5], [cmp r1, #-1]) gets (value & 0xFFF) << 3 | 4. *)
Theorem immediate_source_word :
  option_map sr_code
    (match passes (assemble "imm" immediate_source_source []) with
     | Some r => match fr_second r with SecondRan s => Some s | _ => None end
     | None => None
     end)
  = Some [(100, 196); (101, 324); (102, 12)]
  /\ Z.lor (Z.shiftl (Z.land 5 4095) 3) 4 = 44
  /\ Z.lor (Z.shiftl (Z.land (Z.land 5 4095) 7) 6) 4 = 324
  /\ option_map sr_code
       (match passes (assemble "imm" immediate_target_source []) with
        | Some r => match fr_second r with SecondRan s => Some s | _ => None end
        | None => None
        end)
     = Some [(100, 24588); (101, Z.lor (Z.shiftl (Z.land 5 4095) 3) 4);
             (102, 3084); (103, 68);
             (104, Z.lor (Z.shiftl (Z.land (-1) 4095) 3) 4)].
Proof. vm_compute. repeat split. Qed.

(** * Further properties of the utilities, tables and passes *)

(** ** [trim] *)

Lemma skip_isspace_split (s : string) :
  exists a, s = (a ++ skip isspace s)%string /\ string_forallb isspace a = true.
Proof.
  induction s as [|c r (a & Ha & Hs)]; cbn [skip].
  - now exists EmptyString.
  - destruct (isspace c) eqn:E.
    + exists (String c a). cbn. rewrite E, Hs. split; [now rewrite <- Ha | reflexivity].
    + now exists EmptyString.
Qed.

Lemma drop_trailing_space_split (s : string) :
  exists b, s = (drop_trailing_space s ++ b)%string /\ string_forallb isspace b = true.
Proof.
  induction s as [|c r (b & Hb & Hs)]; cbn [drop_trailing_space].
  - now exists EmptyString.
  - destruct (drop_trailing_space r) as [|d t] eqn:E.
    + destruct (isspace c) eqn:Ec.
      * exists (String c b). cbn in *. rewrite Ec, Hs. split; [now rewrite <- Hb | reflexivity].
      * exists b. cbn in *. split; [now rewrite <- Hb | exact Hs].
    + exists b. cbn in *. split; [now rewrite <- Hb | exact Hs].
Qed.

Lemma drop_trailing_space_last (s : string) :
  drop_trailing_space s = EmptyString \/
  exists d, last_char (drop_trailing_space s) = Some d /\ isspace d = false.
Proof.
  induction s as [|c r IH]; cbn [drop_trailing_space]; [now left|].
  destruct (drop_trailing_space r) as [|d t] eqn:E.
  - destruct (isspace c) eqn:Ec; [now left|]. right. exists c. now cbn.
  - right. destruct IH as [IH|(x & Hx & Hs)]; [discriminate|].
    exists x. split; [|exact Hs]. cbn [last_char]. exact Hx.
Qed.

Lemma drop_trailing_space_fixed (s : string) (d : ascii) :
  last_char s = Some d -> isspace d = false -> drop_trailing_space s = s.
Proof.
  induction s as [|c r IH]; [discriminate|].
  cbn [last_char drop_trailing_space]. destruct r as [|c' r'].
  - intros H Hd. injection H as ->. cbn. now rewrite Hd.
  - intros H Hd. rewrite (IH H Hd). reflexivity.
Qed.

Lemma drop_trailing_space_head (c : ascii) (r : string) :
  isspace c = false ->
  exists t, drop_trailing_space (String c r) = String c t.
Proof.
  intros Hc. cbn. rewrite Hc. destruct (drop_trailing_space r); eauto.
Qed.

(** A string that neither begins nor ends with white space is left alone. *)
Lemma trim_fixed (s : string) :
  (forall c r, s = String c r -> isspace c = false) ->
  (forall d, last_char s = Some d -> isspace d = false) ->
  trim s = s.
Proof.
  intros Hh Hl. unfold trim. destruct s as [|c r]; [reflexivity|].
  cbn [skip]. rewrite (Hh c r eq_refl).
  assert (Hex : exists d, last_char (String c r) = Some d).
  { clear. revert c. induction r as [|x r IH]; intros c; cbn [last_char]; eauto. }
  destruct Hex as (d & E).
  exact (drop_trailing_space_fixed _ d E (Hl d E)).
Qed.

(** [trim] removes white space at the two ends and nothing else, leaves a
    string that neither begins nor ends with white space, and does nothing
    when applied again. *)
Theorem trim_ends (s : string) :
  (exists a b, s = (a ++ trim s ++ b)%string /\
               string_forallb isspace a = true /\ string_forallb isspace b = true)
  /\ (trim s = EmptyString \/
      exists c r d, trim s = String c r /\ isspace c = false /\
                    last_char (trim s) = Some d /\ isspace d = false)
  /\ trim (trim s) = trim s.
Proof.
  assert (Hends : trim s = EmptyString \/
      exists c r d, trim s = String c r /\ isspace c = false /\
                    last_char (trim s) = Some d /\ isspace d = false).
  { destruct (trim_head s) as [E|(c & r & E & Hc)]; [now left|]. right.
    unfold trim in *.
    destruct (drop_trailing_space_last (skip isspace s)) as [E'|(d & Hd & Hs)];
      [congruence|].
    exists c, r, d. auto. }
  split; [|split; [exact Hends|]].
  - destruct (skip_isspace_split s) as (a & Ha & Hsa).
    destruct (drop_trailing_space_split (skip isspace s)) as (b & Hb & Hsb).
    exists a, b. unfold trim. split; [|auto]. rewrite <- Hb. exact Ha.
  - destruct Hends as [->|(c & r & d & E & Hc & Hl & Hd)]; [reflexivity|].
    apply trim_fixed.
    + intros c' r' E'. rewrite E in E'. injection E' as <- <-. exact Hc.
    + intros d' E'. rewrite Hl in E'. injection E' as <-. exact Hd.
Qed.

(** ** [handle_comment] *)

Lemma span_app (p : ascii -> bool) (s : string) :
  s = (fst (span p s) ++ snd (span p s))%string.
Proof.
  induction s as [|c r IH]; cbn [span]; [reflexivity|].
  destruct (p c); [|reflexivity].
  destruct (span p r) as [a b]. cbn in *. now rewrite <- IH.
Qed.

Lemma span_prefix_all (p : ascii -> bool) (s : string) :
  string_forallb p (fst (span p s)) = true.
Proof.
  induction s as [|c r IH]; cbn [span]; [reflexivity|].
  destruct (p c) eqn:E; [|reflexivity].
  destruct (span p r) as [a b]. cbn in *. now rewrite E, IH.
Qed.

Lemma span_rest_head (p : ascii -> bool) (s : string) :
  snd (span p s) = EmptyString \/
  exists c r, snd (span p s) = String c r /\ p c = false.
Proof.
  induction s as [|c r IH]; cbn [span]; [now left|].
  destruct (p c) eqn:E.
  - destruct (span p r) as [a b]. exact IH.
  - right. now exists c, r.
Qed.

Lemma span_all (p : ascii -> bool) (s : string) :
  string_forallb p s = true -> span p s = (s, EmptyString).
Proof.
  induction s as [|c r IH]; cbn; [reflexivity|].
  intros H. apply andb_prop in H as [Hc Hr]. now rewrite Hc, (IH Hr).
Qed.

(** [handle_comment] keeps the text before the first semicolon: the result
    holds no semicolon, what was cut is empty or begins with one, and a line
    without a semicolon is unchanged. *)
Theorem handle_comment_cut (s : string) :
  string_forallb (fun c => negb (Ascii.eqb c ";")) (handle_comment s) = true
  /\ (exists rest, s = (handle_comment s ++ rest)%string /\
                   (rest = EmptyString \/ exists r, rest = String ";" r))
  /\ (string_forallb (fun c => negb (Ascii.eqb c ";")) s = true -> handle_comment s = s)
  /\ handle_comment (handle_comment s) = handle_comment s.
Proof.
  unfold handle_comment.
  set (p := fun c => negb (Ascii.eqb c ";")).
  pose proof (span_prefix_all p s) as Hp.
  split; [exact Hp|]. split; [|split].
  - exists (snd (span p s)). split; [apply span_app|].
    destruct (span_rest_head p s) as [E|(c & r & E & Hc)]; [now left|].
    right. exists r. rewrite E. unfold p in Hc.
    apply negb_false_iff, Ascii.eqb_eq in Hc. now subst.
  - intros H. now rewrite (span_all p s H).
  - now rewrite (span_all p _ Hp).
Qed.

(** ** The opcode catalog *)

Lemma lookup_opcode_cases (m : string) :
  lookup_opcode m = None \/
  exists e, lookup_opcode m = Some e /\ In e opcode_table /\ mnemonic e = m.
Proof.
  unfold lookup_opcode.
  destruct (find _ opcode_table) as [e|] eqn:F; [right|now left].
  apply find_some in F as [Hin He]. apply String.eqb_eq in He. eauto.
Qed.

(** The two lookups fail together, with -1.  The opcode of a mnemonic is
    its position in the table, between 0 and 15, so two mnemonics never
    share an opcode; the operand count is 2 for the opcodes 0 to 4, 1 for
    5 to 13 and 0 for 14 and 15. *)
Theorem opcode_catalog (m : string) :
  (get_opcode m = -1 <-> get_operand_count m = -1)
  /\ (get_opcode m = -1 \/
      (0 <= get_opcode m <= 15 /\
       get_operand_count m =
         (if get_opcode m <=? 4 then 2 else if get_opcode m <=? 13 then 1 else 0) /\
       option_map mnemonic (nth_error opcode_table (Z.to_nat (get_opcode m))) = Some m))
  /\ (forall m', get_opcode m' = get_opcode m -> get_opcode m <> -1 -> m' = m).
Proof.
  assert (Hinj : forall a b, get_opcode a = get_opcode b -> get_opcode b <> -1 -> a = b).
  { intros a b.
    destruct (lookup_opcode_cases a) as [Ea|(ea & Ea & Ia & Ma)];
      destruct (lookup_opcode_cases b) as [Eb|(eb & Eb & Ib & Mb)];
      unfold get_opcode; rewrite Ea, Eb; try congruence.
    intros H _. subst a b. cbn in Ia, Ib.
    repeat destruct Ia as [<- | Ia]; try contradiction;
      repeat destruct Ib as [<- | Ib]; try contradiction;
      cbn in H; try discriminate H; reflexivity. }
  split; [|split; [|intros m'; apply Hinj]].
  - destruct (lookup_opcode_cases m) as [E|(e & E & I & M)];
      unfold get_opcode, get_operand_count; rewrite E; [tauto|].
    cbn in I. repeat destruct I as [<- | I]; try contradiction; cbn; split; discriminate.
  - destruct (lookup_opcode_cases m) as [E|(e & E & I & M)];
      unfold get_opcode, get_operand_count; rewrite E; [now left|].
    right. subst m. cbn in I.
    repeat destruct I as [<- | I]; try contradiction; cbn; repeat split; lia.
Qed.

(** ** Labels *)

Lemma isalpha_not_special (c : ascii) :
  isalpha c = true ->
  Ascii.eqb c " " = false /\ Ascii.eqb c "#" = false /\ Ascii.eqb c "*" = false /\
  Ascii.eqb c "." = false /\ Ascii.eqb c "-" = false /\ Ascii.eqb c "+" = false /\
  isdigit c = false.
Proof.
  intros H.
  repeat split;
    try (match goal with |- Ascii.eqb c ?k = false =>
           destruct (Ascii.eqb_spec c k) as [->|_]; [discriminate H | reflexivity] end).
  unfold isalpha, isupper, islower, isdigit in *.
  destruct (N.leb_spec 48 (code c)), (N.leb_spec (code c) 57); cbn; try reflexivity.
  exfalso.
  destruct (N.leb_spec 65 (code c)), (N.leb_spec (code c) 90),
           (N.leb_spec 97 (code c)), (N.leb_spec (code c) 122);
    cbn in H; try discriminate; lia.
Qed.

(** A legal label is not empty, has at most 31 characters, is no register,
    no mnemonic, no directive and no number, and as an operand it is always
    taken for a direct (mode 1) reference. *)
Theorem is_label_sound (token : string) :
  is_label token = true ->
  token <> EmptyString
  /\ strlen token <= 31
  /\ is_register token = false
  /\ get_opcode token = -1
  /\ is_directive token = false
  /\ is_number token = false
  /\ get_addressing_mode (Some token) = 1.
Proof.
  unfold is_label. destruct token as [|c rest]; [discriminate|].
  destruct (_ <? _) eqn:L; [discriminate|]. apply Z.ltb_ge in L.
  destruct (isalpha c) eqn:A; cbn [negb]; [|discriminate].
  destruct (is_register (String c rest)) eqn:R; cbn [orb]; [discriminate|].
  destruct (get_opcode (String c rest) =? -1) eqn:O; cbn [negb]; [|discriminate].
  apply Z.eqb_eq in O. intros _.
  destruct (isalpha_not_special c A) as (Hsp & Hh & Hs & Hd & Hm & Hp & Hdig).
  split; [discriminate|]. split; [exact L|]. split; [reflexivity|].
  split; [exact O|]. split; [|split].
  - unfold is_directive. now rewrite Hd.
  - unfold is_number. rewrite Hh, Hm, Hp. cbn. now rewrite Hdig.
  - cbn [get_addressing_mode]. rewrite Hsp, Hh, Hs, R. cbn.
    now rewrite andb_false_r.
Qed.

Lemma is_label_sound_witness :
  is_label "LOOP" = true /\ get_addressing_mode (Some "LOOP"%string) = 1.
Proof.
  split; [reflexivity|].
  exact (proj2 (proj2 (proj2 (proj2 (proj2 (proj2
           (is_label_sound "LOOP" eq_refl))))))).
Defined.

(** ** The symbol table *)

Lemma strncpy_short (n : nat) (s : string) :
  (String.length s <= n)%nat -> strncpy n s = s.
Proof.
  revert n. induction s as [|c r IH]; intros n H; destruct n; cbn in *;
    try reflexivity; try lia.
  rewrite IH; [reflexivity | lia].
Qed.

Lemma strncpy_length (n : nat) (s : string) :
  (String.length (strncpy n s) <= n)%nat.
Proof.
  revert s. induction n as [|n IH]; intros s; destruct s; cbn; try lia.
  specialize (IH s). lia.
Qed.

Lemma find_app_none {A} (p : A -> bool) (l l' : list A) :
  find p l = None -> find p (l ++ l') = find p l'.
Proof.
  induction l as [|x l IH]; cbn; [reflexivity|].
  destruct (p x); [discriminate | exact IH].
Qed.

Lemma find_app_some {A} (p : A -> bool) (l l' : list A) (x : A) :
  find p l = Some x -> find p (l ++ l') = Some x.
Proof.
  induction l as [|y l IH]; cbn; [discriminate|].
  destruct (p y); [auto | exact IH].
Qed.

Lemma find_none_existsb {A} (p : A -> bool) (l : list A) :
  find p l = None <-> existsb p l = false.
Proof.
  induction l as [|x l IH]; cbn; [tauto|].
  destruct (p x); cbn; [split; discriminate | exact IH].
Qed.

(** [add_symbol] against [find_symbol]: the call succeeds exactly when the
    name is not yet in the table and is no macro name; a refused call leaves
    the table as it was and logs one Symbol error; an accepted call logs
    nothing, keeps every lookup that succeeded before, and makes a name of
    at most 31 characters resolve to the new address and kind. *)
Theorem add_symbol_lookup
  (macros : list string) (table : SymbolTable) (n : string) (addr : Z)
  (ty : SymbolType) (file : string) (line : Z) (log : ErrorLog) :
  let r := add_symbol macros table n addr ty file line log in
  let ok := fst (fst r) in
  let table' := snd (fst r) in
  let log' := snd r in
  (ok = true <-> find_symbol table n = None /\ existsb (fun m => streq m n) macros = false)
  /\ (ok = false ->
      table' = table /\
      exists msg, log' = log_error ERR_SYMBOL msg file line log)
  /\ (ok = true ->
      log' = log
      /\ (forall m s, find_symbol table m = Some s -> find_symbol table' m = Some s)
      /\ (forall m, streq (strncpy MAX_LABEL_LENGTH n) m = false ->
                    find_symbol table' m = find_symbol table m)
      /\ ((String.length n <= MAX_LABEL_LENGTH)%nat ->
          find_symbol table' n = Some {| name := n; address := addr; type := ty |})).
Proof.
  cbv zeta. unfold add_symbol, find_symbol.
  destruct (existsb (fun s => streq (name s) n) (symbols table)) eqn:E.
  - cbn. split; [|split]; try discriminate.
    + split; [discriminate|]. intros [H _].
      apply find_none_existsb in H. congruence.
    + intros _. split; [reflexivity | eauto].
  - apply find_none_existsb in E.
    destruct (existsb (fun m => streq m n) macros) eqn:M; cbn -[strncpy MAX_LABEL_LENGTH].
    + split; [|split]; try discriminate.
      * split; [discriminate | intros [_ H]; discriminate].
      * intros _. split; [reflexivity | eauto].
    + split; [tauto|]. split; [discriminate|]. intros _.
      split; [reflexivity|]. split; [|split].
      * intros m s H. now apply find_app_some.
      * intros m Hm.
        destruct (find (fun s => streq (name s) m) (symbols table)) as [s|] eqn:F.
        -- now apply find_app_some.
        -- rewrite (find_app_none _ _ _ F). cbn -[strncpy MAX_LABEL_LENGTH]. unfold streq in Hm. now rewrite Hm.
      * intros Hn. rewrite (find_app_none _ _ _ E). cbn -[strncpy MAX_LABEL_LENGTH].
        rewrite (strncpy_short _ _ Hn). now rewrite String.eqb_refl.
Qed.

Lemma add_symbol_lookup_witness :
  find_symbol (snd (fst (add_symbol [] init_symbol_table "MAIN" 100 SYMBOL_TYPE_CODE
                           "p.am" 1 []))) "MAIN"
  = Some {| name := "MAIN"; address := 100; type := SYMBOL_TYPE_CODE |}.
Proof.
  assert (H : (String.length "MAIN" <= MAX_LABEL_LENGTH)%nat)
    by (unfold MAX_LABEL_LENGTH; cbn; lia).
  exact (proj2 (proj2 (proj2 (proj2 (proj2
    (add_symbol_lookup [] init_symbol_table "MAIN" 100 SYMBOL_TYPE_CODE "p.am" 1 []))
    eq_refl))) H).
Defined.

(** ** The words written by the second pass *)

Lemma consecutive_app (a : Z) (x y : list WordLine) :
  consecutive a (x ++ y) <->
  consecutive a x /\ consecutive (a + Z.of_nat (List.length x)) y.
Proof.
  revert a. induction x as [|w x IH]; intros a; cbn [app consecutive List.length].
  - replace (a + Z.of_nat 0) with a by lia. tauto.
  - rewrite IH. replace (a + 1 + Z.of_nat (List.length x))
      with (a + Z.of_nat (S (List.length x))) by lia. tauto.
Qed.

Lemma land_ones_range (x k : Z) : 0 <= k -> 0 <= Z.land x (Z.ones k) < 2 ^ k.
Proof.
  intros Hk. rewrite Z.land_ones by exact Hk. apply Z.mod_pos_bound. lia.
Qed.

Lemma land7_range (x : Z) : 0 <= Z.land x 7 < 8.
Proof. exact (land_ones_range x 3 ltac:(lia)). Qed.

Lemma land4095_range (x : Z) : 0 <= Z.land x 4095 < 4096.
Proof. exact (land_ones_range x 12 ltac:(lia)). Qed.

Lemma land32767_range (x : Z) : 0 <= Z.land x 32767 < 32768.
Proof. exact (land_ones_range x 15 ltac:(lia)). Qed.

Lemma lor_range15 (a b : Z) :
  0 <= a < 32768 -> 0 <= b < 32768 -> 0 <= Z.lor a b < 32768.
Proof.
  intros Ha Hb. split; [apply Z.lor_nonneg; lia|].
  destruct (Z.eq_dec (Z.lor a b) 0) as [->|Hne]; [lia|].
  assert (Hpos : 0 < Z.lor a b)
    by (pose proof (proj2 (Z.lor_nonneg a b) (conj (proj1 Ha) (proj1 Hb))); lia).
  change 32768 with (2 ^ 15). apply Z.log2_lt_pow2; [exact Hpos|].
  rewrite Z.log2_lor by lia.
  assert (La : Z.log2 a < 15).
  { destruct (Z.eq_dec a 0) as [->|]; [cbn; lia|].
    apply Z.log2_lt_pow2; [lia|]. change (2 ^ 15) with 32768. lia. }
  assert (Lb : Z.log2 b < 15).
  { destruct (Z.eq_dec b 0) as [->|]; [cbn; lia|].
    apply Z.log2_lt_pow2; [lia|]. change (2 ^ 15) with 32768. lia. }
  lia.
Qed.

Lemma shiftl3_range (x : Z) : 0 <= x < 4096 -> 0 <= Z.shiftl x 3 < 32768.
Proof. intros H. rewrite Z.shiftl_mul_pow2 by lia. change (2 ^ 3) with 8. lia. Qed.

Lemma shiftl6_range (x : Z) : 0 <= x < 8 -> 0 <= Z.shiftl x 6 < 32768.
Proof. intros H. rewrite Z.shiftl_mul_pow2 by lia. change (2 ^ 6) with 64. lia. Qed.

Lemma shiftl3_small_range (x : Z) : 0 <= x < 8 -> 0 <= Z.shiftl x 3 < 32768.
Proof. intros H. apply shiftl3_range. lia. Qed.

Ltac range15 :=
  repeat first
    [ apply lor_range15
    | apply shiftl3_range; apply land4095_range
    | apply shiftl6_range; apply land7_range
    | apply shiftl3_small_range; apply land7_range
    | apply land32767_range
    | match goal with |- 0 <= Z.land ?x 7 < 32768 =>
        pose proof (land7_range x); lia end
    | lia ].

Lemma first_word_range (inst : Instruction) : 0 <= first_word inst < 32768.
Proof. unfold first_word. apply land32767_range. Qed.

Lemma source_word_range (inst : Instruction) : 0 <= source_word inst < 32768.
Proof.
  unfold source_word.
  repeat match goal with |- context [if ?b then _ else _] => destruct b end; range15.
Qed.

Lemma target_word_range (inst : Instruction) : 0 <= target_word inst < 32768.
Proof.
  unfold target_word.
  repeat match goal with |- context [if ?b then _ else _] => destruct b end; range15.
Qed.

Lemma write_instruction_shape (inst : Instruction) (addr : Z) :
  consecutive addr (write_instruction inst addr)
  /\ words15 (write_instruction inst addr).
Proof.
  pose proof (first_word_range inst) as F.
  pose proof (source_word_range inst) as S.
  pose proof (target_word_range inst) as T.
  assert (R : 0 <= Z.lor (Z.lor (Z.shiftl (Z.land (source_operand inst) 7) 6)
                               (Z.shiftl (Z.land (target_operand inst) 7) 3)) 4
               < 32768) by range15.
  unfold write_instruction, words15.
  destruct (_ && _)%bool.
  - cbn -[Z.shiftl Z.lor Z.land].
    repeat split; try lia; repeat constructor; cbn -[Z.shiftl Z.lor Z.land]; lia.
  - destruct (negb (source_addressing inst =? 4)),
             (negb (target_addressing inst =? 4)); cbn;
      repeat split; try lia; repeat constructor; cbn; lia.
Qed.

(** Whatever the instruction record holds, [write_instruction] writes
    between one and three lines, at the addresses [addr], [addr + 1], ...
    without a gap, the first of them the first word, and every word it
    writes fits in 15 bits. *)
Theorem write_instruction_words (inst : Instruction) (addr : Z) :
  consecutive addr (write_instruction inst addr)
  /\ words15 (write_instruction inst addr)
  /\ (1 <= List.length (write_instruction inst addr) <= 3)%nat
  /\ hd_error (write_instruction inst addr) = Some (addr, first_word inst).
Proof.
  destruct (write_instruction_shape inst addr) as [C W].
  split; [exact C|]. split; [exact W|].
  unfold write_instruction.
  destruct (_ && _)%bool; [cbn; split; [lia | reflexivity]|].
  destruct (negb (source_addressing inst =? 4)),
           (negb (target_addressing inst =? 4)); cbn; split; try lia; reflexivity.
Qed.

Lemma write_data_fold (tokens : list string) : forall (out : list WordLine) (a : Z),
  let r := fold_left
             (fun '(out, a) token =>
                (out ++ [(a, Z.land (atoi token mod 65536) 32767)], a + 1))
             tokens (out, a) in
  exists ws, fst r = out ++ ws
             /\ snd r = a + Z.of_nat (List.length ws)
             /\ List.length ws = List.length tokens
             /\ consecutive a ws
             /\ words15 ws.
Proof.
  induction tokens as [|t tokens IH]; intros out a; cbv zeta; cbn [fold_left].
  - exists []. cbn. rewrite app_nil_r. repeat split; try lia. constructor.
  - cbv beta iota.
    destruct (IH (out ++ [(a, Z.land (atoi t mod 65536) 32767)]) (a + 1))
      as (ws & H1 & H2 & H3 & H4 & H5).
    cbv zeta in *.
    exists ((a, Z.land (atoi t mod 65536) 32767) :: ws).
    split; [etransitivity; [exact H1 | now rewrite <- app_assoc]|].
    split; [etransitivity; [exact H2 | cbn [List.length]; lia]|].
    cbn [List.length consecutive fst]. repeat split; try lia; auto.
    constructor; [cbn; apply land32767_range | exact H5].
Qed.

Lemma write_data_shape (data : option string) (addr : Z) :
  consecutive addr (fst (write_data data addr))
  /\ words15 (fst (write_data data addr))
  /\ snd (write_data data addr)
     = addr + Z.of_nat (List.length (fst (write_data data addr)))
  /\ Z.of_nat (List.length (fst (write_data data addr)))
     = count_data_values (match data with Some d => d | None => EmptyString end).
Proof.
  destruct data as [d|]; cbn [write_data].
  - destruct (write_data_fold (strtok_all "," d) [] addr)
      as (ws & H1 & H2 & H3 & H4 & H5).
    cbv zeta in *. cbn [app] in H1.
    unfold count_data_values. rewrite <- H3.
    replace (fst (fold_left _ (strtok_all "," d) ([], addr))) with ws by (symmetry; exact H1).
    repeat split; auto.
  - cbn. repeat split; try lia. constructor.
Qed.

(** [write_data] writes one line per value that [count_data_values] counts
    for the same operand text (none for a null pointer), at consecutive
    addresses from the one it is given, each word within 15 bits, and steps
    the address by the number of lines written. *)
Theorem write_data_words (data : option string) (addr : Z) :
  consecutive addr (fst (write_data data addr))
  /\ words15 (fst (write_data data addr))
  /\ snd (write_data data addr)
     = addr + Z.of_nat (List.length (fst (write_data data addr)))
  /\ Z.of_nat (List.length (fst (write_data data addr)))
     = count_data_values (match data with Some d => d | None => EmptyString end).
Proof. apply write_data_shape. Qed.

Lemma code_range (c : ascii) : 0 <= Z.of_N (code c) < 32768.
Proof. unfold code. pose proof (N_ascii_bounded c). lia. Qed.

Lemma write_string_chars_shape (s : string) : forall addr,
  consecutive addr (fst (write_string_chars s addr))
  /\ words15 (fst (write_string_chars s addr))
  /\ snd (write_string_chars s addr)
     = addr + Z.of_nat (List.length (fst (write_string_chars s addr))).
Proof.
  unfold words15.
  induction s as [|c r IH]; intros addr; cbn [write_string_chars].
  - cbn. repeat split; try lia. repeat constructor; cbn; lia.
  - destruct (Ascii.eqb c DQUOTE).
    + cbn. repeat split; try lia. repeat constructor; cbn; lia.
    + destruct (IH (addr + 1)) as (C & W & A).
      destruct (write_string_chars r (addr + 1)) as [out a].
      cbn [fst snd] in *. cbn [consecutive List.length fst].
      repeat split; auto; [|lia].
      constructor; [cbn; apply code_range | exact W].
Qed.

Lemma write_string_chars_quoted (inner rest : string) : forall addr,
  string_forallb (fun c => negb (Ascii.eqb c DQUOTE)) inner = true ->
  map snd (fst (write_string_chars (inner ++ String DQUOTE rest) addr))
  = map (fun c => Z.of_N (code c)) (list_ascii_of_string inner) ++ [0].
Proof.
  induction inner as [|c r IH]; intros addr H; cbn [append write_string_chars].
  - change (Ascii.eqb DQUOTE DQUOTE) with true. reflexivity.
  - cbn [string_forallb] in H. apply andb_prop in H as [Hc Hr].
    apply negb_true_iff in Hc. rewrite Hc.
    specialize (IH (addr + 1) Hr).
    destruct (write_string_chars (r ++ String DQUOTE rest) (addr + 1)) as [out a].
    cbn [fst snd map list_ascii_of_string app] in *. now rewrite IH.
Qed.

Lemma remove_last_app (r : string) (c : ascii) :
  last_char r = Some c -> r = (remove_last r ++ String c EmptyString)%string.
Proof.
  induction r as [|x r IH]; [discriminate|].
  cbn [last_char remove_last]. destruct r as [|y r'].
  - intros H. now injection H as ->.
  - intros H. cbn [append]. now rewrite <- (IH H).
Qed.

Lemma remove_last_length (r : string) (c : ascii) :
  last_char r = Some c -> String.length r = S (String.length (remove_last r)).
Proof.
  intros H. rewrite (remove_last_app r c H) at 1.
  rewrite string_length_app. cbn. lia.
Qed.

Lemma list_ascii_length (s : string) :
  List.length (list_ascii_of_string s) = String.length s.
Proof. induction s as [|c r IH]; cbn; [reflexivity | now rewrite IH]. Qed.

(** The text between the quotes of a validated string literal. *)
Lemma validate_string_parts (s : string) :
  validate_string s = true ->
  exists inner,
    s = String DQUOTE (inner ++ String DQUOTE EmptyString) /\
    string_forallb (fun c => negb (Ascii.eqb c DQUOTE)) inner = true.
Proof.
  unfold validate_string. destruct s as [|c0 r]; [discriminate|].
  destruct r as [|c1 r']; [discriminate|].
  set (r := String c1 r'). intros H.
  apply andb_prop in H as [H H3]. apply andb_prop in H as [H1 H2].
  apply Ascii.eqb_eq in H1. subst c0.
  destruct (last_char r) as [c|] eqn:L; [|discriminate].
  apply Ascii.eqb_eq in H2. subst c.
  exists (remove_last r). split; [|exact H3].
  now rewrite <- (remove_last_app r DQUOTE L).
Qed.

(** For an operand that [validate_string] accepts, [write_string] writes
    the character codes of the text between the quotes followed by a zero
    word, at consecutive addresses, and the number of lines is the amount
    [strlen(operands) - 2 + 1] by which the first pass moved DC. *)
Theorem write_string_words (operands : string) (addr : Z) :
  validate_string operands = true ->
  exists inner,
    operands = String DQUOTE (inner ++ String DQUOTE EmptyString)
    /\ map snd (fst (write_string operands addr))
       = map (fun c => Z.of_N (code c)) (list_ascii_of_string inner) ++ [0]
    /\ consecutive addr (fst (write_string operands addr))
    /\ words15 (fst (write_string operands addr))
    /\ Z.of_nat (List.length (fst (write_string operands addr)))
       = strlen operands - 2 + 1
    /\ snd (write_string operands addr) = addr + (strlen operands - 2 + 1).
Proof.
  intros V. destruct (validate_string_parts operands V) as (inner & E & Hin).
  exists inner. split; [exact E|].
  pose proof (write_string_chars_quoted inner EmptyString addr Hin) as M.
  destruct (write_string_chars_shape (inner ++ String DQUOTE EmptyString) addr)
    as (C & W & A).
  assert (L : Z.of_nat (List.length
                (fst (write_string_chars (inner ++ String DQUOTE EmptyString) addr)))
              = strlen operands - 2 + 1).
  { pose proof (length_map snd
        (fst (write_string_chars (inner ++ String DQUOTE EmptyString) addr))) as Hm.
    rewrite M, length_app, length_map, list_ascii_length in Hm.
    transitivity (Z.of_nat (String.length inner + 1));
      [f_equal; symmetry; exact Hm|].
    subst operands. unfold strlen. cbn [String.length List.length].
    rewrite string_length_app. cbn [String.length]. lia. }
  subst operands. unfold write_string.
  split; [exact M|]. split; [exact C|]. split; [exact W|]. split; [exact L|].
  rewrite A. lia.
Qed.

Lemma write_string_words_witness :
  validate_string hi_literal = true
  /\ exists inner,
       hi_literal = String DQUOTE (inner ++ String DQUOTE EmptyString)
       /\ map snd (fst (write_string hi_literal 103))
          = map (fun c => Z.of_N (code c)) (list_ascii_of_string inner) ++ [0]
       /\ consecutive 103 (fst (write_string hi_literal 103))
       /\ words15 (fst (write_string hi_literal 103))
       /\ Z.of_nat (List.length (fst (write_string hi_literal 103)))
          = strlen hi_literal - 2 + 1
       /\ snd (write_string hi_literal 103) = 103 + (strlen hi_literal - 2 + 1).
Proof.
  split; [reflexivity|].
  exact (write_string_words hi_literal 103 eq_refl).
Defined.

(** ** When encoding fails *)

Lemma to_uint_small (v : Z) : 0 <= v < 4294967295 -> to_uint v <> to_uint (-1).
Proof.
  intros H. unfold to_uint, UINT_MOD. rewrite Z.mod_small by lia.
  change ((-1) mod 4294967296) with 4294967295. lia.
Qed.

Lemma find_symbol_in (table : SymbolTable) (n : string) (s : Symbol) :
  find_symbol table n = Some s -> In s (symbols table).
Proof. unfold find_symbol. intros H. now apply find_some in H. Qed.

Lemma encode_operand_result (operand : string) (table : SymbolTable)
  (are0 addr : Z) (is_source : bool) :
  addresses_in_range table ->
  get_addressing_mode (Some operand) <> 4 ->
  let r := encode_operand operand table are0 addr is_source in
  symbols (snd r) = symbols table
  /\ ((to_uint (fst (fst r)) =? to_uint (-1)) = unresolved table operand).
Proof.
  intros Hr Hm. cbv zeta. unfold encode_operand, unresolved.
  pose proof (mode_range (Some operand)) as R.
  destruct (get_addressing_mode (Some operand) =? 0) eqn:M0.
  { apply Z.eqb_eq in M0. rewrite M0. cbn [fst snd Z.eqb andb].
    split; [reflexivity|]. apply Z.eqb_neq, to_uint_small.
    pose proof (land4095_range (atoi match operand with
                                     | String _ r => r
                                     | EmptyString => EmptyString end)). lia. }
  destruct (get_addressing_mode (Some operand) =? 1) eqn:M1.
  { cbn [andb].
    destruct (find_symbol table operand) as [s|] eqn:F.
    - assert (Hs : 0 <= address s < 4294967295).
      { unfold addresses_in_range in Hr. rewrite Forall_forall in Hr.
        apply Hr. eapply find_symbol_in; eauto. }
      destruct (type s); cbn [fst snd with_external_table symbols];
        (split; [reflexivity|]); apply Z.eqb_neq, to_uint_small; lia.
    - cbn [fst snd]. split; [reflexivity | apply Z.eqb_refl]. }
  cbn [andb].
  destruct (get_addressing_mode (Some operand) =? 2) eqn:M2.
  { cbn [fst snd]. split; [reflexivity|]. apply Z.eqb_neq, to_uint_small.
    pose proof (land7_range (get_register_number match operand with
                                                 | String _ r => r
                                                 | EmptyString => EmptyString end)).
    lia. }
  destruct (get_addressing_mode (Some operand) =? 3) eqn:M3.
  { cbn [fst snd]. split; [reflexivity|]. apply Z.eqb_neq, to_uint_small.
    pose proof (land7_range (get_register_number operand)). lia. }
  apply Z.eqb_neq in M0, M1, M2, M3. lia.
Qed.

Lemma unresolved_same_symbols (t t' : SymbolTable) (o : string) :
  symbols t' = symbols t -> unresolved t' o = unresolved t o.
Proof. unfold unresolved, find_symbol. now intros ->. Qed.

(** With operand text that fits the operand buffers and every symbol
    address in the range of a non-negative [int], the instruction record
    carries the failure marker exactly when the word is
    no mnemonic or one of the operands, as the encoder places them (a lone
    operand is the target), is a direct operand whose name is not in the
    symbol table; encoding changes no symbol. *)
Theorem encode_instruction_failure
  (operation : string) (operands : option string) (table : SymbolTable) (addr : Z) :
  buffers_fit operands = true ->
  addresses_in_range table ->
  let st := operand_buffers operands in
  let st' := if is_empty (snd st) then (EmptyString, fst st) else st in
  let r := encode_instruction operation operands table addr in
  symbols (snd r) = symbols table
  /\ ((opcode (fst r) =? to_uint (-1))
      = ((get_opcode operation =? -1) || unresolved table (fst st')
         || unresolved table (snd st'))%bool).
Proof.
  intros _ Hr. cbv zeta. unfold encode_instruction, operand_buffers.
  destruct (match operands with Some ops => split_operands ops | None => _ end)
    as [s0 t0].
  cbn [fst snd].
  set (p := if is_empty t0 then (EmptyString, s0) else (s0, t0)).
  destruct p as [s t]. cbn [fst snd].
  assert (Hop : (to_uint (get_opcode operation) =? to_uint (-1))
                = (get_opcode operation =? -1)).
  { destruct (get_opcode_range operation) as [->|R]; [reflexivity|].
    transitivity false; [apply Z.eqb_neq, to_uint_small; lia|].
    symmetry. apply Z.eqb_neq. lia. }
  assert (Habs : forall o, get_addressing_mode (Some o) = 4 -> unresolved table o = false).
  { intros o H. unfold unresolved. now rewrite H. }
  assert (Hz : (0 =? to_uint (-1)) = false) by reflexivity.
  assert (Hu : (to_uint (-1) =? to_uint (-1)) = true) by reflexivity.
  destruct (get_addressing_mode (Some s) =? 4) eqn:Ms; cbn [negb].
  - apply Z.eqb_eq in Ms. rewrite (Habs s Ms).
    destruct (get_addressing_mode (Some t) =? 4) eqn:Mt; cbn [negb].
    + apply Z.eqb_eq in Mt. rewrite (Habs t Mt). cbn [fst snd opcode].
      split; [reflexivity|]. rewrite Hz. cbn [orb]. now rewrite !orb_false_r.
    + apply Z.eqb_neq in Mt.
      destruct (encode_operand_result t table 4 addr false Hr Mt) as [Hsym Hv].
      destruct (encode_operand t table 4 addr false) as [[v a] tb].
      cbn [fst snd opcode] in *. split; [exact Hsym|].
      rewrite Hz, Hv, !orb_false_r.
      destruct (unresolved table t); cbn [orb];
        [now rewrite Hu, orb_true_r | now rewrite orb_false_r].
  - apply Z.eqb_neq in Ms.
    destruct (encode_operand_result s table 4 addr true Hr Ms) as [Hsym Hv].
    destruct (encode_operand s table 4 addr true) as [[v a] tb].
    cbn [fst snd] in Hsym, Hv.
    assert (Hr' : addresses_in_range tb)
      by (unfold addresses_in_range in *; now rewrite Hsym).
    destruct (get_addressing_mode (Some t) =? 4) eqn:Mt; cbn [negb].
    + apply Z.eqb_eq in Mt. rewrite (Habs t Mt). cbn [fst snd opcode].
      split; [exact Hsym|].
      rewrite Hz, Hv. cbn [orb]. rewrite !orb_false_r.
      destruct (unresolved table s); cbn [orb];
        [now rewrite Hu, orb_true_r | now rewrite orb_false_r].
    + apply Z.eqb_neq in Mt.
      destruct (encode_operand_result t tb 4 addr false Hr' Mt) as [Hsym' Hv'].
      destruct (encode_operand t tb 4 addr false) as [[v' a'] tb'].
      cbn [fst snd opcode] in *. split; [congruence|].
      rewrite Hv, Hv', (unresolved_same_symbols table tb t Hsym).
      destruct (unresolved table s), (unresolved table t); cbn [orb];
        rewrite ?Hu, ?orb_true_r, ?orb_false_r; try reflexivity; exact Hop.
Qed.

Lemma encode_instruction_failure_witness :
  buffers_fit (Some "NOWHERE"%string) = true
  /\ buffers_fit (Some "LOOP"%string) = true
  /\ addresses_in_range one_symbol_table
  /\ (opcode (fst (encode_instruction "jmp" (Some "NOWHERE"%string) one_symbol_table 100))
      =? to_uint (-1)) = true
  /\ (opcode (fst (encode_instruction "jmp" (Some "LOOP"%string) one_symbol_table 100))
      =? to_uint (-1)) = false.
Proof.
  assert (H : addresses_in_range one_symbol_table)
    by (repeat constructor; cbn; lia).
  split; [reflexivity|]. split; [reflexivity|].
  split; [exact H|]. split.
  - exact (proj2 (encode_instruction_failure "jmp" (Some "NOWHERE"%string)
                    one_symbol_table 100 eq_refl H)).
  - exact (proj2 (encode_instruction_failure "jmp" (Some "LOOP"%string)
                    one_symbol_table 100 eq_refl H)).
Defined.

(** ** What the second pass does to the symbol table *)

Lemma promoted_refl (a : Symbol) : promoted a a.
Proof. unfold promoted. auto. Qed.

Lemma promoted_list_refl (l : list Symbol) : Forall2 promoted l l.
Proof. induction l; constructor; auto using promoted_refl. Qed.

Lemma promoted_trans (a b c : Symbol) : promoted a b -> promoted b c -> promoted a c.
Proof.
  unfold promoted. intros (N1 & A1 & T1) (N2 & A2 & T2).
  split; [congruence|]. split; [congruence|].
  destruct T1 as [T1|[T1 X1]], T2 as [T2|[T2 X2]].
  - left. congruence.
  - right. split; [exact T2 | congruence].
  - right. split; [congruence | exact X1].
  - right. split; [exact T2 | exact X1].
Qed.

Lemma promoted_list_trans (l1 : list Symbol) : forall l2 l3,
  Forall2 promoted l1 l2 -> Forall2 promoted l2 l3 -> Forall2 promoted l1 l3.
Proof.
  induction l1 as [|a l1 IH]; intros l2 l3 H1 H2.
  - inversion H1; subst. inversion H2; subst. constructor.
  - inversion H1; subst. inversion H2; subst. constructor.
    + eapply promoted_trans; eauto.
    + eapply IH; eauto.
Qed.

Lemma table_promoted_refl (t : SymbolTable) : table_promoted t t.
Proof. unfold table_promoted. auto using promoted_list_refl. Qed.

Lemma table_promoted_trans (a b c : SymbolTable) :
  table_promoted a b -> table_promoted b c -> table_promoted a c.
Proof.
  unfold table_promoted. intros (S1 & X1 & E1) (S2 & X2 & E2).
  split; [eapply promoted_list_trans; eauto|]. split; [congruence | auto].
Qed.

Lemma set_entry_promoted (n : string) (syms : list Symbol) (sym : Symbol) :
  find (fun s => streq (name s) n) syms = Some sym ->
  type sym <> SYMBOL_TYPE_EXTERNAL ->
  Forall2 promoted syms (set_entry n syms).
Proof.
  induction syms as [|s rest IH]; cbn [find set_entry]; [discriminate|].
  destruct (streq (name s) n).
  - intros H Hx. injection H as ->. constructor; [|apply promoted_list_refl].
    unfold promoted. cbn. auto.
  - intros H Hx. constructor; [apply promoted_refl | auto].
Qed.

Lemma encode_operand_table (operand : string) (table : SymbolTable)
  (are0 addr : Z) (is_source : bool) :
  let t := snd (encode_operand operand table are0 addr is_source) in
  symbols t = symbols table /\ has_entries t = has_entries table /\
  has_externs t = has_externs table.
Proof.
  cbv zeta. unfold encode_operand.
  repeat match goal with
         | |- context [if ?b then _ else _] => destruct b
         | |- context [match find_symbol ?t ?o with _ => _ end] =>
             destruct (find_symbol t o)
         | |- context [match type ?s with _ => _ end] => destruct (type s)
         end; cbn; auto.
Qed.

Lemma encode_instruction_table operation operands table addr :
  let t := snd (encode_instruction operation operands table addr) in
  symbols t = symbols table /\ has_entries t = has_entries table /\
  has_externs t = has_externs table.
Proof.
  cbv zeta. unfold encode_instruction.
  destruct (match operands with Some ops => split_operands ops | None => _ end)
    as [s0 t0].
  set (p := if is_empty t0 then (EmptyString, s0) else (s0, t0)).
  destruct p as [s t].
  destruct (negb (get_addressing_mode (Some s) =? 4)).
  - pose proof (encode_operand_table s table 4 addr true) as H1.
    destruct (encode_operand s table 4 addr true) as [[v a] tb].
    cbn [snd] in H1. cbv zeta in H1.
    destruct (negb (get_addressing_mode (Some t) =? 4)).
    + pose proof (encode_operand_table t tb 4 addr false) as H2.
      destruct (encode_operand t tb 4 addr false) as [[v' a'] tb'].
      cbn [snd] in *. cbv zeta in H2. intuition congruence.
    + cbn [snd]. exact H1.
  - destruct (negb (get_addressing_mode (Some t) =? 4)).
    + pose proof (encode_operand_table t table 4 addr false) as H2.
      destruct (encode_operand t table 4 addr false) as [[v' a'] tb'].
      cbn [snd] in *. exact H2.
    + cbn [snd]. auto.
Qed.

Lemma table_promoted_same (t t' : SymbolTable) :
  symbols t' = symbols t -> has_entries t' = has_entries t ->
  has_externs t' = has_externs t -> table_promoted t t'.
Proof.
  intros H1 H2 H3. unfold table_promoted. rewrite H1, H2, H3.
  auto using promoted_list_refl.
Qed.

Lemma second_pass_entry_promoted file line symbol_name st :
  table_promoted (sp_table st) (sp_table (second_pass_entry file line symbol_name st)).
Proof.
  unfold second_pass_entry.
  destruct symbol_name as [n|]; [|apply table_promoted_refl].
  destruct (find_symbol (sp_table st) n) as [sym|] eqn:F; [|apply table_promoted_refl].
  destruct (SymbolType_eqb (type sym) SYMBOL_TYPE_EXTERNAL) eqn:T; cbn [negb];
    [apply table_promoted_refl|].
  unfold table_promoted. cbn. split; [|auto].
  eapply set_entry_promoted; [exact F|].
  intros E. rewrite E in T. discriminate.
Qed.

Lemma second_pass_instruction_promoted file line token operands st :
  table_promoted (sp_table st)
    (sp_table (second_pass_instruction file line token operands st)).
Proof.
  unfold second_pass_instruction.
  pose proof (encode_instruction_table token operands (sp_table st) (sp_address st)) as H.
  destruct (encode_instruction token operands (sp_table st) (sp_address st))
    as [inst table].
  cbn [snd] in H. cbv zeta in H. destruct H as (H1 & H2 & H3).
  destruct (opcode inst =? to_uint (-1)); cbn; now apply table_promoted_same.
Qed.

Lemma second_pass_line_promoted file line_number raw st st' :
  second_pass_line file line_number raw st = Some st' ->
  table_promoted (sp_table st) (sp_table st').
Proof.
  unfold second_pass_line.
  destruct (is_empty _).
  { intros H. injection H as <-. apply table_promoted_refl. }
  destruct (second_pass_token _) as [[token rest]|]; [|discriminate].
  destruct (streq token ".data" || streq token ".string")%bool.
  { destruct (streq token ".data").
    - destruct (write_data _ _) as [ws a]. intros H. injection H as <-.
      apply table_promoted_refl.
    - destruct (option_map fst (strtok NLs rest)) as [ops|]; [|discriminate].
      destruct (write_string _ _) as [ws a]. intros H. injection H as <-.
      apply table_promoted_refl. }
  destruct (streq token ".entry").
  { intros H. injection H as <-. apply second_pass_entry_promoted. }
  destruct (negb _); intros H; injection H as <-.
  - apply second_pass_instruction_promoted.
  - apply table_promoted_refl.
Qed.

Lemma second_pass_loop_promoted file lines : forall line_number st st',
  second_pass_loop file line_number lines st = Some st' ->
  table_promoted (sp_table st) (sp_table st').
Proof.
  induction lines as [|raw rest IH]; intros line_number st st'; cbn [second_pass_loop].
  - intros H. injection H as <-. apply table_promoted_refl.
  - destruct (second_pass_line file (line_number + 1) raw st) as [st1|] eqn:E;
      [|discriminate].
    intros H. eapply table_promoted_trans.
    + eapply second_pass_line_promoted; eauto.
    + eapply IH; eauto.
Qed.

(** The second pass never adds, removes, renames or moves a symbol: the
    table it leaves has the same symbols in the same order with the same
    addresses; a kind either stays or becomes Entry, and an External symbol
    is never promoted.  [has_externs] is untouched and [has_entries] is
    never cleared. *)
Theorem second_pass_symbols
  (file expanded : string) (table : SymbolTable) (IC DC : Z) (log : ErrorLog)
  (r : SecondResult) :
  second_pass file expanded table IC DC log = Some r ->
  Forall2 (fun a b =>
             name b = name a /\ address b = address a /\
             (type b = type a \/ type b = SYMBOL_TYPE_ENTRY) /\
             (type a = SYMBOL_TYPE_EXTERNAL -> type b = SYMBOL_TYPE_EXTERNAL))
          (symbols table) (symbols (sr_table r))
  /\ has_externs (sr_table r) = has_externs table
  /\ (has_entries table = true -> has_entries (sr_table r) = true).
Proof.
  unfold second_pass.
  destruct (second_pass_loop _ _ _ _) as [st|] eqn:E; [|discriminate].
  intros H. injection H as <-. cbn [sr_table].
  apply second_pass_loop_promoted in E. cbn [sp_table] in E.
  destruct E as (S & X & N). split; [|auto].
  eapply Forall2_impl; [|exact S].
  intros a b (Hn & Ha & Ht). repeat split; auto.
  - destruct Ht as [Ht|[Ht _]]; auto.
  - intros Hx. destruct Ht as [Ht|[_ Ht]]; congruence.
Qed.

Lemma second_pass_symbols_witness :
  exists r,
    second_pass "loop.am" entry_promotion_source loop_table 103 0 [] = Some r
    /\ map type (symbols (sr_table r)) = [SYMBOL_TYPE_ENTRY]
    /\ has_externs (sr_table r) = false.
Proof.
  destruct (second_pass "loop.am" entry_promotion_source loop_table 103 0 [])
    as [r|] eqn:E; [|vm_compute in E; discriminate E].
  exists r. split; [reflexivity|].
  pose proof (second_pass_symbols _ _ _ _ _ _ r E) as (_ & X & _).
  split; [|exact X].
  vm_compute in E. injection E as <-. reflexivity.
Defined.

(** ** The symbols the first pass enters *)

Section FirstPassSymbols.

Variable macros : list string.
Variable file : string.

Lemma is_label_short (label : string) :
  is_label label = true -> strncpy MAX_LABEL_LENGTH label = label.
Proof.
  intros H. apply strncpy_short. unfold is_label in H.
  destruct label as [|c r]; [discriminate|].
  destruct (Z.of_nat MAX_LABEL_LENGTH <? strlen (String c r)) eqn:L; [discriminate|].
  apply Z.ltb_ge in L. unfold strlen in L. lia.
Qed.

Lemma first_pass_tokens_label line label operation operands :
  first_pass_tokens line = Statement label operation operands ->
  label = EmptyString \/ is_label label = true.
Proof.
  unfold first_pass_tokens, operation_and_operands.
  destruct (strtok SP_TAB_NL line) as [[tok rest]|].
  - destruct (ends_with_colon tok).
    + destruct (is_label (strncpy MAX_LABEL_LENGTH (remove_last tok))) eqn:L;
        cbn [negb]; [|discriminate].
      destruct (strtok SP_TAB rest) as [[t r]|]; intros H; injection H as <- _ _;
        now right.
    + intros H. injection H as <- _ _. now left.
  - intros H. injection H as <- _ _. now left.
Qed.

Lemma fp_add_label_legal line label addr ty st :
  label = EmptyString \/ is_label label = true ->
  ty = SYMBOL_TYPE_CODE \/ ty = SYMBOL_TYPE_DATA ->
  Forall symbol_legal (symbols (fp_table st)) ->
  Forall symbol_legal
    (symbols (fp_table (fp_add_label macros file line label addr ty st))).
Proof.
  intros [->|Hl] Hty H; [exact H|].
  destruct (fp_add_label_cases macros file line label addr ty st)
    as (_ & _ & _ & [-> | ->]); [exact H|].
  apply Forall_app. split; [exact H|]. constructor; [|constructor].
  unfold symbol_legal. cbn [type name]. rewrite (is_label_short label Hl).
  destruct Hty as [-> | ->]; exact Hl.
Qed.

Lemma fp_externs_legal line tokens : forall st,
  Forall symbol_legal (symbols (fp_table st)) ->
  Forall symbol_legal
    (symbols (fp_table (fold_left (fp_extern_symbol macros file line) tokens st))).
Proof.
  induction tokens as [|t tokens IH]; intros st H; cbn [fold_left]; [exact H|].
  apply IH.
  destruct (fp_extern_symbol_cases macros file line st t) as (_ & _ & _ & [-> | ->]);
    [exact H|].
  apply Forall_app. split; [exact H|]. constructor; [reflexivity | constructor].
Qed.

Lemma first_pass_statement_legal line label operation operands st :
  label = EmptyString \/ is_label label = true ->
  Forall symbol_legal (symbols (fp_table st)) ->
  Forall symbol_legal
    (symbols (fp_table (first_pass_statement macros file line label operation operands st))).
Proof.
  intros Hl H. unfold first_pass_statement.
  assert (D : Forall symbol_legal
                (symbols (fp_table (fp_add_label macros file line label (fp_DC st)
                                      SYMBOL_TYPE_DATA st))))
    by (apply fp_add_label_legal; auto).
  assert (C : Forall symbol_legal
                (symbols (fp_table (fp_add_label macros file line label (fp_IC st)
                                      SYMBOL_TYPE_CODE st))))
    by (apply fp_add_label_legal; auto).
  repeat match goal with
         | |- context [if ?b then _ else _] => destruct b
         end; cbn [fp_error fp_set_counters fp_set_flags fp_table symbols];
    auto using fp_externs_legal.
Qed.

Lemma first_pass_line_legal line_number raw st :
  Forall symbol_legal (symbols (fp_table st)) ->
  Forall symbol_legal (symbols (fp_table (first_pass_line macros file line_number raw st))).
Proof.
  intros H. unfold first_pass_line.
  destruct (is_empty _); [exact H|].
  destruct (_ <? _); [exact H|].
  destruct (first_pass_tokens _) as [|label operation operands] eqn:T; [exact H|].
  apply first_pass_statement_legal; [|exact H].
  eapply first_pass_tokens_label; eauto.
Qed.

Lemma first_pass_loop_legal lines : forall line_number st,
  Forall symbol_legal (symbols (fp_table st)) ->
  Forall symbol_legal (symbols (fp_table (first_pass_loop macros file line_number lines st))).
Proof.
  induction lines as [|raw rest IH]; intros line_number st H; cbn [first_pass_loop];
    [exact H|].
  apply IH. now apply first_pass_line_legal.
Qed.

End FirstPassSymbols.

(** After the first pass on an empty table, every Code or Data symbol is
    named by a legal label (not empty, at most 31 characters, a letter
    followed by letters and digits, no register and no mnemonic), every
    External symbol has the address 0, and no symbol is of kind Entry. *)
Theorem first_pass_symbols_legal
  (macros : list string) (file expanded : string) (log : ErrorLog) :
  Forall (fun s =>
            match type s with
            | SYMBOL_TYPE_CODE | SYMBOL_TYPE_DATA => is_label (name s) = true
            | SYMBOL_TYPE_EXTERNAL => address s = 0
            | SYMBOL_TYPE_ENTRY => False
            end)
         (symbols (fr_table (first_pass macros file expanded init_symbol_table log))).
Proof.
  unfold first_pass. cbn [fr_table rebase_data symbols].
  apply Forall_map.
  eapply Forall_impl;
    [|apply (first_pass_loop_legal macros file (read_lines expanded) 0); constructor].
  intros s Hs. unfold symbol_legal, rebase_symbol in *.
  destruct (type s) eqn:T; cbn [type name address]; rewrite ?T; exact Hs.
Qed.

(** ** The error log over a whole run *)

Lemma log_extends_refl (log : ErrorLog) : log_extends log log.
Proof. split; [exists []; now rewrite app_nil_r | lia]. Qed.

Lemma log_extends_trans (a b c : ErrorLog) :
  log_extends a b -> log_extends b c -> log_extends a c.
Proof.
  intros [(e1 & ->) L1] [(e2 & ->) L2]. split.
  - exists (e1 ++ e2). now rewrite app_assoc.
  - lia.
Qed.

Lemma log_error_extends c msg file line (log : ErrorLog) :
  log_extends log (log_error c msg file line log).
Proof.
  unfold log_error. destruct (List.length log <? MAX_ERRORS)%nat eqn:E.
  - apply Nat.ltb_lt in E. split; [eauto|]. rewrite length_app. cbn [List.length]. lia.
  - apply log_extends_refl.
Qed.

Lemma log_error_extends_from c msg file line (log0 log : ErrorLog) :
  log_extends log0 log -> log_extends log0 (log_error c msg file line log).
Proof. intros H. eapply log_extends_trans; [exact H | apply log_error_extends]. Qed.

Section LogOfPasses.

Variable macros : list string.
Variable file : string.

Lemma fp_add_symbol_log line n addr ty st :
  log_extends (fp_log st) (fp_log (snd (fp_add_symbol macros file line n addr ty st))).
Proof.
  unfold fp_add_symbol, add_symbol.
  destruct (existsb _ (symbols (fp_table st))); cbn; [apply log_error_extends|].
  destruct (existsb _ macros); cbn; [apply log_error_extends | apply log_extends_refl].
Qed.

Lemma fp_add_label_log line label addr ty st :
  log_extends (fp_log st) (fp_log (fp_add_label macros file line label addr ty st)).
Proof.
  unfold fp_add_label. destruct (negb (is_empty label));
    [apply fp_add_symbol_log | apply log_extends_refl].
Qed.

Lemma fp_extern_symbol_log line st token :
  log_extends (fp_log st) (fp_log (fp_extern_symbol macros file line st token)).
Proof.
  unfold fp_extern_symbol.
  pose proof (fp_add_symbol_log line token 0 SYMBOL_TYPE_EXTERNAL st) as H.
  destruct (fp_add_symbol macros file line token 0 SYMBOL_TYPE_EXTERNAL st) as [ok st1].
  cbn [snd] in H. destruct ok; [exact H|].
  cbn. now apply log_error_extends_from.
Qed.

Lemma fp_externs_log line tokens : forall st,
  log_extends (fp_log st)
    (fp_log (fold_left (fp_extern_symbol macros file line) tokens st)).
Proof.
  induction tokens as [|t tokens IH]; intros st; cbn [fold_left];
    [apply log_extends_refl|].
  eapply log_extends_trans; [apply fp_extern_symbol_log | apply IH].
Qed.

Lemma first_pass_statement_log line label operation operands st :
  log_extends (fp_log st)
    (fp_log (first_pass_statement macros file line label operation operands st)).
Proof.
  unfold first_pass_statement.
  pose proof (fp_add_label_log line label (fp_DC st) SYMBOL_TYPE_DATA st) as D.
  pose proof (fp_add_label_log line label (fp_IC st) SYMBOL_TYPE_CODE st) as C.
  pose proof (fp_externs_log line (strtok_all COMMA_SP_TAB (trim operands)) st) as X.
  repeat match goal with
         | |- context [if ?b then _ else _] => destruct b
         end; cbn [fp_error fp_set_counters fp_set_flags fp_log];
    auto using log_extends_refl, log_error_extends, log_error_extends_from.
Qed.

Lemma first_pass_line_log line_number raw st :
  log_extends (fp_log st) (fp_log (first_pass_line macros file line_number raw st)).
Proof.
  unfold first_pass_line.
  destruct (is_empty _); [apply log_extends_refl|].
  destruct (_ <? _); [apply log_error_extends|].
  destruct (first_pass_tokens _); [apply log_error_extends|].
  apply first_pass_statement_log.
Qed.

Lemma first_pass_loop_log lines : forall line_number st,
  log_extends (fp_log st) (fp_log (first_pass_loop macros file line_number lines st)).
Proof.
  induction lines as [|raw rest IH]; intros line_number st; cbn [first_pass_loop];
    [apply log_extends_refl|].
  eapply log_extends_trans; [apply first_pass_line_log | apply IH].
Qed.

Lemma second_pass_line_log line_number raw st st' :
  second_pass_line file line_number raw st = Some st' ->
  log_extends (sp_log st) (sp_log st').
Proof.
  unfold second_pass_line.
  destruct (is_empty _).
  { intros H. injection H as <-. apply log_extends_refl. }
  destruct (second_pass_token _) as [[token rest]|]; [|discriminate].
  destruct (streq token ".data" || streq token ".string")%bool.
  { destruct (streq token ".data").
    - destruct (write_data _ _) as [ws a]. intros H. injection H as <-.
      apply log_extends_refl.
    - destruct (option_map fst (strtok NLs rest)) as [ops|]; [|discriminate].
      destruct (write_string _ _) as [ws a]. intros H. injection H as <-.
      apply log_extends_refl. }
  destruct (streq token ".entry").
  { intros H. injection H as <-. unfold second_pass_entry.
    repeat match goal with
           | |- context [match ?x with _ => _ end] => destruct x
           end; cbn; auto using log_extends_refl, log_error_extends. }
  destruct (negb _); intros H; injection H as <-; [|apply log_extends_refl].
  unfold second_pass_instruction.
  destruct (encode_instruction _ _ _ _) as [inst table].
  destruct (opcode inst =? to_uint (-1)); cbn;
    auto using log_extends_refl, log_error_extends.
Qed.

Lemma second_pass_loop_log lines : forall line_number st st',
  second_pass_loop file line_number lines st = Some st' ->
  log_extends (sp_log st) (sp_log st').
Proof.
  induction lines as [|raw rest IH]; intros line_number st st'; cbn [second_pass_loop].
  - intros H. injection H as <-. apply log_extends_refl.
  - destruct (second_pass_line file (line_number + 1) raw st) as [st1|] eqn:E;
      [|discriminate].
    intros H. eapply log_extends_trans.
    + eapply second_pass_line_log; eauto.
    + eapply IH; eauto.
Qed.

Lemma first_pass_log expanded table log :
  log_extends log (log_of (first_pass macros file expanded table log)).
Proof.
  unfold first_pass, log_of. cbn [fr_second fr_log].
  pose proof (first_pass_loop_log (read_lines expanded) 0
                {| fp_table := table; fp_IC := FIRST_ADDRESS; fp_DC := 0;
                   fp_error_found := false; fp_log := log |}) as H1.
  change (fp_log {| fp_table := table; fp_IC := FIRST_ADDRESS; fp_DC := 0;
                    fp_error_found := false; fp_log := log |}) with log in H1.
  destruct (negb _); [|exact H1].
  unfold second_pass.
  destruct (second_pass_loop _ _ _ _) as [st|] eqn:E; [|exact H1].
  cbn [sr_log]. apply second_pass_loop_log in E.
  match type of E with log_extends ?a _ => change a with
    (fp_log (first_pass_loop macros file 0 (read_lines expanded)
       {| fp_table := table; fp_IC := FIRST_ADDRESS; fp_DC := 0;
          fp_error_found := false; fp_log := log |})) in E end.
  eapply log_extends_trans; eauto.
Qed.

Lemma pre_assembler_loop_log (fuel : nat) : forall lines line_number st st',
  pre_assembler_loop fuel file lines line_number st = Some st' ->
  log_extends (pre_log st) (pre_log st').
Proof.
  induction fuel as [|fuel IH]; intros lines line_number st st'.
  - destruct lines; cbn; [|discriminate].
    intros H. injection H as <-. apply log_extends_refl.
  - destruct lines as [|l rest]; cbn [pre_assembler_loop].
    { intros H. injection H as <-. apply log_extends_refl. }
    destruct (_ <? _).
    { intros H. apply IH in H. cbn [pre_log] in H.
      eapply log_extends_trans; [apply log_error_extends | exact H]. }
    destruct (String.prefix "macr" (trim l)).
    + destruct (is_valid_macro_name _).
      * destruct (add_macro_lines rest) as [body remaining].
        intros H. apply IH in H. exact H.
      * intros H. apply IH in H. cbn [pre_log] in H.
        eapply log_extends_trans; [apply log_error_extends | exact H].
    + destruct (streq (trim l) "endmacr"); intros H; apply IH in H; exact H.
Qed.

End LogOfPasses.

(** Assembling a file only ever adds entries at the end of the error log:
    what was logged before stays in place, and the log does not grow past
    100 entries (or past its length, when it already held more). *)
Theorem assemble_log_grows (base source : string) (log : ErrorLog) :
  (exists extra, final_log (assemble base source log) = log ++ extra)
  /\ (List.length (final_log (assemble base source log))
      <= Nat.max 100 (List.length log))%nat.
Proof.
  change (log_extends log (final_log (assemble base source log))).
  unfold assemble.
  destruct (pre_assembler _ source log) as [pre|] eqn:P;
    [|apply log_extends_refl].
  unfold pre_assembler in P. apply pre_assembler_loop_log in P. cbn [pre_log] in P.
  destruct (pre_error pre); cbn [final_log].
  - now apply log_error_extends_from.
  - pose proof (first_pass_log (map macro_name (macro_table pre)) (base ++ ".am")
                  (am_output pre) init_symbol_table (pre_log pre)) as F.
    destruct (fr_ok _).
    + eapply log_extends_trans; eauto.
    + apply log_error_extends_from. eapply log_extends_trans; eauto.
Qed.

(** ** What the pre-assembler leaves behind *)

Lemma add_macro_lines_body (lines : list string) :
  Forall (fun l => endmacr_line l = false) (fst (add_macro_lines lines)).
Proof.
  induction lines as [|l rest IH]; cbn [add_macro_lines]; [constructor|].
  destruct (streq (trim l) "endmacr") eqn:E; [constructor|].
  destruct (add_macro_lines rest) as [body remaining]. cbn [fst] in *.
  constructor; [exact E | exact IH].
Qed.

Lemma pre_assembler_loop_invariant file (fuel : nat) : forall lines line_number st st',
  pre_assembler_loop fuel file lines line_number st = Some st' ->
  (pre_error st' = false -> pre_error st = false /\ pre_log st' = pre_log st)
  /\ (Forall macro_well_formed (macro_table st) ->
      Forall macro_well_formed (macro_table st')).
Proof.
  induction fuel as [|fuel IH]; intros lines line_number st st'.
  - destruct lines; cbn; [|discriminate]. intros H. injection H as <-. auto.
  - destruct lines as [|l rest]; cbn [pre_assembler_loop].
    { intros H. injection H as <-. auto. }
    destruct (_ <? _).
    { intros H. apply IH in H. cbn in H. destruct H as [Q W].
      split; [intros E; destruct (Q E); discriminate | exact W]. }
    destruct (String.prefix "macr" (trim l)).
    + destruct (is_valid_macro_name _) eqn:V.
      * pose proof (add_macro_lines_body rest) as B.
        destruct (add_macro_lines rest) as [body remaining]. cbn [fst] in B.
        intros H. apply IH in H. cbn in H. destruct H as [Q W].
        split; [exact Q|]. intros Hw. apply W.
        apply Forall_app. split; [exact Hw|].
        constructor; [split; [exact V | exact B] | constructor].
      * intros H. apply IH in H. cbn in H. destruct H as [Q W].
        split; [intros E; destruct (Q E); discriminate | exact W].
    + destruct (streq (trim l) "endmacr"); intros H; apply IH in H; cbn in H;
        exact H.
Qed.

(** The pre-assembler always comes to an end.  When it reports no error it
    has logged nothing; every macro it stored has a valid name (a letter
    followed by letters and digits, no mnemonic, no register, no reserved
    word) and a body that holds no [endmacr] line. *)
Theorem pre_assembler_result (file input : string) (log : ErrorLog) :
  exists st,
    pre_assembler file input log = Some st
    /\ (pre_error st = false -> pre_log st = log)
    /\ Forall (fun m =>
                 is_valid_macro_name (macro_name m) = true /\
                 get_opcode (macro_name m) = -1 /\
                 is_register (macro_name m) = false /\
                 Forall (fun l => streq (trim l) "endmacr" = false) (macro_lines m))
              (macro_table st).
Proof.
  destruct (pre_assembler_total file input log) as (st & E).
  exists st. split; [exact E|].
  unfold pre_assembler in E. apply pre_assembler_loop_invariant in E.
  cbn in E. destruct E as [Q W]. split.
  - intros H. now destruct (Q H).
  - eapply Forall_impl; [|apply W; constructor].
    intros m [V B]. split; [exact V|]. split; [|split; [|exact B]].
    + unfold is_valid_macro_name, is_reserved_word in V.
      destruct (macro_name m) as [|c r]; [discriminate|].
      destruct (negb (isalpha c)); [discriminate|].
      destruct (negb (string_forallb isalnum r)); [discriminate|].
      destruct (get_opcode (String c r) =? -1) eqn:O; [now apply Z.eqb_eq|].
      discriminate.
    + unfold is_valid_macro_name, is_reserved_word in V.
      destruct (macro_name m) as [|c r]; [reflexivity|].
      destruct (negb (isalpha c)); [discriminate|].
      destruct (negb (string_forallb isalnum r)); [discriminate|].
      destruct (negb (get_opcode (String c r) =? -1)); [discriminate|].
      destruct (is_register (String c r)); [discriminate | reflexivity].
Qed.

(** ** The normal form [handle_extra_spaces] produces *)

Lemma chain_rev_cons2 (b a : ascii) (o : list ascii) :
  chain_rev (b :: a :: o) = (pair_ok a b && chain_rev (a :: o))%bool.
Proof. reflexivity. Qed.

Lemma chain_snoc2 (l : list ascii) (a c : ascii) :
  chain (l ++ [a; c]) = (chain (l ++ [a]) && pair_ok a c)%bool.
Proof.
  induction l as [|x l IH].
  - cbn. now rewrite andb_true_r.
  - destruct l as [|y l'].
    + cbn. now rewrite !andb_true_r.
    + change (chain ((x :: y :: l') ++ [a; c]))
        with (pair_ok x y && chain ((y :: l') ++ [a; c]))%bool.
      change (chain ((x :: y :: l') ++ [a]))
        with (pair_ok x y && chain ((y :: l') ++ [a]))%bool.
      rewrite IH. now rewrite andb_assoc.
Qed.

Lemma chain_rev_spec (out : list ascii) : chain (rev out) = chain_rev out.
Proof.
  induction out as [|b out IH]; [reflexivity|].
  destruct out as [|a o]; [reflexivity|].
  cbn [rev]. rewrite <- app_assoc. cbn [app].
  rewrite chain_snoc2. cbn [rev] in IH. rewrite IH.
  rewrite chain_rev_cons2. apply andb_comm.
Qed.

Lemma hd_error_rev_cons (c : ascii) (out : list ascii) :
  out <> [] -> hd_error (rev (c :: out)) = hd_error (rev out).
Proof.
  intros H. cbn [rev]. destruct (rev out) as [|x l] eqn:E; [|reflexivity].
  exfalso. apply H. apply (f_equal (@rev ascii)) in E.
  now rewrite rev_involutive in E.
Qed.

Lemma isspace_comma : isspace "," = false.
Proof. reflexivity. Qed.

Lemma pair_ok_plain (a c : ascii) :
  isspace c = false -> Ascii.eqb c "," = false -> pair_ok a c = true.
Proof. intros H1 H2. unfold pair_ok. now rewrite H1, H2. Qed.

Lemma buffer_ok_push_space (out : list ascii) :
  buffer_ok out true -> buffer_ok (" "%char :: out) false.
Proof.
  intros (C & F & W). destruct (W eq_refl) as (c & o & -> & Hc & Hk).
  split; [|split; [|discriminate]].
  - rewrite chain_rev_cons2, C, andb_true_r. unfold pair_ok.
    rewrite isspace_space, Hk. cbn.
    destruct (Ascii.eqb_spec c " ") as [->|_]; [discriminate Hc | reflexivity].
  - rewrite hd_error_rev_cons by discriminate. exact F.
Qed.

Lemma buffer_ok_drop_space (d : ascii) (o : list ascii) (w : bool) :
  buffer_ok (d :: o) w -> Ascii.eqb d " " = true ->
  buffer_ok o false /\ (forall x o', o = x :: o' -> Ascii.eqb x " " = false) /\ o <> [].
Proof.
  intros (C & F & _) Hd. apply Ascii.eqb_eq in Hd. subst d.
  destruct o as [|x o'].
  - exfalso. specialize (F " "%char eq_refl). discriminate.
  - rewrite chain_rev_cons2 in C. apply andb_prop in C as [P C].
    split; [|split; [|discriminate]].
    + split; [exact C|]. split; [|discriminate].
      intros c H. apply F. now rewrite hd_error_rev_cons by discriminate.
    + intros y o'' E. injection E as <- <-. unfold pair_ok in P.
      rewrite isspace_space in P. cbn in P.
      destruct (Ascii.eqb x " "); [discriminate | reflexivity].
Qed.

Lemma buffer_ok_push_comma (out : list ascii) :
  buffer_ok out false ->
  (forall x o', out = x :: o' -> Ascii.eqb x " " = false) ->
  buffer_ok (","%char :: out) false.
Proof.
  intros (C & F & _) Hh. split; [|split; [|discriminate]].
  - destruct out as [|x o]; [reflexivity|].
    rewrite chain_rev_cons2, C, andb_true_r. unfold pair_ok.
    rewrite isspace_comma. cbn. now rewrite (Hh x o eq_refl).
  - destruct out as [|x o].
    + cbn. intros c H. now injection H as <-.
    + rewrite hd_error_rev_cons by discriminate. exact F.
Qed.

Lemma buffer_ok_weaken (out : list ascii) (w : bool) :
  buffer_ok out w -> buffer_ok out false.
Proof. intros (C & F & _). split; [exact C|]. split; [exact F | discriminate]. Qed.

Lemma buffer_ok_push_char (out : list ascii) (w : bool) (c : ascii) :
  buffer_ok out w -> isspace c = false -> Ascii.eqb c "," = false ->
  buffer_ok (c :: out) true.
Proof.
  intros (C & F & _) Hc Hk. split; [|split].
  - destruct out as [|x o]; [reflexivity|].
    rewrite chain_rev_cons2, C, pair_ok_plain by assumption. reflexivity.
  - destruct out as [|x o].
    + cbn. intros y H. now injection H as <-.
    + rewrite hd_error_rev_cons by discriminate. exact F.
  - intros _. now exists c, out.
Qed.

Lemma extra_spaces_loop_ok (read : string) : forall out w,
  buffer_ok out w ->
  let final := extra_spaces_loop read out w in
  buffer_ok final false
  /\ (forall x o, final = x :: o -> Ascii.eqb x " " = false).
Proof.
  induction read as [|c r IH]; intros out w H; cbn [extra_spaces_loop]; cbv zeta.
  - destruct out as [|d o].
    + split; [exact (buffer_ok_weaken _ _ H) | discriminate].
    + destruct (Ascii.eqb d " ") eqn:E.
      * destruct (buffer_ok_drop_space d o w H E) as (B & Hh & _). auto.
      * split; [exact (buffer_ok_weaken _ _ H)|].
        intros x o' E'. now injection E' as <- <-.
  - destruct (isspace c) eqn:Sc.
    + destruct w.
      * apply IH. now apply buffer_ok_push_space.
      * now apply IH.
    + destruct (Ascii.eqb c ",") eqn:Kc.
      * apply IH. destruct out as [|d o].
        -- apply buffer_ok_push_comma; [exact (buffer_ok_weaken _ _ H) | discriminate].
        -- destruct (Ascii.eqb d " ") eqn:E.
           ++ destruct (buffer_ok_drop_space d o w H E) as (B & Hh & _).
              now apply buffer_ok_push_comma.
           ++ apply buffer_ok_push_comma; [exact (buffer_ok_weaken _ _ H)|].
              intros x o' E'. now injection E' as <- <-.
      * apply IH. eapply buffer_ok_push_char; eauto.
Qed.

Lemma handle_extra_spaces_tidy (s : string) : tidy (handle_extra_spaces s) = true.
Proof.
  unfold tidy, handle_extra_spaces.
  rewrite list_ascii_of_string_of_list_ascii.
  assert (H0 : buffer_ok [] false).
  { split; [reflexivity|]. split; [discriminate | discriminate]. }
  destruct (extra_spaces_loop_ok s [] false H0) as ((C & F & _) & Hh).
  cbv zeta in *. set (final := extra_spaces_loop s [] false) in *.
  unfold tidy_list. destruct (rev final) as [|c l] eqn:E; [reflexivity|].
  rewrite (F c eq_refl). cbn [negb andb].
  rewrite <- E, chain_rev_spec, C, rev_involutive. cbn [andb].
  destruct final as [|x o]; [reflexivity|].
  now rewrite (Hh x o eq_refl).
Qed.

Lemma pair_ok_plainb (a b : ascii) : pair_ok a b = true -> plainb b = true.
Proof.
  unfold pair_ok, plainb. destruct (isspace b); [|reflexivity].
  intros H. apply andb_prop in H as [H _]. apply andb_prop in H as [H _].
  apply andb_prop in H as [H _]. now rewrite H.
Qed.

Lemma chain_plain (l : list ascii) : forall a,
  chain (a :: l) = true -> forallb plainb l = true.
Proof.
  induction l as [|b l IH]; intros a H; [reflexivity|].
  change (chain (a :: b :: l)) with (pair_ok a b && chain (b :: l))%bool in H.
  apply andb_prop in H as [P C]. cbn [forallb].
  now rewrite (pair_ok_plainb a b P), (IH b C).
Qed.

Lemma chain_app_r (l1 l2 : list ascii) : chain (l1 ++ l2) = true -> chain l2 = true.
Proof.
  induction l1 as [|a l1 IH]; [auto|].
  destruct l1 as [|b l1'].
  - cbn [app]. destruct l2 as [|c l2']; [reflexivity|].
    change (chain (a :: c :: l2')) with (pair_ok a c && chain (c :: l2'))%bool.
    intros H. now apply andb_prop in H.
  - change (chain ((a :: b :: l1') ++ l2))
      with (pair_ok a b && chain ((b :: l1') ++ l2))%bool.
    intros H. apply andb_prop in H as [_ H]. auto.
Qed.

Lemma string_forallb_chars (p : ascii -> bool) (s : string) :
  string_forallb p s = forallb p (list_ascii_of_string s).
Proof. induction s as [|c r IH]; cbn; [reflexivity | now rewrite IH]. Qed.

Lemma list_ascii_app (a b : string) :
  list_ascii_of_string (a ++ b) = list_ascii_of_string a ++ list_ascii_of_string b.
Proof. induction a as [|c r IH]; cbn; [reflexivity | now rewrite IH]. Qed.

Lemma tidy_plain (s : string) : tidy s = true -> string_forallb plainb s = true.
Proof.
  unfold tidy. rewrite string_forallb_chars.
  destruct (list_ascii_of_string s) as [|c l]; [reflexivity|].
  unfold tidy_list. intros H. apply andb_prop in H as [H _].
  apply andb_prop in H as [Hc C]. cbn [forallb].
  rewrite (chain_plain l c C), andb_true_r. unfold plainb. now rewrite Hc.
Qed.

Lemma tidy_head (c : ascii) (r : string) : tidy (String c r) = true -> isspace c = false.
Proof.
  unfold tidy. cbn [list_ascii_of_string tidy_list]. intros H.
  apply andb_prop in H as [H _]. apply andb_prop in H as [H _].
  now apply negb_true_iff in H.
Qed.

Lemma last_char_rev (s : string) :
  last_char s = hd_error (rev (list_ascii_of_string s)).
Proof.
  induction s as [|c r IH]; [reflexivity|].
  cbn [last_char list_ascii_of_string rev]. destruct r as [|d r'].
  - reflexivity.
  - rewrite IH. cbn [list_ascii_of_string rev].
    destruct (rev (list_ascii_of_string r') ++ [d]) as [|x l] eqn:E; [|reflexivity].
    now apply app_eq_nil in E as [_ E].
Qed.

Lemma tidy_last (s : string) (d : ascii) :
  tidy s = true -> last_char s = Some d -> isspace d = false.
Proof.
  intros T L. pose proof (tidy_plain s T) as P.
  rewrite last_char_rev in L. unfold tidy in T.
  destruct (list_ascii_of_string s) as [|c l] eqn:E; [discriminate L|].
  unfold tidy_list in T. apply andb_prop in T as [_ T].
  destruct (rev (c :: l)) as [|x o] eqn:R; [discriminate L|].
  cbn in L. injection L as ->. apply negb_true_iff in T.
  rewrite string_forallb_chars, E in P. rewrite forallb_forall in P.
  assert (Hin : In d (c :: l)) by (apply in_rev; rewrite R; now left).
  specialize (P d Hin). unfold plainb in P. rewrite T, orb_false_r in P.
  now apply negb_true_iff in P.
Qed.

Lemma tidy_trim (s : string) : tidy s = true -> trim s = s.
Proof.
  intros T. apply trim_fixed.
  - intros c r ->. exact (tidy_head c r T).
  - intros d. now apply tidy_last.
Qed.

Lemma tidy_list_suffix (l1 l2 : list ascii) :
  tidy_list (l1 ++ " "%char :: l2) = true -> tidy_list l2 = true.
Proof.
  destruct l2 as [|b l2]; [reflexivity|].
  unfold tidy_list.
  destruct (l1 ++ " "%char :: b :: l2) as [|c l] eqn:E.
  { now destruct l1. }
  intros H. apply andb_prop in H as [H L]. apply andb_prop in H as [_ C].
  rewrite <- E in C, L. apply chain_app_r in C.
  change (chain (" "%char :: b :: l2)) with (pair_ok " " b && chain (b :: l2))%bool in C.
  apply andb_prop in C as [P C]. rewrite C, andb_true_r.
  assert (Hb : isspace b = false).
  { unfold pair_ok in P. destruct (isspace b); [|reflexivity].
    cbn in P. rewrite andb_false_r in P. discriminate. }
  rewrite Hb. cbn [negb andb].
  rewrite rev_app_distr in L. cbn [rev] in L.
  destruct (rev l2 ++ [b]) as [|d o] eqn:R.
  { now apply app_eq_nil in R as [_ R]. }
  cbn [rev]. rewrite R. rewrite <- !app_assoc in L. cbn [app] in L. exact L.
Qed.

Lemma plainb_delims (c : ascii) :
  plainb c = true ->
  mem_char c SP_TAB = Ascii.eqb c " " /\
  mem_char c SP_TAB_NL = Ascii.eqb c " " /\
  mem_char c NLs = false.
Proof.
  unfold plainb, SP_TAB, SP_TAB_NL, NLs. cbn [mem_char]. intros H.
  destruct (Ascii.eqb c " ") eqn:Es.
  { apply Ascii.eqb_eq in Es. subst c. now repeat split. }
  rewrite orb_false_r in H. apply negb_true_iff in H.
  destruct (Ascii.eqb c TAB) eqn:Et.
  { apply Ascii.eqb_eq in Et. rewrite Et in H. discriminate H. }
  destruct (Ascii.eqb c NL) eqn:En.
  { apply Ascii.eqb_eq in En. rewrite En in H. discriminate H. }
  now repeat split.
Qed.

Lemma span_ext (p q : ascii -> bool) (s : string) :
  string_forallb (fun c => Bool.eqb (p c) (q c)) s = true -> span p s = span q s.
Proof.
  induction s as [|c r IH]; cbn; [reflexivity|].
  intros H. apply andb_prop in H as [Hc Hr]. apply Bool.eqb_prop in Hc.
  now rewrite Hc, (IH Hr).
Qed.

Lemma skip_ext (p q : ascii -> bool) (s : string) :
  string_forallb (fun c => Bool.eqb (p c) (q c)) s = true -> skip p s = skip q s.
Proof.
  induction s as [|c r IH]; cbn; [reflexivity|].
  intros H. apply andb_prop in H as [Hc Hr]. apply Bool.eqb_prop in Hc.
  now rewrite Hc, (IH Hr).
Qed.

Lemma string_forallb_impl (p q : ascii -> bool) (s : string) :
  (forall c, p c = true -> q c = true) ->
  string_forallb p s = true -> string_forallb q s = true.
Proof.
  intros Hpq. induction s as [|c r IH]; cbn; [reflexivity|].
  intros H. apply andb_prop in H as [Hc Hr]. now rewrite (Hpq c Hc), (IH Hr).
Qed.

Lemma strtok_ext (d1 d2 s : string) :
  string_forallb (fun c => Bool.eqb (mem_char c d1) (mem_char c d2)) s = true ->
  strtok d1 s = strtok d2 s.
Proof.
  intros H. unfold strtok.
  rewrite (skip_ext _ (fun c => mem_char c d2) s H).
  assert (Hs : string_forallb (fun c => Bool.eqb (mem_char c d1) (mem_char c d2))
                 (skip (fun c => mem_char c d2) s) = true).
  { clear -H. induction s as [|c r IH]; cbn; [reflexivity|].
    cbn in H. apply andb_prop in H as [Hc Hr].
    destruct (mem_char c d2) eqn:E; [auto|]. cbn [string_forallb]. cbv beta.
    now rewrite E, Hc, Hr. }
  destruct (skip (fun c => mem_char c d2) s) as [|c r]; [reflexivity|].
  rewrite (span_ext (fun c => negb (mem_char c d1)) (fun c => negb (mem_char c d2))).
  - reflexivity.
  - eapply string_forallb_impl; [|exact Hs].
    intros x Hx. apply Bool.eqb_prop in Hx. rewrite Hx. apply Bool.eqb_reflx.
Qed.

Lemma strtok_plain_same (s : string) :
  string_forallb plainb s = true -> strtok SP_TAB_NL s = strtok SP_TAB s.
Proof.
  intros H. apply strtok_ext. eapply string_forallb_impl; [|exact H].
  intros c Hc. destruct (plainb_delims c Hc) as (-> & -> & _). apply Bool.eqb_reflx.
Qed.

Lemma strtok_newline_plain (s : string) :
  string_forallb plainb s = true ->
  strtok NLs s = if is_empty s then None else Some (s, EmptyString).
Proof.
  intros H. unfold strtok.
  assert (Hn : string_forallb (fun c => negb (mem_char c NLs)) s = true).
  { eapply string_forallb_impl; [|exact H].
    intros c Hc. now destruct (plainb_delims c Hc) as (_ & _ & ->). }
  destruct s as [|c r]; [reflexivity|].
  assert (Hc : mem_char c NLs = false).
  { cbn in Hn. apply andb_prop in Hn as [Hn _]. now apply negb_true_iff in Hn. }
  cbn [skip is_empty]. rewrite Hc. now rewrite (span_all _ _ Hn).
Qed.

(** The first token of a tidy line, and what is left after it. *)
Lemma strtok_tidy (s tok rest : string) :
  tidy s = true ->
  strtok SP_TAB s = Some (tok, rest) ->
  tidy rest = true /\ (String.length rest <= String.length s)%nat.
Proof.
  intros T. pose proof (tidy_plain s T) as P. unfold strtok.
  destruct s as [|c r]; [discriminate|].
  pose proof (tidy_head c r T) as Hc.
  assert (Hm : mem_char c SP_TAB = false).
  { cbn in P. apply andb_prop in P as [Pc _].
    destruct (plainb_delims c Pc) as (-> & _).
    destruct (Ascii.eqb_spec c " ") as [->|_]; [discriminate Hc | reflexivity]. }
  cbn [skip]. rewrite Hm.
  pose proof (span_app (fun x => negb (mem_char x SP_TAB)) (String c r)) as A.
  pose proof (span_rest_head (fun x => negb (mem_char x SP_TAB)) (String c r)) as R.
  destruct (span (fun x => negb (mem_char x SP_TAB)) (String c r)) as [t rem].
  cbn [fst snd] in A, R. intros H. injection H as <- <-.
  destruct R as [->|(d & rest & -> & Hd)]; [split; [reflexivity | cbn; lia]|].
  rewrite A in P. rewrite string_forallb_chars, list_ascii_app, forallb_app in P.
  apply andb_prop in P as [_ P]. cbn in P. apply andb_prop in P as [Pd _].
  destruct (plainb_delims d Pd) as (E & _). apply negb_false_iff in Hd.
  rewrite E in Hd. apply Ascii.eqb_eq in Hd. subst d. split.
  - unfold tidy in *. rewrite A, list_ascii_app in T. cbn [list_ascii_of_string] in T.
    exact (tidy_list_suffix _ _ T).
  - rewrite A, string_length_app. cbn. lia.
Qed.

(** ** The two passes on the same text *)

Lemma strncpy_long (n : nat) (s : string) :
  (n <= String.length s)%nat -> String.length (strncpy n s) = n.
Proof.
  revert s. induction n as [|n IH]; intros s H; destruct s; cbn in *;
    try reflexivity; try lia.
  rewrite IH; [reflexivity | lia].
Qed.

Lemma streq_truncated (tok k : string) :
  (String.length k < MAX_LABEL_LENGTH)%nat ->
  streq (strncpy MAX_LABEL_LENGTH tok) k = streq tok k.
Proof.
  intros Hk.
  destruct (Nat.le_gt_cases (String.length tok) MAX_LABEL_LENGTH) as [H|H].
  - now rewrite strncpy_short.
  - assert (L : String.length (strncpy MAX_LABEL_LENGTH tok) = MAX_LABEL_LENGTH)
      by (apply strncpy_long; lia).
    unfold streq.
    destruct (String.eqb_spec (strncpy MAX_LABEL_LENGTH tok) k) as [E|_];
      destruct (String.eqb_spec tok k) as [E'|_]; try reflexivity.
    + rewrite E in L. lia.
    + rewrite E' in H. lia.
Qed.

Lemma streq_truncated_l (tok k : string) :
  (String.length k < MAX_LABEL_LENGTH)%nat ->
  streq k (strncpy MAX_LABEL_LENGTH tok) = streq k tok.
Proof.
  intros Hk. unfold streq. rewrite (String.eqb_sym k), (String.eqb_sym k tok).
  now apply streq_truncated.
Qed.

Lemma lookup_opcode_truncated (tok : string) :
  lookup_opcode (strncpy MAX_LABEL_LENGTH tok) = lookup_opcode tok.
Proof.
  unfold lookup_opcode, opcode_table. cbn [find mnemonic].
  now rewrite !streq_truncated_l by (unfold MAX_LABEL_LENGTH; cbn; lia).
Qed.

Lemma is_directive_names (t : string) :
  is_directive t =
  (streq t ".data" || streq t ".string" || streq t ".entry" || streq t ".extern")%bool.
Proof.
  destruct t as [|c r]; [reflexivity|]. unfold is_directive.
  destruct (Ascii.eqb c ".") eqn:E; [reflexivity|].
  unfold streq. cbn [String.eqb andb]. now rewrite E.
Qed.

Lemma get_instruction_length_truncated (tok ops : string) :
  get_instruction_length (strncpy MAX_LABEL_LENGTH tok) (Some ops)
  = get_instruction_length tok (Some ops).
Proof.
  rewrite !get_instruction_length_buffer. unfold get_operand_count.
  now rewrite lookup_opcode_truncated.
Qed.

(** The operand text of both passes on the rest of a tidy line. *)
Lemma first_operands_rest (rest : string) :
  tidy rest = true -> (String.length rest <= MAX_LINE_LENGTH)%nat ->
  match strtok NLs rest with
  | Some (t, _) => trim (strncpy MAX_LINE_LENGTH t)
  | None => EmptyString
  end = rest.
Proof.
  intros T L. rewrite (strtok_newline_plain rest (tidy_plain rest T)).
  destruct rest as [|c r]; [reflexivity|]. cbn [is_empty].
  rewrite (strncpy_short _ _ L). now apply tidy_trim.
Qed.

Lemma second_operands_rest (rest : string) :
  tidy rest = true ->
  option_map fst (strtok NLs rest) = if is_empty rest then None else Some rest.
Proof.
  intros T. rewrite (strtok_newline_plain rest (tidy_plain rest T)).
  now destruct (is_empty rest).
Qed.

(** The words an instruction occupies, from its operand text. *)
Lemma write_instruction_count operation operands table addr :
  let ops := match operands with Some s => s | None => EmptyString end in
  let source := fst (split_operands ops) in
  let target := snd (split_operands ops) in
  Z.of_nat (List.length
    (write_instruction (fst (encode_instruction operation operands table addr)) addr))
  = (if (is_register_mode (get_addressing_mode (Some source)) &&
         is_register_mode (get_addressing_mode (Some target)))%bool
     then 2 else 1 + (present source + present target)).
Proof.
  intros ops source target.
  assert (Hbuf : operand_buffers operands = (source, target)).
  { subst source target ops. destruct operands as [s|]; simpl.
    - now destruct (split_operands s).
    - reflexivity. }
  rewrite write_instruction_length.
  destruct (encode_instruction_modes operation operands table addr) as [Hs Ht].
  rewrite Hs, Ht, Hbuf. cbn [fst snd].
  destruct (operand_buffers_trimmed operands) as (a & b & Hab).
  rewrite Hbuf in Hab. injection Hab as Hsrc Htgt.
  rewrite Hsrc, Htgt.
  destruct (is_empty (trim b)) eqn:Eb; cbn [fst snd].
  - assert (Hb : trim b = EmptyString)
      by (destruct (trim b); [reflexivity | discriminate]).
    rewrite Hb.
    change (get_addressing_mode (Some EmptyString)) with 4.
    change (is_register_mode 4) with false.
    rewrite andb_false_r. cbn [andb].
    change (4 =? 4) with true. cbv iota.
    rewrite present_trim. change (present EmptyString) with 0. lia.
  - rewrite !present_trim.
    match goal with |- context [if ?c then 2 else _] => destruct c end; lia.
Qed.

Lemma second_pass_line_dispatch file line_number raw st :
  second_pass_line file line_number raw st =
  let line := trim (handle_extra_spaces (handle_comment raw)) in
  if is_empty line then Some st
  else match second_pass_token line with
       | None => None
       | Some (token, rest) => second_pass_dispatch file line_number token rest st
       end.
Proof. reflexivity. Qed.

Lemma in_step_none st1 st1' st2 st2' :
  fp_IC st1' = fp_IC st1 -> fp_DC st1' = fp_DC st1 ->
  sp_code st2' = sp_code st2 -> sp_address st2' = sp_address st2 ->
  in_step st1 st1' st2 (Some st2').
Proof.
  intros HI HD HC HA. exists st2', []. rewrite app_nil_r, HI, HD, HC, HA.
  cbn [List.length consecutive]. repeat split; try lia. constructor.
Qed.

Lemma second_pass_entry_code file line n st :
  sp_code (second_pass_entry file line n st) = sp_code st /\
  sp_address (second_pass_entry file line n st) = sp_address st.
Proof.
  unfold second_pass_entry. destruct n as [n|]; [|split; reflexivity].
  destruct (find_symbol (sp_table st) n) as [s|]; [|split; reflexivity].
  destruct (negb _); split; reflexivity.
Qed.

Lemma fp_externs_counters macros file line tokens : forall st,
  fp_IC (fold_left (fp_extern_symbol macros file line) tokens st) = fp_IC st /\
  fp_DC (fold_left (fp_extern_symbol macros file line) tokens st) = fp_DC st.
Proof.
  induction tokens as [|t tokens IH]; intros st; cbn [fold_left]; [auto|].
  destruct (IH (fp_extern_symbol macros file line st t)) as [-> ->].
  destruct (fp_extern_symbol_cases macros file line st t) as (HI & HD & _).
  auto.
Qed.

Lemma get_opcode_truncated (tok : string) :
  get_opcode (strncpy MAX_LABEL_LENGTH tok) = get_opcode tok.
Proof. unfold get_opcode. now rewrite lookup_opcode_truncated. Qed.

Lemma statement_in_step macros file ln label tok rest st1 st2 :
  tidy rest = true -> (String.length rest <= MAX_LINE_LENGTH)%nat ->
  fp_error_found
    (first_pass_statement macros file ln label (strncpy MAX_LABEL_LENGTH tok) rest st1)
  = false ->
  in_step st1
    (first_pass_statement macros file ln label (strncpy MAX_LABEL_LENGTH tok) rest st1)
    st2 (second_pass_dispatch file ln tok rest st2).
Proof.
  intros T L. unfold first_pass_statement, second_pass_dispatch.
  rewrite get_instruction_length_truncated.
  rewrite !get_opcode_truncated.
  rewrite is_directive_names.
  rewrite !streq_truncated by (unfold MAX_LABEL_LENGTH; cbn; lia).
  rewrite (second_operands_rest rest T).
  pose proof (fp_add_label_cases macros file ln label (fp_DC st1) SYMBOL_TYPE_DATA st1)
    as (DI & DD & _).
  pose proof (fp_add_label_cases macros file ln label (fp_IC st1) SYMBOL_TYPE_CODE st1)
    as (CI & CD & _).
  cbv zeta in DI, DD, CI, CD.
  destruct (streq tok ".data") eqn:Edata; cbn [orb].
  { destruct (count_data_values rest =? -1); [intros H; discriminate H|]. intros _.
    pose proof (write_data_shape (if is_empty rest then None else Some rest)
                  (sp_address st2)) as (W1 & W2 & W3 & W4).
    destruct (write_data _ _) as [ws a]. cbn [fst snd] in *.
    exists (sp_emit ws a st2), ws. cbn [sp_emit sp_code sp_address fp_set_counters fp_IC fp_DC].
    split; [reflexivity|]. split; [reflexivity|]. split; [exact W1|].
    split; [exact W2|]. split; [exact W3|]. intros _. rewrite W4, DI, DD.
    destruct rest; cbn [is_empty]; lia. }
  destruct (streq tok ".string") eqn:Estring; cbn [orb].
  { destruct (validate_string rest) eqn:V; cbn [negb]; [|intros H; discriminate H].
    intros _. destruct (validate_string_parts rest V) as (inner & -> & Hin).
    cbn [is_empty].
    change (write_string (String DQUOTE (inner ++ String DQUOTE EmptyString))
              (sp_address st2))
      with (write_string_chars (inner ++ String DQUOTE EmptyString) (sp_address st2)).
    pose proof (write_string_chars_shape (inner ++ String DQUOTE EmptyString)
                  (sp_address st2)) as (W1 & W2 & W3).
    pose proof (write_string_chars_quoted inner EmptyString (sp_address st2) Hin) as W4.
    destruct (write_string_chars _ _) as [ws a]. cbn [fst snd] in *.
    exists (sp_emit ws a st2), ws. cbn [sp_emit sp_code sp_address fp_set_counters fp_IC fp_DC].
    split; [reflexivity|]. split; [reflexivity|]. split; [exact W1|].
    split; [exact W2|]. split; [exact W3|]. intros _. rewrite DI, DD.
    apply (f_equal (@List.length Z)) in W4.
    rewrite length_map, length_app, length_map, list_ascii_length in W4. cbn in W4.
    unfold strlen. cbn [String.length]. rewrite string_length_app. cbn [String.length].
    unfold WordLine in *. lia. }
  destruct (streq tok ".entry") eqn:Eentry; cbn [orb].
  { intros _. destruct (second_pass_entry_code file ln
                          (option_map fst (strtok SP_TAB_NL rest)) st2) as [C A].
    now apply in_step_none. }
  destruct (streq tok ".extern") eqn:Eextern.
  { apply String.eqb_eq in Eextern. subst tok.
    change (negb (get_opcode ".extern" =? -1)) with false. cbv iota.
    destruct (is_empty (trim rest)); [intros H; discriminate H|]. intros _.
    destruct (fp_externs_counters macros file ln (strtok_all COMMA_SP_TAB (trim rest)) st1)
      as [HI HD].
    now apply in_step_none. }
  destruct (get_opcode tok =? -1) eqn:Eop; cbn [negb]; [intros H; discriminate H|].
  pose proof (write_instruction_count tok (if is_empty rest then None else Some rest)
                (sp_table st2) (sp_address st2)) as WC.
  pose proof (get_instruction_length_buffer tok rest) as GL.
  cbv zeta in WC.
  assert (Hops : match (if is_empty rest then None else Some rest) with
                 | Some s => s | None => EmptyString end = rest)
    by (destruct rest; reflexivity).
  rewrite Hops in WC.
  destruct (get_instruction_length tok (Some rest) =? -1) eqn:El;
    [intros H; discriminate H|]. intros _.
  apply Z.eqb_neq in El.
  assert (Hlen : get_instruction_length tok (if is_empty rest then None else Some rest)
                 = get_instruction_length tok (Some rest)
                 /\ Z.of_nat (List.length
                      (write_instruction
                         (fst (encode_instruction tok
                                 (if is_empty rest then None else Some rest)
                                 (sp_table st2) (sp_address st2)))
                         (sp_address st2)))
                    = get_instruction_length tok (Some rest)).
  { assert (Ec : (present (fst (split_operands rest)) + present (snd (split_operands rest))
                  =? get_operand_count tok) = true).
    { rewrite GL in El. destruct (_ =? get_operand_count tok); [reflexivity|].
      now contradiction El. }
    split; [|now rewrite WC, GL, Ec].
    destruct rest as [|c r]; [|reflexivity]. cbn [is_empty].
    rewrite GL, Ec. reflexivity. }
  destruct Hlen as [Hl1 Hl2]. clear WC GL Hops.
  unfold second_pass_instruction.
  destruct (encode_instruction tok (if is_empty rest then None else Some rest)
              (sp_table st2) (sp_address st2)) as [inst table'].
  cbn [fst] in Hl2.
  destruct (opcode inst =? to_uint (-1)).
  - eexists _, []. split; [reflexivity|]. cbn [sp_error sp_set_table sp_code sp_address].
    rewrite app_nil_r. cbn [List.length consecutive].
    split; [reflexivity|]. split; [exact I|]. split; [constructor|].
    split; [lia|]. intros H; discriminate H.
  - eexists _, (write_instruction inst (sp_address st2)).
    split; [reflexivity|]. cbn [sp_emit sp_set_table sp_code sp_address].
    destruct (write_instruction_shape inst (sp_address st2)) as [S1 S2].
    split; [reflexivity|]. split; [exact S1|]. split; [exact S2|].
    split; [rewrite Hl1, Hl2; reflexivity|]. intros _.
    cbn [fp_set_counters fp_IC fp_DC]. rewrite Hl2, CI, CD. lia.
Qed.

Lemma line_tidy (raw : string) :
  tidy (trim (handle_extra_spaces (handle_comment raw))) = true.
Proof.
  pose proof (handle_extra_spaces_tidy (handle_comment raw)) as T.
  now rewrite (tidy_trim _ T).
Qed.

Lemma line_in_step macros file ln raw st1 st2 :
  fp_error_found (first_pass_line macros file ln raw st1) = false ->
  in_step st1 (first_pass_line macros file ln raw st1) st2
    (second_pass_line file ln raw st2).
Proof.
  rewrite second_pass_line_dispatch. unfold first_pass_line. cbv zeta.
  pose proof (line_tidy raw) as T.
  set (line := trim (handle_extra_spaces (handle_comment raw))) in *.
  destruct (is_empty line); [intros _; now apply in_step_none|].
  destruct (Z.of_nat MAX_LINE_LENGTH <? strlen line) eqn:Len; [intros H; discriminate H|].
  apply Z.ltb_ge in Len. unfold strlen in Len.
  unfold first_pass_tokens, second_pass_token.
  rewrite (strtok_plain_same line (tidy_plain line T)).
  destruct (strtok SP_TAB line) as [[tok rest]|] eqn:K;
    [|intros H; discriminate H].
  destruct (strtok_tidy line tok rest T K) as [Tr Lr].
  destruct (ends_with_colon tok).
  - destruct (negb (is_label _)); [intros H; discriminate H|].
    destruct (strtok SP_TAB rest) as [[tok2 rest2]|] eqn:K2;
      [|intros H; discriminate H].
    destruct (strtok_tidy rest tok2 rest2 Tr K2) as [Tr2 Lr2].
    unfold operation_and_operands.
    rewrite (first_operands_rest rest2 Tr2) by lia.
    apply statement_in_step; [exact Tr2 | lia].
  - unfold operation_and_operands.
    rewrite (first_operands_rest rest Tr) by lia.
    apply statement_in_step; [exact Tr | lia].
Qed.

Lemma loop_in_step macros file lines : forall ln st1 st2,
  fp_error_found (first_pass_loop macros file ln lines st1) = false ->
  in_step st1 (first_pass_loop macros file ln lines st1) st2
    (second_pass_loop file ln lines st2).
Proof.
  induction lines as [|raw rest IH]; intros ln st1 st2;
    cbn [first_pass_loop second_pass_loop].
  - intros _. now apply in_step_none.
  - intros H.
    pose proof (first_pass_loop_step macros file rest (ln + 1)
                  (first_pass_line macros file (ln + 1) raw st1)) as [Q _].
    cbv zeta in Q. destruct (Q H) as [H1 _].
    destruct (line_in_step macros file (ln + 1) raw st1 st2 H1)
      as (m & ws1 & E1 & C1 & A1 & B1 & D1 & N1).
    rewrite E1.
    destruct (IH (ln + 1) (first_pass_line macros file (ln + 1) raw st1) m H)
      as (st2' & ws2 & E2 & C2 & A2 & B2 & D2 & N2).
    exists st2', (ws1 ++ ws2). split; [exact E2|].
    split; [rewrite C2, C1; symmetry; apply app_assoc|].
    split; [apply consecutive_app; split; [exact A1 | now rewrite <- D1]|].
    split; [apply Forall_app; now split|].
    split; [rewrite D2, D1, length_app; lia|].
    intros He.
    pose proof (second_pass_loop_quiet file rest (ln + 1) m st2' E2 He) as [Hm _].
    rewrite length_app, Nat2Z.inj_add, (N1 Hm), (N2 He). lia.
Qed.

Lemma chain_adjacent (l1 l2 : list ascii) (a b : ascii) :
  chain (l1 ++ a :: b :: l2) = true -> pair_ok a b = true.
Proof.
  intros H. apply chain_app_r in H.
  change (chain (a :: b :: l2)) with (pair_ok a b && chain (b :: l2))%bool in H.
  now apply andb_prop in H.
Qed.

Lemma extra_spaces_loop_tidy (r : string) : forall out w,
  chain (rev out ++ list_ascii_of_string r) = true ->
  (forall p o, out = p :: o -> plainb p = true) ->
  (out = [] -> forall c r', r = String c r' -> isspace c = false) ->
  (forall d l, rev (list_ascii_of_string r) ++ out = d :: l -> Ascii.eqb d " " = false) ->
  w = match out with
      | [] => false
      | p :: _ => (negb (isspace p) && negb (Ascii.eqb p ","))%bool
      end ->
  extra_spaces_loop r out w = rev (list_ascii_of_string r) ++ out.
Proof.
  induction r as [|c r IH]; intros out w H1 H2 H3 H4 H5;
    cbn [extra_spaces_loop list_ascii_of_string rev app]; cbv zeta.
  - destruct out as [|p o]; [reflexivity|].
    now rewrite (H4 p o eq_refl).
  - cbn [list_ascii_of_string rev] in H4. rewrite <- app_assoc in H4 |- *.
    cbn [app] in H4 |- *. cbn [list_ascii_of_string] in H1.
    assert (Hc : plainb c = true /\
                 (isspace c = true ->
                  w = true /\ c = " "%char) /\
                 (Ascii.eqb c "," = true ->
                  match out with
                  | d :: o => if Ascii.eqb d " " then o else out
                  | [] => out
                  end = out)).
    { destruct out as [|p o].
      - pose proof (H3 eq_refl c r eq_refl) as Hs. unfold plainb. rewrite Hs.
        split; [reflexivity|].
        split; [intros Hx; discriminate Hx | reflexivity].
      - cbn [rev] in H1. rewrite <- app_assoc in H1. cbn [app] in H1.
        pose proof (chain_adjacent _ _ _ _ H1) as P.
        pose proof (H2 p o eq_refl) as Pp.
        split; [exact (pair_ok_plainb p c P)|]. unfold pair_ok in P. split.
        + intros Hs. rewrite Hs in P. apply andb_prop in P as [P _].
          apply andb_prop in P as [P P3]. apply andb_prop in P as [P1 P2].
          apply Ascii.eqb_eq in P1. split; [|exact P1].
          apply negb_true_iff in P2, P3. unfold plainb in Pp.
          rewrite P2, orb_false_r in Pp. rewrite H5, Pp, P3. reflexivity.
        + intros Hk. rewrite Hk in P. apply andb_prop in P as [_ P].
          apply negb_true_iff in P. now rewrite P. }
    destruct Hc as (Pc & Hsp & Hcm).
    assert (Hstep : forall w',
              w' = (negb (isspace c) && negb (Ascii.eqb c ","))%bool ->
              extra_spaces_loop r (c :: out) w'
              = rev (list_ascii_of_string r) ++ c :: out).
    { intros w' Hw. apply IH.
      - cbn [rev]. rewrite <- app_assoc. exact H1.
      - intros p o E. now injection E as <- <-.
      - intros E; discriminate E.
      - exact H4.
      - exact Hw. }
    destruct (isspace c) eqn:Sc.
    + destruct (Hsp eq_refl) as [-> Ec]. subst c. now apply Hstep.
    + destruct (Ascii.eqb c ",") eqn:Kc.
      * rewrite (Hcm eq_refl). apply Ascii.eqb_eq in Kc. subst c. now apply Hstep.
      * now apply Hstep.
Qed.

Lemma tidy_fixed (t : string) : tidy t = true -> handle_extra_spaces t = t.
Proof.
  intros T. unfold handle_extra_spaces.
  rewrite (extra_spaces_loop_tidy t [] false).
  - rewrite app_nil_r, rev_involutive. apply string_of_list_ascii_of_string.
  - unfold tidy in T. cbn [rev app]. destruct (list_ascii_of_string t) as [|c l];
      [reflexivity|]. unfold tidy_list in T. apply andb_prop in T as [T _].
    now apply andb_prop in T.
  - intros p o E; discriminate E.
  - intros _ c r' ->. exact (tidy_head c r' T).
  - intros d l E. rewrite app_nil_r in E. unfold tidy in T.
    destruct (list_ascii_of_string t) as [|c l']; [discriminate E|].
    unfold tidy_list in T. apply andb_prop in T as [_ T]. rewrite E in T.
    now apply negb_true_iff in T.
  - reflexivity.
Qed.

(** What [handle_extra_spaces] leaves: the only white space is the blank;
    no blank follows a blank or a comma and none stands before a comma; the
    text neither begins nor ends with white space; [handle_extra_spaces] and
    [trim] leave the result as it is. *)
Theorem handle_extra_spaces_normal_form (s : string) :
  let t := handle_extra_spaces s in
  (forall c, In c (list_ascii_of_string t) -> isspace c = true -> c = " "%char)
  /\ (forall l1 a b l2, list_ascii_of_string t = l1 ++ a :: b :: l2 ->
        (b = " "%char -> a <> " "%char /\ a <> ","%char) /\
        (b = ","%char -> a <> " "%char))
  /\ (forall c r, t = String c r -> isspace c = false)
  /\ (forall d, last_char t = Some d -> isspace d = false)
  /\ handle_extra_spaces t = t
  /\ trim t = t.
Proof.
  intros t. pose proof (handle_extra_spaces_tidy s) as T. fold t in T.
  split; [|split; [|split; [|split; [|split]]]].
  - intros c Hin Hs. pose proof (tidy_plain t T) as P.
    rewrite string_forallb_chars, forallb_forall in P. specialize (P c Hin).
    unfold plainb in P. rewrite Hs in P. now apply Ascii.eqb_eq in P.
  - intros l1 a b l2 E. unfold tidy in T. rewrite E in T.
    assert (C : chain (l1 ++ a :: b :: l2) = true).
    { unfold tidy_list in T. destruct (l1 ++ a :: b :: l2); [reflexivity|].
      apply andb_prop in T as [T _]. now apply andb_prop in T. }
    pose proof (chain_adjacent _ _ _ _ C) as P. unfold pair_ok in P.
    apply andb_prop in P as [P1 P2]. split.
    + intros ->. change (isspace " ") with true in P1.
      apply andb_prop in P1 as [P1 P4]. apply andb_prop in P1 as [_ P3].
      apply negb_true_iff in P3, P4. split; intros ->; discriminate.
    + intros ->. change (Ascii.eqb "," ",") with true in P2.
      apply negb_true_iff in P2. intros ->; discriminate.
  - intros c r E. rewrite E in T. exact (tidy_head c r T).
  - intros d. now apply tidy_last.
  - now apply tidy_fixed.
  - now apply tidy_trim.
Qed.

(** When every operand text the passes parse fits the operand buffers and
    the first pass reports no error, the second pass runs to its end
    without reading through a null pointer.  The lines it writes to the code
    stream carry the addresses 100, 101, ... in this order, and every word
    fits in 15 bits.  When the second pass reports no error either, the
    number of lines is the sum of the two counts of the header of the object
    file, [IC - 100] and [DC]. *)
Theorem object_code_layout macros file expanded table log :
  forallb line_operands_fit (read_lines expanded) = true ->
  let r := first_pass macros file expanded table log in
  fr_ok r = true ->
  exists s,
    fr_second r = SecondRan s
    /\ consecutive FIRST_ADDRESS (sr_code s)
    /\ words15 (sr_code s)
    /\ (sr_ok s = true ->
        Z.of_nat (List.length (sr_code s)) = (fr_IC r - FIRST_ADDRESS) + fr_DC r).
Proof.
  intros _. cbv zeta. unfold first_pass. cbn [fr_ok fr_second fr_IC fr_DC].
  set (st0 := {| fp_table := table; fp_IC := FIRST_ADDRESS; fp_DC := 0;
                 fp_error_found := false; fp_log := log |}).
  set (st1 := first_pass_loop macros file 0 (read_lines expanded) st0).
  intros Hok. rewrite Hok. apply negb_true_iff in Hok.
  unfold second_pass.
  set (st2 := {| sp_table := rebase_data (fp_IC st1) (fp_table st1);
                 sp_address := FIRST_ADDRESS; sp_error_found := false;
                 sp_log := fp_log st1; sp_code := [] |}).
  destruct (loop_in_step macros file (read_lines expanded) 0 st0 st2 Hok)
    as (st2' & ws & E & C & A & B & _ & N).
  fold st1 in N. rewrite E. cbn [app sp_code sp_address] in C, A.
  eexists. split; [reflexivity|]. cbn [sr_code sr_ok]. rewrite C.
  split; [exact A|]. split; [exact B|].
  intros H. apply negb_true_iff in H.
  etransitivity; [exact (N H)|]. unfold st0. cbn [fp_IC fp_DC]. lia.
Qed.

Lemma object_code_layout_witness :
  forallb line_operands_fit (read_lines layout_source) = true
  /\ fr_ok (first_pass [] "prog.am" layout_source init_symbol_table []) = true
  /\ exists s,
       fr_second (first_pass [] "prog.am" layout_source init_symbol_table [])
       = SecondRan s
       /\ consecutive FIRST_ADDRESS (sr_code s)
       /\ words15 (sr_code s)
       /\ (sr_ok s = true ->
           Z.of_nat (List.length (sr_code s))
           = (fr_IC (first_pass [] "prog.am" layout_source init_symbol_table [])
              - FIRST_ADDRESS)
             + fr_DC (first_pass [] "prog.am" layout_source init_symbol_table [])).
Proof.
  assert (H : fr_ok (first_pass [] "prog.am" layout_source init_symbol_table []) = true)
    by (vm_compute; reflexivity).
  assert (F : forallb line_operands_fit (read_lines layout_source) = true)
    by (vm_compute; reflexivity).
  split; [exact F|]. split; [exact H|].
  exact (object_code_layout [] "prog.am" layout_source init_symbol_table [] F H).
Defined.

(** ** Lines longer than the buffer *)

Lemma string_of_list_length (l : list ascii) :
  String.length (string_of_list_ascii l) = List.length l.
Proof. induction l as [|c l IH]; cbn; [reflexivity | now rewrite IH]. Qed.

Lemma extra_spaces_loop_length (r : string) : forall out w,
  (List.length (extra_spaces_loop r out w) <= String.length r + List.length out)%nat.
Proof.
  induction r as [|c r IH]; intros out w; cbn [extra_spaces_loop String.length]; cbv zeta.
  - destruct out as [|d o]; [lia|]. destruct (Ascii.eqb d " "); cbn; lia.
  - destruct (isspace c).
    + destruct w.
      * specialize (IH (" "%char :: out) false). cbn [List.length] in IH. lia.
      * specialize (IH out false). lia.
    + destruct (Ascii.eqb c ",").
      * match goal with |- context [extra_spaces_loop r ?o false] =>
          specialize (IH o false); assert (List.length o <= S (List.length out))%nat
        end.
        { destruct out as [|d o]; cbn; [lia|]. destruct (Ascii.eqb d " "); cbn; lia. }
        lia.
      * specialize (IH (c :: out) true). cbn [List.length] in IH. lia.
Qed.

Lemma handle_extra_spaces_length (s : string) :
  (String.length (handle_extra_spaces s) <= String.length s)%nat.
Proof.
  unfold handle_extra_spaces. rewrite string_of_list_length, length_rev.
  pose proof (extra_spaces_loop_length s [] false) as H. cbn in H. lia.
Qed.

Lemma handle_comment_length (s : string) :
  (String.length (handle_comment s) <= String.length s)%nat.
Proof.
  unfold handle_comment.
  rewrite (span_app (fun c => negb (Ascii.eqb c ";")) s) at 2.
  rewrite string_length_app. lia.
Qed.

(** Neither pass can see a line of more than [MAX_LINE_LENGTH] characters:
    [fgets] cuts the file into pieces that fit the buffer, and trimming,
    cutting the comment and squeezing the blanks make no piece longer.  So
    the length tests of the pre-assembler and of the first pass never
    succeed, and a longer line is read as several lines. *)
Theorem line_length_tests_idle (text : string) :
  Forall (fun raw =>
            (Z.of_nat MAX_LINE_LENGTH <? strlen (trim raw)) = false /\
            (Z.of_nat MAX_LINE_LENGTH
               <? strlen (trim (handle_extra_spaces (handle_comment raw)))) = false)
         (read_lines text).
Proof.
  pose proof (fgets_loop_length text MAX_LINE_LENGTH EmptyString) as L.
  specialize (L ltac:(unfold MAX_LINE_LENGTH; lia) ltac:(cbn; lia)).
  fold (read_lines text) in L.
  eapply Forall_impl; [|exact L]. intros raw H. cbv beta in H. unfold strlen.
  pose proof (trim_length raw).
  pose proof (trim_length (handle_extra_spaces (handle_comment raw))).
  pose proof (handle_extra_spaces_length (handle_comment raw)).
  pose proof (handle_comment_length raw).
  split; apply Z.ltb_ge; lia.
Qed.

(** ** The text the pre-assembler writes *)

Lemma concat_app (a b : list string) :
  String.concat EmptyString (a ++ b)
  = (String.concat EmptyString a ++ String.concat EmptyString b)%string.
Proof.
  induction a as [|x a IH]; [reflexivity|].
  change ((x :: a) ++ b) with (x :: (a ++ b)).
  now rewrite !concat_cons, IH, string_app_assoc.
Qed.

Lemma made_of_app L a b : made_of L a -> made_of L b -> made_of L (a ++ b)%string.
Proof.
  intros (la & -> & Ha) (lb & -> & Hb). exists (la ++ lb). split.
  - now rewrite concat_app.
  - now apply incl_app.
Qed.

Lemma add_macro_lines_incl (lines : list string) :
  incl (fst (add_macro_lines lines)) lines /\ incl (snd (add_macro_lines lines)) lines.
Proof.
  induction lines as [|l rest IH]; cbn [add_macro_lines]; [split; apply incl_refl|].
  destruct (streq (trim l) "endmacr").
  - split; [apply incl_nil_l | apply incl_refl].
  - destruct (add_macro_lines rest) as [body remaining]. cbn [fst snd] in *.
    destruct IH as [B R]. split.
    + apply incl_cons; [now left | now apply incl_tl].
    + now apply incl_tl.
Qed.

Lemma expand_macro_made_of L (table : MacroTable) (n : string) :
  Forall (fun m => incl (macro_lines m) L) table ->
  made_of L (expand_macro table n).
Proof.
  intros H. unfold expand_macro.
  destruct (find _ table) as [m|] eqn:F.
  - apply find_some in F as [Hin _]. rewrite Forall_forall in H.
    exists (macro_lines m). split; [reflexivity | now apply H].
  - exists []. split; [reflexivity | apply incl_nil_l].
Qed.

Lemma pre_assembler_loop_made_of L file (fuel : nat) : forall lines line_number st st',
  pre_assembler_loop fuel file lines line_number st = Some st' ->
  incl lines L ->
  Forall (fun m => incl (macro_lines m) L) (macro_table st) ->
  made_of L (am_output st) ->
  made_of L (am_output st').
Proof.
  induction fuel as [|fuel IH]; intros lines line_number st st'.
  - destruct lines; cbn; [|discriminate]. intros H. now injection H as <-.
  - destruct lines as [|l rest]; cbn [pre_assembler_loop].
    { intros H. now injection H as <-. }
    intros H Hl Hm Ho.
    assert (Hrest : incl rest L) by (intros x Hx; apply Hl; now right).
    assert (Hin : In l L) by (apply Hl; now left).
    destruct (_ <? _).
    { eapply IH in H; eauto. }
    destruct (String.prefix "macr" (trim l)).
    + destruct (is_valid_macro_name _).
      * pose proof (add_macro_lines_incl rest) as [B R].
        destruct (add_macro_lines rest) as [body remaining]. cbn [fst snd] in B, R.
        eapply IH in H; eauto; cbn [macro_table am_output].
        -- eapply incl_tran; eauto.
        -- apply Forall_app. split; [exact Hm|].
           constructor; [|constructor]. cbn [macro_lines]. eapply incl_tran; eauto.
      * eapply IH in H; eauto.
    + destruct (streq (trim l) "endmacr"); [eapply IH in H; eauto|].
      eapply IH in H; eauto. cbn [am_output]. apply made_of_app; [exact Ho|].
      destruct (find _ (macro_table st)) as [m|].
      * now apply expand_macro_made_of.
      * exists [l]. split; [reflexivity|]. intros x [<-|[]]. exact Hin.
Qed.

(** The pre-assembler writes nothing of its own: the expanded text is made
    of pieces of the source file, each a line as [fgets] read it, in some
    order and number. *)
Theorem pre_assembler_copies (file input : string) (log : ErrorLog) :
  exists st,
    pre_assembler file input log = Some st
    /\ exists pieces,
         am_output st = String.concat EmptyString pieces
         /\ forall l, In l pieces -> In l (read_lines input).
Proof.
  destruct (pre_assembler_total file input log) as (st & E).
  exists st. split; [exact E|]. unfold pre_assembler in E.
  apply (pre_assembler_loop_made_of (read_lines input)) in E.
  - exact E.
  - apply incl_refl.
  - constructor.
  - exists []. split; [reflexivity | apply incl_nil_l].
Qed.

(** ** Two register operands *)

Lemma octal_digit_cases (c : ascii) :
  (48 <= code c <= 55)%N ->
  In c ["0"; "1"; "2"; "3"; "4"; "5"; "6"; "7"]%char.
Proof.
  destruct c as [[] [] [] [] [] [] [] []]; vm_compute; intros [H1 H2];
    try (exfalso; apply H1; reflexivity);
    try (exfalso; apply H2; reflexivity); tauto.
Qed.

Ltac each_digit H :=
  apply octal_digit_cases in H; cbn [In] in H;
  destruct H as [<-|[<-|[<-|[<-|[<-|[<-|[<-|[<-|[]]]]]]]]].

Lemma register_operand_mode (i : bool) (d : ascii) :
  (48 <= code d <= 55)%N ->
  get_addressing_mode (Some (register_operand i d)) = if i then 2 else 3.
Proof. intros H. each_digit H; destruct i; reflexivity. Qed.

Lemma register_operand_encoded (i : bool) (d : ascii) table are0 addr is_source :
  (48 <= code d <= 55)%N ->
  encode_operand (register_operand i d) table are0 addr is_source
  = (Z.of_N (code d) - 48, 4, table).
Proof.
  intros H. unfold encode_operand. rewrite (register_operand_mode i d H).
  each_digit H; destruct i; reflexivity.
Qed.

Lemma register_pair_split (si ti : bool) (a b : ascii) :
  (48 <= code a <= 55)%N -> (48 <= code b <= 55)%N ->
  split_operands (register_operand si a ++ "," ++ register_operand ti b)
  = (register_operand si a, register_operand ti b).
Proof.
  intros Ha Hb. each_digit Ha; each_digit Hb; destruct si, ti; vm_compute; reflexivity.
Qed.

Lemma register_word_value (x y : Z) :
  0 <= x <= 7 -> 0 <= y <= 7 ->
  Z.lor (Z.lor (Z.shiftl (Z.land (to_uint x) 7) 6)
               (Z.shiftl (Z.land (to_uint y) 7) 3)) 4
  = 64 * x + 8 * y + 4.
Proof.
  intros Hx Hy.
  assert (Ex : x = 0 \/ x = 1 \/ x = 2 \/ x = 3 \/ x = 4 \/ x = 5 \/ x = 6 \/ x = 7) by lia.
  assert (Ey : y = 0 \/ y = 1 \/ y = 2 \/ y = 3 \/ y = 4 \/ y = 5 \/ y = 6 \/ y = 7) by lia.
  destruct Ex as [->|[->|[->|[->|[->|[->|[->| ->]]]]]]];
    destruct Ey as [->|[->|[->|[->|[->|[->|[->| ->]]]]]]]; reflexivity.
Qed.

(** An instruction whose two operands are registers, each direct ([rN]) or
    indirect ([*rN]), is written as two words: the first word, and one word
    that holds the number of the source register in bits 6 to 8, that of the
    target register in bits 3 to 5 and 4 in the three low bits.  Encoding it
    leaves the symbol table as it was. *)
Theorem register_pair_word (operation : string) (si ti : bool) (a b : ascii)
  (table : SymbolTable) (addr : Z) :
  (48 <= code a <= 55)%N -> (48 <= code b <= 55)%N ->
  let ops := (register_operand si a ++ "," ++ register_operand ti b)%string in
  let inst := fst (encode_instruction operation (Some ops) table addr) in
  write_instruction inst addr
  = [ (addr, first_word inst);
      (addr + 1, 64 * (Z.of_N (code a) - 48) + 8 * (Z.of_N (code b) - 48) + 4) ]
  /\ snd (encode_instruction operation (Some ops) table addr) = table.
Proof.
  intros Ha Hb ops inst. subst inst ops. unfold encode_instruction.
  rewrite (register_pair_split si ti a b Ha Hb).
  assert (Ht : is_empty (register_operand ti b) = false) by (destruct ti; reflexivity).
  rewrite Ht.
  rewrite (register_operand_mode si a Ha), (register_operand_mode ti b Hb).
  assert (Hs4 : ((if si then 2 else 3) =? 4) = false) by (destruct si; reflexivity).
  assert (Ht4 : ((if ti then 2 else 3) =? 4) = false) by (destruct ti; reflexivity).
  rewrite Hs4, Ht4. cbn [negb].
  rewrite (register_operand_encoded si a table 4 addr true Ha). cbv iota beta.
  rewrite (register_operand_encoded ti b table 4 addr false Hb). cbv iota beta.
  cbn [fst snd]. split; [|reflexivity].
  unfold write_instruction.
  cbn [source_addressing target_addressing source_operand target_operand].
  assert (Hs : (((if si then 2 else 3) =? 2) || ((if si then 2 else 3) =? 3))%bool = true)
    by (destruct si; reflexivity).
  assert (Ht' : (((if ti then 2 else 3) =? 2) || ((if ti then 2 else 3) =? 3))%bool = true)
    by (destruct ti; reflexivity).
  rewrite Hs, Ht'. cbn [andb].
  rewrite register_word_value by lia. reflexivity.
Qed.

Lemma register_pair_word_witness :
  (48 <= code "1" <= 55)%N /\ (48 <= code "2" <= 55)%N /\
  write_instruction
    (fst (encode_instruction "mov" (Some "r1,*r2"%string) init_symbol_table 100)) 100
  = [ (100, first_word
              (fst (encode_instruction "mov" (Some "r1,*r2"%string) init_symbol_table 100)));
      (101, 84) ].
Proof.
  assert (Ha : (48 <= code "1" <= 55)%N) by (vm_compute; split; discriminate).
  assert (Hb : (48 <= code "2" <= 55)%N) by (vm_compute; split; discriminate).
  split; [exact Ha|]. split; [exact Hb|].
  exact (proj1 (register_pair_word "mov" false true "1" "2" init_symbol_table 100 Ha Hb)).
Defined.
